(** * Mattress viewer: view-state controller

    A shallow embedding of the controller logic of the Mattress 3D product
    viewer: the React front end ([src/ui/App.tsx]), the desktop viewer
    ([src/viewer.ts]) and the mobile viewer ([src/viewer.mobile.ts]).

    Conventions.
    - A JavaScript string is the list of its UTF-16 code units ([list N]).
    - JavaScript numbers that are only compared, clamped or copied (wheel
      delta, clip time, the argument of [setExplode], coordinates) are
      rationals ([Q]), that is finite numbers: [Math.max], [Math.min], [<]
      and assignment are exact on finite doubles.  Integral numbers (stage
      indices, array indices, parsed section numbers) are [Z].
    - An opacity, and the dim opacity that a caller hands to [isolateIndex],
      is a [Double.t]: a finite number, an infinity or NaN, with the
      comparison and [Math.max] / [Math.min] of ECMAScript on them.
    - The module-level variables of a viewer are the fields of one record
      that every operation takes and returns. *)

From Stdlib Require Import ZArith NArith QArith Qminmax Qabs List Lia Bool.
From Stdlib Require Import Sorting.Sorted Sorting.Permutation String Ascii.
From Stdlib Require Import DecimalString Lqa.
From stdpp Require Import gmap strings list.
Import ListNotations.

Open Scope Z_scope.

(* ===================================================================== *)
(** * JavaScript strings and numbers *)
(* ===================================================================== *)

Module JS.

(** The code units of an ASCII literal of the source. *)
Fixpoint str (s : string) : list N :=
  match s with
  | EmptyString => []
  | String a s' => N_of_ascii a :: str s'
  end.

(** [WhiteSpace] and [LineTerminator] of ECMAScript: the characters that
    [\s] matches and that [String.prototype.trim] strips. *)
Definition isWhiteSpace (c : N) : bool :=
  existsb (N.eqb c)
    [9; 10; 11; 12; 13; 32; 160; 5760; 8232; 8233; 8239; 8287; 12288; 65279]%N
  || ((8192 <=? c)%N && (c <=? 8202)%N).

(** [\d] is [0-9]. *)
Definition isDigit (c : N) : bool := ((48 <=? c)%N && (c <=? 57)%N).

(** [Canonicalize] of a case-insensitive, non-unicode RegExp, restricted to
    what a comparison with an ASCII pattern character can observe: ASCII
    letters fold to upper case, and a code unit of 128 or more never folds
    to an ASCII one. *)
Definition canonicalize (c : N) : N :=
  if ((97 <=? c)%N && (c <=? 122)%N) then (c - 32)%N else c.

Fixpoint trimStart (s : list N) : list N :=
  match s with
  | [] => []
  | c :: s' => if isWhiteSpace c then trimStart s' else s
  end.

Definition trimEnd (s : list N) : list N := rev (trimStart (rev s)).

(** [String.prototype.trim]. *)
Definition trim (s : list N) : list N := trimEnd (trimStart s).

(** The values [parseInt] can return on a string of decimal digits. *)
Inductive number :=
| Finite (z : Z)
| PosInfinity
| NaN.

Definition isFinite (x : number) : bool :=
  match x with Finite _ => true | _ => false end.

(** The Number value of a non-negative mathematical integer: the nearest
    double, ties to even, [Infinity] from 2^1024 - 2^970 on. *)
Definition toDouble (n : Z) : number :=
  if n <? 2 ^ 53 then Finite n
  else
    let e := Z.log2 n - 52 in
    let q := n / 2 ^ e in
    let r := n mod 2 ^ e in
    let q' := if 2 * r <? 2 ^ e then q
              else if 2 ^ e <? 2 * r then q + 1
              else if Z.even q then q else q + 1 in
    let v := q' * 2 ^ e in
    if 2 ^ 1024 <=? v then PosInfinity else Finite v.

Definition digitValue (c : N) : Z := Z.of_N c - 48.

Definition digitsValue (ds : list N) : Z :=
  fold_left (fun acc c => 10 * acc + digitValue c) ds 0.

(** [parseInt(ds, 10)] on a string made of decimal digits only. *)
Definition parseInt10 (ds : list N) : number :=
  match ds with
  | [] => NaN
  | _ => toDouble (digitsValue ds)
  end.

(** The decimal numeral of a natural number, as a template literal prints
    it. *)
Definition digitsOfNat (n : nat) : list N :=
  str (NilZero.string_of_uint (Nat.to_uint n)).

End JS.

(** A JavaScript number that a caller may supply: a finite double is the
    rational it denotes. *)
Module Double.
Local Open Scope Q_scope.

Inductive t :=
| Finite (q : Q)
| PosInfinity
| NegInfinity
| NaN.

(** [a < b]: false as soon as one side is NaN. *)
Definition lt (a b : t) : bool :=
  match a, b with
  | NaN, _ | _, NaN => false
  | PosInfinity, _ => false
  | _, NegInfinity => false
  | NegInfinity, _ => true
  | Finite _, PosInfinity => true
  | Finite p, Finite q => if Qlt_le_dec p q then true else false
  end.

(** [a <= b]: false as soon as one side is NaN. *)
Definition le (a b : t) : bool :=
  match a, b with
  | NaN, _ | _, NaN => false
  | NegInfinity, _ => true
  | _, PosInfinity => true
  | PosInfinity, _ => false
  | Finite _, NegInfinity => false
  | Finite p, Finite q => if Qlt_le_dec q p then false else true
  end.

(** [Math.max(a, b)]: NaN as soon as one argument is NaN. *)
Definition max (a b : t) : t :=
  match a, b with
  | NaN, _ | _, NaN => NaN
  | PosInfinity, _ | _, PosInfinity => PosInfinity
  | NegInfinity, x | x, NegInfinity => x
  | Finite p, Finite q => Finite (Qmax p q)
  end.

(** [Math.min(a, b)]: NaN as soon as one argument is NaN. *)
Definition min (a b : t) : t :=
  match a, b with
  | NaN, _ | _, NaN => NaN
  | NegInfinity, _ | _, NegInfinity => NegInfinity
  | PosInfinity, x | x, PosInfinity => x
  | Finite p, Finite q => Finite (Qmin p q)
  end.

End Double.

Coercion Double.Finite : Q >-> Double.t.

(* ===================================================================== *)
(** * Regular expressions: the fragment used by the section pattern *)
(* ===================================================================== *)

Module Regex.
Import JS.

Inductive regex :=
| REps
| RChar (c : N)          (* a pattern character, matched under the [i] flag *)
| RSpace                 (* [\s] *)
| RDigit                 (* [\d] *)
| RSeq (r1 r2 : regex)
| RAlt (r1 r2 : regex)   (* [r1|r2], left alternative first *)
| RStar (r : regex).     (* greedy [r*] *)

Definition RPlus (r : regex) : regex := RSeq r (RStar r).

Fixpoint lit (s : list N) : regex :=
  match s with
  | [] => REps
  | c :: s' => RSeq (RChar c) (lit s')
  end.

(** The greedy loop of [r*]: try one more iteration that consumes input,
    then the continuation. *)
Fixpoint star_loop {A} (body : list N -> (list N -> option A) -> option A)
    (k : list N -> option A) (fuel : nat) (s : list N) : option A :=
  match fuel with
  | O => k s
  | S f =>
      match body s (fun s' => if (length s' <? length s)%nat
                              then star_loop body k f s' else None) with
      | Some a => Some a
      | None => k s
      end
  end.

(** Backtracking matcher in continuation-passing style, as the RegExp
    semantics of ECMAScript is written: [exec r s k] matches a prefix of [s]
    against [r] and hands the rest to [k]; the first success in priority
    order wins. *)
Fixpoint exec {A} (r : regex) (s : list N) (k : list N -> option A)
    : option A :=
  match r with
  | REps => k s
  | RChar c =>
      match s with
      | x :: s' => if (canonicalize x =? canonicalize c)%N then k s' else None
      | [] => None
      end
  | RSpace =>
      match s with
      | x :: s' => if isWhiteSpace x then k s' else None
      | [] => None
      end
  | RDigit =>
      match s with
      | x :: s' => if isDigit x then k s' else None
      | [] => None
      end
  | RSeq r1 r2 => exec r1 s (fun s1 => exec r2 s1 k)
  | RAlt r1 r2 =>
      match exec r1 s k with
      | Some a => Some a
      | None => exec r2 s k
      end
  | RStar r1 => star_loop (exec r1) k (S (length s)) s
  end.

(** The language of a pattern. *)
Inductive matches : regex -> list N -> Prop :=
| MEps : matches REps []
| MChar c x : canonicalize x = canonicalize c -> matches (RChar c) [x]
| MSpace x : isWhiteSpace x = true -> matches RSpace [x]
| MDigit x : isDigit x = true -> matches RDigit [x]
| MSeq r1 r2 s1 s2 :
    matches r1 s1 -> matches r2 s2 -> matches (RSeq r1 r2) (s1 ++ s2)
| MAltL r1 r2 s : matches r1 s -> matches (RAlt r1 r2) s
| MAltR r1 r2 s : matches r2 s -> matches (RAlt r1 r2) s
| MStarNil r : matches (RStar r) []
| MStarCons r s1 s2 :
    matches r s1 -> s1 <> [] -> matches (RStar r) s2 ->
    matches (RStar r) (s1 ++ s2).

(** The section pattern of [parseNamedParts], written with blanks between
    its tokens:  ^ (?: \s* (?: sec | se | section ) \s* ) ( \d+ ) \s* $
    with flag [i].  It is kept in three pieces around its capture group. *)
Definition rx_prefix : regex :=
  RSeq (RStar RSpace)
    (RSeq (RAlt (lit (str "sec")) (RAlt (lit (str "se")) (lit (str "section"))))
          (RStar RSpace)).
Definition rx_group : regex := RPlus RDigit.
Definition rx_suffix : regex := RStar RSpace.

(** [rx.exec(t)]: [Some m1] with [m1] the text of capture group 1, or
    [None] for [null].  [^] pins the match at the start, [$] at the end. *)
Definition rx_exec (t : list N) : option (list N) :=
  exec rx_prefix t (fun s1 =>
    exec rx_group s1 (fun s2 =>
      exec rx_suffix s2 (fun s3 =>
        match s3 with
        | [] => Some (firstn (length s1 - length s2) s1)
        | _ :: _ => None
        end))).

(** [rx.test(t)]. *)
Definition rx_test (t : list N) : bool :=
  match rx_exec t with Some _ => true | None => false end.

End Regex.

(* ===================================================================== *)
(** * The front end: [src/ui/App.tsx] *)
(* ===================================================================== *)

Module App.
Import JS Regex.

Record NamedPart := mkNamedPart {
  np_name : list N;
  np_index : nat;
  np_num : Z
}.

(** The body of the [forEach] callback of [parseNamedParts]: the entry
    pushed for [name] at position [idx], if any. *)
Definition pick (idx : nat) (name : list N) : option NamedPart :=
  match rx_exec (trim name) with
  | None => None
  | Some m1 =>
      match parseInt10 m1 with
      | Finite num => Some (mkNamedPart name idx num)
      | _ => None
      end
  end.

Fixpoint collect (idx : nat) (allNames : list (list N)) : list NamedPart :=
  match allNames with
  | [] => []
  | name :: rest =>
      match pick idx name with
      | Some p => p :: collect (S idx) rest
      | None => collect (S idx) rest
      end
  end.

(** The comparator [(a, b) => a.num - b.num]. *)
Definition compareNum (a b : NamedPart) : Z := np_num a - np_num b.

(** [Array.prototype.sort] is a stable sort; with a consistent comparator
    its result is determined (see [sortPicks_unique]).  It is run here as an
    insertion sort that keeps an element before those that do not compare
    smaller. *)
Fixpoint insertPick (x : NamedPart) (l : list NamedPart) : list NamedPart :=
  match l with
  | [] => [x]
  | y :: l' => if compareNum x y <=? 0 then x :: y :: l'
               else y :: insertPick x l'
  end.

Fixpoint sortPicks (l : list NamedPart) : list NamedPart :=
  match l with
  | [] => []
  | x :: l' => insertPick x (sortPicks l')
  end.

Definition parseNamedParts (allNames : list (list N)) : list NamedPart :=
  sortPicks (collect 0 allNames).

(** Stage arithmetic.  [%] is the truncating remainder of JavaScript. *)
Definition totalStages (namedParts : list NamedPart) : Z :=
  2 + Z.of_nat (length namedParts).

Definition loopIndex (totalStages i : Z) : Z :=
  if totalStages <=? 0 then 0
  else Z.rem (Z.rem i totalStages + totalStages) totalStages.

Definition nextStage (totalStages s : Z) : Z := loopIndex totalStages (s + 1).
Definition prevStage (totalStages s : Z) : Z := loopIndex totalStages (s - 1).

End App.

(* ===================================================================== *)
(** * The part of Three.js the viewers rely on *)
(* ===================================================================== *)

Module Three.
Local Open Scope Q_scope.

Definition Vec3 : Type := Q * Q * Q.
Definition vzero : Vec3 := (0, 0, 0).

(** An axis-aligned box; [None] is the empty box of [makeEmpty]. *)
Definition Box3 : Type := option (Vec3 * Vec3).

Definition vmin (a b : Vec3) : Vec3 :=
  let '(ax, ay, az) := a in let '(bx, b_y, bz) := b in
  (Qmin ax bx, Qmin ay b_y, Qmin az bz).
Definition vmax (a b : Vec3) : Vec3 :=
  let '(ax, ay, az) := a in let '(bx, b_y, bz) := b in
  (Qmax ax bx, Qmax ay b_y, Qmax az bz).

Definition box_union (a b : Box3) : Box3 :=
  match a, b with
  | None, _ => b
  | _, None => a
  | Some (amin, amax), Some (bmin, bmax) => Some (vmin amin bmin, vmax amax bmax)
  end.

(** [Box3.getCenter]: the origin for an empty box, else the midpoint. *)
Definition getCenter (b : Box3) : Vec3 :=
  match b with
  | None => vzero
  | Some ((x0, y0, z0), (x1, y1, z1)) =>
      if Qlt_le_dec x1 x0 then vzero
      else if Qlt_le_dec y1 y0 then vzero
      else if Qlt_le_dec z1 z0 then vzero
      else ((x0 + x1) * (1 # 2), (y0 + y1) * (1 # 2), (z0 + z1) * (1 # 2))
  end.

(** The entry of the [savedMatProps] WeakMap for a material.  The map is
    keyed by the material object, so the entry is kept with the material. *)
Record SavedProps := mkSaved {
  saved_transparent : bool;
  saved_opacity : Double.t
}.

Record Material := mkMaterial {
  opacity : Double.t;
  transparent : bool;
  depthWrite : bool;
  colorWrite : bool;
  alphaTest : Q;
  saved : option SavedProps
}.

(** [o.material]: absent, one material, or an array. *)
Inductive MaterialSlot :=
| NoMaterial
| OneMaterial (m : Material)
| MaterialArray (ms : list Material).

(** A node of the scene graph.  [geomBox] is the world-space box of the
    node's own geometry, as [Box3.expandByObject] obtains it on the node as
    it was loaded.  The poses that animation clips give to the nodes are not
    represented, so what is stated about boxes is stated for an asset
    without clips, whose nodes nothing moves after the load. *)
#[warnings="-register-all"]
Inductive Object3D := mkObj {
  name : list N;
  visible : bool;
  isMesh : bool;
  material : MaterialSlot;
  geomBox : Box3;
  children : list Object3D
}.

(** [Object3D.traverse]: the node, then each child's subtree in order. *)
Fixpoint traverse (o : Object3D) : list Object3D :=
  o :: (fix go (l : list Object3D) : list Object3D :=
          match l with
          | [] => []
          | c :: l' => traverse c ++ go l'
          end) (children o).

(** [Box3().setFromObject(o)]. *)
Definition setFromObject (o : Object3D) : Box3 :=
  fold_left (fun b n => box_union b (geomBox n)) (traverse o) None.

Definition mapSlot (f : Material -> Material) (m : MaterialSlot) : MaterialSlot :=
  match m with
  | NoMaterial => NoMaterial
  | OneMaterial x => OneMaterial (f x)
  | MaterialArray xs => MaterialArray (List.map f xs)
  end.

(** The loop [o.traverse(n => { if (!n.isMesh) return; ...apply f to
    n.material or to each element of it... })]. *)
Fixpoint forMeshMaterials (f : Material -> Material) (o : Object3D) : Object3D :=
  mkObj (name o) (visible o) (isMesh o)
    (if isMesh o then mapSlot f (material o) else material o)
    (geomBox o)
    ((fix go (l : list Object3D) : list Object3D :=
        match l with
        | [] => []
        | c :: l' => forMeshMaterials f c :: go l'
        end) (children o)).

Definition slotMaterials (m : MaterialSlot) : list Material :=
  match m with
  | NoMaterial => []
  | OneMaterial x => [x]
  | MaterialArray xs => xs
  end.

(** The materials that the mesh loop above visits, in visiting order. *)
Definition meshMaterials (o : Object3D) : list Material :=
  List.flat_map (fun n => if isMesh n then slotMaterials (material n) else [])
    (traverse o).

Definition setName (n : list N) (o : Object3D) : Object3D :=
  mkObj n (visible o) (isMesh o) (material o) (geomBox o) (children o).

Definition setVisible (v : bool) (o : Object3D) : Object3D :=
  mkObj (name o) v (isMesh o) (material o) (geomBox o) (children o).

(** An [AnimationAction] on a one-shot clip.  [scheduled] tells whether
    [play()] has put the action on the mixer's active list. *)
Record Action := mkAction {
  enabled : bool;
  paused : bool;
  time : Q;
  timeScale : Q;
  weight : Q;
  clampWhenFinished : bool;
  scheduled : bool;
  clipDuration : Q
}.

(** [AnimationAction._update] for [LoopOnce]: the clip time advances by the
    frame delta times the effective time scale (zero when paused) and stops
    at either end of the clip. *)
Definition updateAction (dt : Q) (a : Action) : Action :=
  if negb (scheduled a) || negb (enabled a) then a
  else
    let d := dt * (if paused a then 0 else timeScale a) in
    if Qeq_bool d 0 then a
    else
      let t := time a + d in
      if Qle_bool (clipDuration a) t then
        mkAction (if clampWhenFinished a then enabled a else false)
                 (if clampWhenFinished a then true else paused a)
                 (clipDuration a) (timeScale a) (weight a)
                 (clampWhenFinished a) (scheduled a) (clipDuration a)
      else if Qle_bool 0 t then
        mkAction (enabled a) (paused a) t (timeScale a) (weight a)
                 (clampWhenFinished a) (scheduled a) (clipDuration a)
      else
        mkAction (if clampWhenFinished a then enabled a else false)
                 (if clampWhenFinished a then true else paused a)
                 0 (timeScale a) (weight a)
                 (clampWhenFinished a) (scheduled a) (clipDuration a).

Record Clip := mkClip {
  clip_name : list N;
  clip_duration : Q
}.

(** What [GLTFLoader] hands to its [onLoad] callback. *)
Record GLTF := mkGLTF {
  gltf_scene : option Object3D;
  gltf_scenes : list Object3D;
  gltf_animations : list Clip
}.

Inductive LoaderResult :=
| LoadOk (gltf : GLTF)
| LoadError.

Inductive Promise :=
| Resolved
| Rejected.

End Three.

Import JS Regex App Three.

(* ===================================================================== *)
(** * The viewers: [src/viewer.ts] and [src/viewer.mobile.ts] *)
(* ===================================================================== *)

Module Viewer.
Local Open Scope Q_scope.

(** The two builds share their controller code; they differ in the zoom
    constant, in the default dim opacity and in [loadGLB]. *)
Inductive Variant := Desktop | Mobile.

Definition EXPLODED_ZOOM_FACTOR (v : Variant) : Q :=
  match v with Desktop => 130 # 100 | Mobile => 125 # 100 end.

(** [explodeState]: 0 or 1. *)
Inductive ExplodeState := Overview | Exploded.

(** The module-level variables, grouped by concern.

    [scene]: [None] is [null]; [Some m] is a scene whose asset child is [m]
    (camera, backdrop, lights and reticle are not represented).
    [camera], [controls], [mixer]: whether the variable is non-null; the
    mixer's action list is carried by [actions].  Camera pose and
    [controls.target] are not represented.
    [parts] holds the part subtrees themselves; every operation below that
    touches a part reads and writes it through [parts].  [currentModel] and
    the scene keep the tree as it was loaded and only tell which model, if
    any, is current and displayed. *)
Record Rig := mkRig {
  scene : option (option Object3D);
  camera : bool;
  controls : bool;
  target_desired : Vec3
}.

Record Asset := mkAsset {
  pivot : option Object3D;
  currentModel : option Object3D;
  parts : list Object3D;
  partNames : list (list N);
  bbox : Box3;
  centroid : Vec3
}.

Record Anim := mkAnim {
  mixer : bool;
  actions : gmap (list N) Action;
  clipNames : list (list N);
  clipDurations : gmap (list N) Q;
  playbackSpeed : Q;
  explodeState : ExplodeState
}.

(** [zoomAnimRAF] is [Some k] from the start of a smooth dolly by factor
    [k] until it is cancelled (the frames of the dolly itself are not
    represented); [zoomStarted] logs the factor of every smooth dolly
    started. *)
Record Zoom := mkZoom {
  explodedZoomApplied : bool;
  zoomAnimRAF : option Q;
  zoomStarted : list Q
}.

Record State := mkState {
  rig : Rig;
  asset : Asset;
  anim : Anim;
  zoom : Zoom
}.

(** ** Smooth zoom *)

Definition dollyScaleSmooth (k : Q) (r : Rig) (z : Zoom) : Zoom :=
  if negb (camera r) || negb (controls r) then z
  else mkZoom (explodedZoomApplied z) (Some k) (zoomStarted z ++ [k]).

Definition applyExplodedZoom (v : Variant) (r : Rig) (z : Zoom) : Zoom :=
  if explodedZoomApplied z then z
  else
    let z' := dollyScaleSmooth (EXPLODED_ZOOM_FACTOR v) r z in
    mkZoom true (zoomAnimRAF z') (zoomStarted z').

Definition clearExplodedZoom (v : Variant) (r : Rig) (z : Zoom) : Zoom :=
  if negb (explodedZoomApplied z) then z
  else
    let z' := dollyScaleSmooth (1 / EXPLODED_ZOOM_FACTOR v) r z in
    mkZoom false (zoomAnimRAF z') (zoomStarted z').

(** ** Parts *)

Definition hasMesh (o : Object3D) : bool := existsb isMesh (traverse o).

(** [gatherParts(root)].  [rootParent] is [root.parent], if any.  When no
    child of the root contains a mesh, the only mesh the fallback traversal
    can meet is the root itself (see [fallback_mesh_is_root]). *)
Definition gatherParts (rootParent : option Object3D) (root : Object3D)
    : list Object3D :=
  match List.filter hasMesh (children root) with
  | [] =>
      if isMesh root then
        match rootParent with Some par => [par] | None => [] end
      else []
  | set => set
  end.

(** [wrap] of [cloneMaterials]. *)
Definition wrap (m : Material) : Material :=
  let baseTransparent := transparent m in
  let raw := opacity m in
  let baseOpacity : Double.t := if Double.lt (1 # 10) raw then raw else 1 in
  mkMaterial baseOpacity true true (colorWrite m) (alphaTest m)
    (Some (mkSaved baseTransparent baseOpacity)).

Definition cloneMaterials (root : Object3D) : Object3D :=
  forMeshMaterials wrap root.

(** [p.name || `Part ${i + 1}`]. *)
Definition partLabel (i : nat) (p : Object3D) : list N :=
  match name p with
  | [] => (str "Part " ++ digitsOfNat (i + 1))%list
  | n => n
  end.

Definition savedBase (m : Material) : Double.t :=
  match saved m with Some sv => saved_opacity sv | None => 1 end.

(** [apply] of [isolatePart], for a part that is ([keep]) or is not the
    isolated one. *)
Definition isolateMaterial (keep : bool) (dim : Double.t) (m : Material)
    : Material :=
  let base := savedBase m in
  mkMaterial (if keep then Double.max (98 # 100) base else dim)
    true true true (alphaTest m) (saved m).

Definition isKept (index : option Z) (i : nat) : bool :=
  match index with
  | None => true
  | Some j => (Z.of_nat i =? j)%Z
  end.

(** [Math.max(0.08, Math.min(0.5, dimOpacity))]. *)
Definition clampDim (dimOpacity : Double.t) : Double.t :=
  Double.max (8 # 100) (Double.min (1 # 2) dimOpacity).

Definition isolatePart (index : option Z) (dimOpacity : Double.t)
    (ps : list Object3D) : list Object3D :=
  let dim := clampDim dimOpacity in
  imap (fun i p =>
          forMeshMaterials (isolateMaterial (isKept index i) dim)
            (setVisible true p)) ps.

(** [use] of [applyVisibilityMask]. *)
Definition maskMaterial (allow : bool) (m : Material) : Material :=
  let base := savedBase m in
  mkMaterial (if allow then Double.max (98 # 100) base else 0)
    true true allow (alphaTest m) (saved m).

Definition applyVisibilityMask (indices : option (list Z))
    (ps : list Object3D) : list Object3D :=
  imap (fun i p =>
          let allow := match indices with
                       | None => true
                       | Some keep => existsb (Z.eqb (Z.of_nat i)) keep
                       end in
          forMeshMaterials (maskMaterial allow) (setVisible allow p)) ps.

(** [getPartWorldCenter(index)]; [None] stands for the [TypeError] raised
    on [parts[index]] being [undefined]. *)
Definition getPartWorldCenter (index : Z) (ps : list Object3D) : option Vec3 :=
  if (index <? 0)%Z then None
  else match nth_error ps (Z.to_nat index) with
       | Some p => Some (getCenter (setFromObject p))
       | None => None
       end.

(** ** The handle *)

Definition with_asset (f : Asset -> Asset) (s : State) : State :=
  mkState (rig s) (f (asset s)) (anim s) (zoom s).

Definition with_parts (ps : list Object3D) (a : Asset) : Asset :=
  mkAsset (pivot a) (currentModel a) ps (partNames a) (bbox a) (centroid a).

Definition with_target (t : Vec3) (s : State) : State :=
  mkState (mkRig (scene (rig s)) (camera (rig s)) (controls (rig s)) t)
    (asset s) (anim s) (zoom s).

(** [isolateIndex(i, dimOpacity)]; an omitted [dimOpacity] takes the
    default of the build. *)
Definition defaultDim (v : Variant) : Double.t :=
  match v with Desktop => 1 # 100 | Mobile => 22 # 100 end.

Definition isolateIndex (v : Variant) (i : option Z)
    (dimOpacity : option Double.t)
    (s : State) : State :=
  with_asset (fun a =>
    with_parts (isolatePart i (default (defaultDim v) dimOpacity) (parts a)) a) s.

Definition setVisibleIndices (indices : option (list Z)) (s : State) : State :=
  with_asset (fun a => with_parts (applyVisibilityMask indices (parts a)) a) s.

Definition partCount (s : State) : nat := length (parts (asset s)).
Definition getPartNames (s : State) : list (list N) := partNames (asset s).

(** [setOrbitTargetTo(index)]; [None] stands for an exception. *)
Definition setOrbitTargetTo (index : option Z) (s : State) : option State :=
  if negb (controls (rig s)) then Some s
  else
    match index with
    | None => Some (with_target (centroid (asset s)) s)
    | Some i =>
        if ((i <? 0) || (Z.of_nat (length (parts (asset s))) <=? i))%Z
        then Some (with_target (centroid (asset s)) s)
        else match getPartWorldCenter i (parts (asset s)) with
             | Some c => Some (with_target c s)
             | None => None
             end
    end.

(** ** Explosion controller *)

Definition clipDur (cd : gmap (list N) Q) (nm : list N) (a : Action) : Q :=
  default (clipDuration a) (cd !! nm).

(** exploded -> overview: play in reverse from the end. *)
Definition playReverse (dur : Q) (a : Action) : Action :=
  mkAction true false (Qmax 0 (dur - (1 # 1000000))) (-1) 1 true true
    (clipDuration a).

(** overview -> overview: rest at the first frame. *)
Definition snapStart (a : Action) : Action :=
  mkAction true true 0 1 1 true (scheduled a) (clipDuration a).

(** exploded -> exploded: rest at the last frame. *)
Definition snapEnd (dur : Q) (a : Action) : Action :=
  mkAction true true dur 1 1 true (scheduled a) (clipDuration a).

(** overview -> exploded: play forward from the start. *)
Definition playForward (a : Action) : Action :=
  mkAction true false 0 1 1 true true (clipDuration a).

(** scrub: pause at [dur * t]. *)
Definition scrubTo (dur t : Q) (a : Action) : Action :=
  mkAction true true (dur * t) (timeScale a) 1 (clampWhenFinished a) true
    (clipDuration a).

Definition mixerUpdate (dt : Q) (acts : gmap (list N) Action)
    : gmap (list N) Action :=
  updateAction dt <$> acts.

Definition with_actions (acts : gmap (list N) Action) (st : ExplodeState)
    (a : Anim) : Anim :=
  mkAnim (mixer a) acts (clipNames a) (clipDurations a) (playbackSpeed a) st.

(** [THREE.MathUtils.clamp(t, 0, 1)] on a finite number. *)
Definition clamp01 (t : Q) : Q := Qmax 0 (Qmin 1 t).

(** [setExplode(t)] for a finite number [t].  Handed NaN, the source clamps
    to NaN, fails both comparisons and scrubs every clip to the time NaN;
    clip times are rationals here, so that call is not represented, and what
    is stated about clip times is stated for calls with a finite [t]. *)
Definition setExplode (v : Variant) (t : Q) (s : State) : State :=
  let an := anim s in
  if negb (mixer an) || (size (actions an) =? 0)%nat then s
  else
    let t := clamp01 t in
    if Qle_bool t 0 then
      let acts :=
        match explodeState an with
        | Exploded =>
            map_imap (fun nm a => Some (playReverse (clipDur (clipDurations an) nm a) a))
              (actions an)
        | Overview =>
            mixerUpdate (1 # 1000000) (snapStart <$> actions an)
        end in
      mkState (rig s) (asset s) (with_actions acts Overview an)
        (clearExplodedZoom v (rig s) (zoom s))
    else if Qle_bool 1 t then
      let acts :=
        match explodeState an with
        | Exploded =>
            mixerUpdate (1 # 1000000)
              (map_imap (fun nm a => Some (snapEnd (clipDur (clipDurations an) nm a) a))
                 (actions an))
        | Overview => playForward <$> actions an
        end in
      mkState (rig s) (asset s) (with_actions acts Exploded an)
        (applyExplodedZoom v (rig s) (zoom s))
    else
      let acts :=
        mixerUpdate 0
          (map_imap (fun nm a => Some (scrubTo (clipDur (clipDurations an) nm a) t a))
             (actions an)) in
      mkState (rig s) (asset s) (with_actions acts (explodeState an) an) (zoom s).

(** The animation part of [renderFrame], [dt] seconds after the previous
    frame: [if (mixer) mixer.update(dt * playbackSpeed)].  The update is
    followed on the clip times; the node transforms that the clips drive are
    not part of the scene graph above. *)
Definition renderFrame (dt : Q) (s : State) : State :=
  let an := anim s in
  if mixer an then
    mkState (rig s) (asset s)
      (with_actions (mixerUpdate (dt * playbackSpeed an) (actions an))
         (explodeState an) an)
      (zoom s)
  else s.


(** ** Loading *)

Definition gltfRoot (g : GLTF) : option Object3D :=
  match gltf_scene g with
  | Some r => Some r
  | None => head (gltf_scenes g)
  end.

(** The action [loadGLB] registers for a clip: one-shot, paused at 0. *)
Definition newAction (c : Clip) : Action :=
  mkAction true true 0 1 1 true false (clip_duration c).

(** [clip.name?.length ? clip.name : `Clip_${i}`]. *)
Definition clipKey (i : nat) (c : Clip) : list N :=
  match clip_name c with
  | [] => (str "Clip_" ++ digitsOfNat i)%list
  | n => n
  end.

Fixpoint addClips (i : nat) (clips : list Clip) (a : Anim) : Anim :=
  match clips with
  | [] => a
  | c :: rest =>
      let nm := clipKey i c in
      addClips (S i) rest
        (mkAnim (mixer a) (<[nm := newAction c]> (actions a))
           (clipNames a ++ [nm]) (<[nm := clip_duration c]> (clipDurations a))
           (playbackSpeed a) (explodeState a))
  end.

Definition loadAnimations (clips : list Clip) (a : Anim) : Anim :=
  match clips with
  | [] => a
  | _ =>
      let a' := addClips 0 clips
                  (mkAnim true (actions a) (clipNames a) (clipDurations a)
                     (playbackSpeed a) (explodeState a)) in
      mkAnim true (mixerUpdate (1 # 1000000) (actions a')) (clipNames a')
        (clipDurations a') (playbackSpeed a') Overview
  end.

Definition clearedAnim (a : Anim) : Anim :=
  mkAnim false ∅ [] ∅ (playbackSpeed a) Overview.

Definition clearedZoom (z : Zoom) : Zoom :=
  mkZoom false None (zoomStarted z).

(** [loadGLB] of the desktop build.  The previous asset is torn down before
    the loader runs; [src] is what the loader then reports. *)
Definition loadGLB (src : LoaderResult) (s : State) : State * Promise :=
  match scene (rig s) with
  | None => (s, Resolved)
  | Some shown =>
      let shown1 := match currentModel (asset s) with
                    | Some _ => None
                    | None => shown
                    end in
      let rig1 := mkRig (Some shown1) (camera (rig s)) (controls (rig s))
                    (target_desired (rig s)) in
      let asset1 := mkAsset (pivot (asset s)) None [] []
                      (bbox (asset s)) (centroid (asset s)) in
      let s1 := mkState rig1 asset1 (clearedAnim (anim s)) (clearedZoom (zoom s)) in
      match src with
      | LoadError => (s1, Rejected)
      | LoadOk gltf =>
          match gltfRoot gltf with
          | None => (s1, Rejected)
          | Some root0 =>
              let root := cloneMaterials root0 in
              let ps := gatherParts None root in
              let box := setFromObject root in
              (mkState
                 (mkRig (Some (Some root)) (camera rig1) (controls rig1)
                    (target_desired rig1))
                 (mkAsset (pivot asset1) (Some root) ps (imap partLabel ps)
                    box (getCenter box))
                 (loadAnimations (gltf_animations gltf) (anim s1))
                 (zoom s1),
               Resolved)
          end
      end
  end.

Definition dispose (s : State) : State :=
  mkState (mkRig None false false (target_desired (rig s)))
    (mkAsset None None [] [] (bbox (asset s)) (centroid (asset s)))
    (clearedAnim (anim s))
    (clearedZoom (zoom s)).

(** The module state when [initViewer] reaches its first [loadGLB]. *)
Definition fresh : State :=
  mkState (mkRig (Some None) true true vzero)
    (mkAsset None None [] [] None vzero)
    (mkAnim false ∅ [] ∅ 1 Overview)
    (mkZoom false None []).

(** [initViewer], from the first [loadGLB] on: the handle exists only if
    the load resolves, and the orbit target then starts at the centroid. *)
Definition initViewer (src : LoaderResult) : State * Promise :=
  match loadGLB src fresh with
  | (s, Resolved) => (with_target (centroid (asset s)) s, Resolved)
  | (s, Rejected) => (s, Rejected)
  end.

(** What is rendered and what was recorded for a part. *)
Definition partOpacities (p : Object3D) : list Double.t :=
  List.map opacity (meshMaterials p).
Definition partBases (p : Object3D) : list Double.t :=
  List.map savedBase (meshMaterials p).

(** The clip table as [loadGLB] builds it: every action has its clip's
    duration on record, durations and playback speed are not negative. *)
Definition animOk (a : Anim) : Prop :=
  (0 <= playbackSpeed a)%Q
  /\ map_Forall (fun nm act => clipDurations a !! nm = Some (clipDuration act)
                               /\ (0 <= clipDuration act)%Q) (actions a).




End Viewer.

Module Mobile.
Import Viewer.
Local Open Scope Q_scope.

(** The first node of [l] whose trimmed name is non-empty and matches. *)
Fixpoint firstSectionName (l : list Object3D) : option (list N) :=
  match l with
  | [] => None
  | o :: l' =>
      let n := trim (name o) in
      match n with
      | [] => firstSectionName l'
      | _ => if rx_test n then Some n else firstSectionName l'
      end
  end.

(** The body of the [forEach] of [promoteSectionNamesToParts]. *)
Definition promoteSectionName (p : Object3D) : Object3D :=
  let chosen :=
    if rx_test (trim (name p)) then Some (name p)
    else firstSectionName (traverse p) in
  match chosen with
  | Some (c :: n) => setName (c :: n) p
  | _ => p
  end.

Definition promoteSectionNamesToParts (partsArr : list Object3D)
    : list Object3D :=
  List.map promoteSectionName partsArr.

Definition vsub (a b : Vec3) : Vec3 :=
  let '(ax, ay, az) := a in let '(bx, b_y, bz) := b in
  (ax - bx, ay - b_y, az - bz).

Definition shiftBox (c : Vec3) (b : Box3) : Box3 :=
  match b with
  | None => None
  | Some (lo, hi) => Some (vsub lo c, vsub hi c)
  end.

(** [root.position.sub(c); root.updateMatrixWorld(true)]: every world box
    below the root moves by [-c]. *)
Fixpoint recenter (c : Vec3) (o : Object3D) : Object3D :=
  mkObj (name o) (visible o) (isMesh o) (material o) (shiftBox c (geomBox o))
    ((fix go (l : list Object3D) : list Object3D :=
        match l with
        | [] => []
        | x :: l' => recenter c x :: go l'
        end) (children o)).

Definition mkPivot (root : Object3D) : Object3D :=
  mkObj (str "Pivot") true false NoMaterial None [root].

(** [loadGLB] of the mobile build. *)
Definition loadGLB (src : LoaderResult) (s : State) : State * Promise :=
  match scene (rig s) with
  | None => (s, Resolved)
  | Some shown =>
      let shown1 := match pivot (asset s) with
                    | Some _ => None
                    | None => shown
                    end in
      let rig1 := mkRig (Some shown1) (camera (rig s)) (controls (rig s))
                    (target_desired (rig s)) in
      let asset1 := mkAsset None None [] [] (bbox (asset s)) (centroid (asset s)) in
      let s1 := mkState rig1 asset1 (clearedAnim (anim s)) (clearedZoom (zoom s)) in
      match src with
      | LoadError => (s1, Rejected)
      | LoadOk gltf =>
          match gltfRoot gltf with
          | None => (s1, Rejected)
          | Some root0 =>
              let root1 := cloneMaterials root0 in
              let root := recenter (getCenter (setFromObject root1)) root1 in
              let pv := mkPivot root in
              let ps := promoteSectionNamesToParts (gatherParts (Some pv) root) in
              let box := setFromObject pv in
              (mkState
                 (mkRig (Some (Some pv)) (camera rig1) (controls rig1)
                    (target_desired rig1))
                 (mkAsset (Some pv) (Some pv) ps (imap partLabel ps)
                    box (getCenter box))
                 (loadAnimations (gltf_animations gltf) (anim s1))
                 (zoom s1),
               Resolved)
          end
      end
  end.

Definition initViewer (src : LoaderResult) : State * Promise :=
  match loadGLB src fresh with
  | (s, Resolved) => (with_target (centroid (asset s)) s, Resolved)
  | (s, Rejected) => (s, Rejected)
  end.

End Mobile.

(* ===================================================================== *)
(** * The gesture router of [src/ui/App.tsx]: wheel events *)
(* ===================================================================== *)

Module Gesture.
Local Open Scope Z_scope.

Record WheelEvent := mkWheel {
  deltaY : Q;
  ctrlKey : bool;
  metaKey : bool
}.

(** [stage] and [wheelCooldown] are the React state and ref of the
    component.  [timeouts] holds the due times, in milliseconds, of the
    pending [setTimeout] callbacks, oldest first.  [dollyRequests] logs the
    exponent handed to [Math.exp] for each [handle.dolly] call.  [clock] is
    the time of the latest input and [accepted] the times of the wheel
    events that changed the stage; both only serve to state properties. *)
Record AppState := mkApp {
  stage : Z;
  wheelCooldown : bool;
  timeouts : list Z;
  dollyRequests : list Q;
  clock : Z;
  accepted : list Z
}.

(** [onWheel], run at time [now] with [total] stages. *)
Definition onWheel (total now : Z) (e : WheelEvent) (a : AppState) : AppState :=
  if ctrlKey e || metaKey e then
    mkApp (stage a) (wheelCooldown a) (timeouts a)
      (dollyRequests a ++ [(deltaY e / 100) * (15 # 100)]%Q)
      now (accepted a)
  else if wheelCooldown a then
    mkApp (stage a) (wheelCooldown a) (timeouts a) (dollyRequests a) now (accepted a)
  else if Qlt_le_dec (Qabs (deltaY e)) 30 then
    mkApp (stage a) (wheelCooldown a) (timeouts a) (dollyRequests a) now (accepted a)
  else
    mkApp (if Qlt_le_dec 0 (deltaY e) then nextStage total (stage a)
           else prevStage total (stage a))
      true (timeouts a ++ [now + 260]) (dollyRequests a) now (now :: accepted a).

(** What the event loop delivers: a wheel event, or the oldest pending
    timer callback [() => { wheelCooldown.current = false }]. *)
Inductive Input :=
| Wheel (e : WheelEvent)
| Timeout.

(** One turn of the event loop at time [now].  Time does not go backwards
    and a timer callback never runs before it is due; [None] marks an input
    that cannot occur. *)
Definition deliver (total now : Z) (i : Input) (a : AppState) : option AppState :=
  if now <? clock a then None
  else
    match i with
    | Wheel e => Some (onWheel total now e a)
    | Timeout =>
        match timeouts a with
        | due :: rest =>
            if due <=? now
            then Some (mkApp (stage a) false rest (dollyRequests a) now (accepted a))
            else None
        | [] => None
        end
    end.

Fixpoint run (total : Z) (tr : list (Z * Input)) (a : AppState) : option AppState :=
  match tr with
  | [] => Some a
  | (now, i) :: tr' =>
      match deliver total now i a with
      | Some a' => run total tr' a'
      | None => None
      end
  end.

(** The component as mounted at time [t0], showing stage [s]. *)
Definition mounted (t0 s : Z) : AppState := mkApp s false [] [] t0 [].

(** The cooldown flag is set exactly while the timer of the latest accepted
    wheel event is pending. *)
Definition cooldownInvariant (a : AppState) : Prop :=
  (wheelCooldown a = false /\ timeouts a = []
   /\ Forall (fun t => t + 260 <= clock a) (accepted a))
  \/ (wheelCooldown a = true
      /\ exists t0 rest, accepted a = t0 :: rest /\ timeouts a = [t0 + 260]
                         /\ t0 <= clock a /\ Forall (fun t => t <= t0) rest).

End Gesture.

Import Viewer.

(* ===================================================================== *)
(** * The named-section pattern in the words of the specification *)
(* ===================================================================== *)

Module SectionSpec.

Definition isSpaces (w : list N) : Prop :=
  Forall (fun c => isWhiteSpace c = true) w.

(** A decimal integer: one digit or more. *)
Definition isDigits (ds : list N) : Prop :=
  ds <> [] /\ Forall (fun c => isDigit c = true) ds.

(** One of the tokens sec, se, section, compared without regard to case. *)
Definition isToken (tok : list N) : Prop :=
  List.map canonicalize tok = str "SEC"
  \/ List.map canonicalize tok = str "SE"
  \/ List.map canonicalize tok = str "SECTION".

(** [t] is optional whitespace, a token, optional whitespace, the integer
    [ds], optional whitespace, and nothing else. *)
Definition sectionText (t ds : list N) : Prop :=
  exists w1 tok w2 w3,
    t = w1 ++ tok ++ w2 ++ ds ++ w3
    /\ isSpaces w1 /\ isToken tok /\ isSpaces w2 /\ isDigits ds /\ isSpaces w3.

(** Display order of named sections: by section number, and by position in
    the part list among equal numbers. *)
Definition before (a b : NamedPart) : Prop :=
  np_num a < np_num b
  \/ (np_num a = np_num b /\ (np_index a < np_index b)%nat).

(** A list that is empty or starts outside the class [P]. *)
Definition stops (P : N -> bool) (l : list N) : Prop :=
  match l with
  | [] => True
  | x :: _ => P x = false
  end.

(** The text after a token starts with a blank or a digit. *)
Definition blankOrDigitFirst (r : list N) : Prop :=
  exists x r0, r = x :: r0 /\ (isWhiteSpace x = true \/ isDigit x = true).

End SectionSpec.

Import SectionSpec.

(* ===================================================================== *)
(** * A sample asset *)
(* ===================================================================== *)

Module Sample.
Local Open Scope Q_scope.

(** A small asset: an opaque frame named as section 1 and a half-transparent
    cover, with one two-second explosion clip. *)
Definition steel : Material := mkMaterial 1 false true true 0 None.
Definition glass : Material := mkMaterial (1 # 2) true true true 0 None.
Definition frame : Object3D :=
  mkObj (str "sec 1") true true (OneMaterial steel)
    (Some ((0, 0, 0), (1, 1, 1))) [].
Definition cover : Object3D :=
  mkObj (str "Cover") true true (OneMaterial glass)
    (Some ((2, 0, 0), (4, 1, 1))) [].
Definition bed : Object3D :=
  mkObj (str "Scene") true false NoMaterial None [frame; cover].
Definition bedGLTF : GLTF := mkGLTF (Some bed) [bed] [mkClip (str "Explode") 2].

(** A file that decodes but holds no scene. *)
Definition noSceneGLTF : GLTF := mkGLTF None [] [].

(** The desktop viewer once [initViewer] has resolved on the asset. *)
Definition loaded : State := fst (Viewer.initViewer (LoadOk bedGLTF)).
Definition loadedMobile : State := fst (Mobile.initViewer (LoadOk bedGLTF)).

End Sample.

Import Gesture.

(* ===================================================================== *)
(** * The viewer handle as a whole *)
(* ===================================================================== *)

Module Handle.
Local Open Scope Q_scope.

(** The viewer module that [App] imports for the device. *)
Definition loadGLBOf (v : Variant) : LoaderResult -> State -> State * Promise :=
  match v with
  | Desktop => Viewer.loadGLB
  | Mobile => Mobile.loadGLB
  end.

Definition initViewerOf (v : Variant) : LoaderResult -> State * Promise :=
  match v with
  | Desktop => Viewer.initViewer
  | Mobile => Mobile.initViewer
  end.

(** [getWorldPosByName(name)].  Node positions are not part of the model:
    [found] is the world position of [scene.getObjectByName(name)], or
    [None] when the scene graph holds no object of that name. *)
Definition getWorldPosByName (found : option Vec3) (s : State) : option Vec3 :=
  match scene (rig s) with
  | None => None
  | Some _ => found
  end.

(** [setOrbitTargetByName(name)] with its boolean result; [None] and the
    empty string are the falsy names. *)
Definition setOrbitTargetByName (name : option (list N)) (found : option Vec3)
    (s : State) : State * bool :=
  if negb (controls (rig s)) then (s, false)
  else
    match name with
    | None | Some [] => (with_target (centroid (asset s)) s, true)
    | Some (_ :: _) =>
        match getWorldPosByName found s with
        | None => (s, false)
        | Some pos => (with_target pos s, true)
        end
    end.

(** [resetView()], on the desired orbit target. *)
Definition resetView (s : State) : State :=
  if negb (controls (rig s)) then s
  else with_target (centroid (asset s)) s.

Definition getAnimations (s : State) : list (list N) := clipNames (anim s).

(** What can happen to a viewer once [initViewer] has returned: a call
    through the handle, or a frame of the animation loop.  [LoadGLB] carries
    what the loader reports and [SetOrbitTargetByName] what the scene lookup
    finds.  [SetExplode] carries a finite number and [IsolateIndex] any
    number, NaN included, as its dim opacity. *)
Inductive Event :=
| LoadGLB (src : LoaderResult)
| Dispose
| SetExplode (t : Q)
| IsolateIndex (i : option Z) (dimOpacity : option Double.t)
| SetVisibleIndices (indices : option (list Z))
| SetOrbitTargetTo (index : option Z)
| SetOrbitTargetByName (name : option (list N)) (found : option Vec3)
| ResetView
| Frame (dt : Q).

(** The state after one event.  A call that raises leaves the state as it
    was. *)
Definition perform (v : Variant) (e : Event) (s : State) : State :=
  match e with
  | LoadGLB src => fst (loadGLBOf v src s)
  | Dispose => dispose s
  | SetExplode t => setExplode v t s
  | IsolateIndex i d => isolateIndex v i d s
  | SetVisibleIndices ix => setVisibleIndices ix s
  | SetOrbitTargetTo i => default s (setOrbitTargetTo i s)
  | SetOrbitTargetByName n f => fst (setOrbitTargetByName n f s)
  | ResetView => resetView s
  | Frame dt => renderFrame dt s
  end.

Definition performAll (v : Variant) (es : list Event) (s : State) : State :=
  fold_left (fun st e => perform v e st) es s.

(** ** What the handle keeps true *)

(** The reported names are the labels of the parts. *)
Definition namesOk (a : Asset) : Prop :=
  partNames a = imap partLabel (parts a).

(** The zoom-out of the exploded view is applied exactly in the exploded
    state. *)
Definition zoomOk (s : State) : Prop :=
  explodedZoomApplied (zoom s)
  = match explodeState (anim s) with Exploded => true | Overview => false end.

(** The three clip tables agree, and there is a mixer exactly when there is
    an action. *)
Definition tablesOk (a : Anim) : Prop :=
  (forall nm, In nm (clipNames a) <-> is_Some (actions a !! nm))
  /\ (forall nm, is_Some (clipDurations a !! nm) <-> is_Some (actions a !! nm))
  /\ (mixer a = true <-> clipNames a <> []).


(** A material as the viewer keeps it on a part that is shown or not: a
    baseline above 0.1 is on record, and the opacity is NaN or a number
    that is not negative and, on a part that is shown, at least 0.08. *)
Definition materialOk (shown : bool) (m : Material) : Prop :=
  is_Some (saved m) /\ Double.lt (1 # 10) (savedBase m) = true
  /\ transparent m = true /\ depthWrite m = true
  /\ (opacity m = Double.NaN
      \/ (Double.le 0 (opacity m) = true
          /\ (shown = true -> Double.le (8 # 100) (opacity m) = true))).

Definition partsOk (ps : list Object3D) : Prop :=
  Forall (fun p => Forall (materialOk (visible p)) (meshMaterials p)) ps.

(** No material of a part is at opacity NaN. *)
Definition opacitiesOk (ps : list Object3D) : Prop :=
  Forall (fun p => Forall (fun m => opacity m <> Double.NaN) (meshMaterials p)) ps.

(** A call that does not hand NaN to [isolateIndex] as dim opacity. *)
Definition eventDimOk (e : Event) : Prop :=
  match e with
  | IsolateIndex _ (Some d) => d <> Double.NaN
  | _ => True
  end.



(** ** Boxes *)

Definition vle (a b : Vec3) : Prop :=
  let '(ax, ay, az) := a in let '(bx, b_y, bz) := b in
  ax <= bx /\ ay <= b_y /\ az <= bz.

(** [Box3.containsPoint]. *)
Definition containsPoint (b : Box3) (p : Vec3) : Prop :=
  match b with
  | Some (lo, hi) => vle lo p /\ vle p hi
  | None => False
  end.

(** The box [a] lies within the box [b]. *)
Definition boxIn (a b : Box3) : Prop :=
  match a, b with
  | None, _ => True
  | Some _, None => False
  | Some (lo, hi), Some (lo', hi') => vle lo' lo /\ vle hi hi'
  end.

(** The negation of [Box3.isEmpty]. *)
Definition nonEmptyBox (b : Box3) : Prop :=
  match b with
  | Some (lo, hi) => vle lo hi
  | None => False
  end.

(** Every part lies within the recorded bounding box. *)
Definition boxesOk (a : Asset) : Prop :=
  Forall (fun p => boxIn (setFromObject p) (bbox a)) (parts a).

(** ** Playing backwards *)



End Handle.

Import Handle.

(* ===================================================================== *)
(** * More sample assets *)
(* ===================================================================== *)

Module Cases.
Local Open Scope Q_scope.


(** The sample asset without any clip. *)
Definition stillBed : GLTF := mkGLTF (Some Sample.bed) [Sample.bed] [].

End Cases.

(* ===================================================================== *)
(** * The front end: stages and loading *)
(* ===================================================================== *)

Module Front.
Local Open Scope Z_scope.

(** The texts of [setStatus]. *)
Inductive Status :=
| DropOrPick        (* the text shown before a file is given *)
| LoadingModel      (* Loading model *)
| ModelLoaded       (* Model loaded. *)
| FailedToLoad      (* Failed to load model. *)
| UsdzReady         (* USDZ ready for iOS Quick Look. *)
| UnsupportedFile.  (* the file is neither a model nor a USDZ *)

(** The React state of [App] that loading and the stages touch.  [handle]
    is [None] until [initViewer] has resolved; behind the handle is the
    module state of the viewer. *)
Record Component := mkComponent {
  handle : option State;
  namedParts : list NamedPart;
  curStage : Z;
  status : Status;
  usdzHref : list N
}.

(** The three calls that [applyStage] makes for stage 0 and that the load
    handlers and the reset button repeat. *)
Definition showOverview (v : Variant) (h : State) : State :=
  let h1 := setExplode v 0 h in
  let h2 := isolateIndex v None None h1 in
  default h2 (setOrbitTargetTo None h2).

(** [parts[i]] of a JavaScript array. *)
Definition at_index {A} (l : list A) (i : Z) : option A :=
  if i <? 0 then None else nth_error l (Z.to_nat i).

(** [applyStage(h, idx, parts)].  [found] is what the scene lookup of
    [setOrbitTargetByName] finds. *)
Definition applyStage (v : Variant) (found : option Vec3) (idx : Z)
    (parts : list NamedPart) (h : State) : State :=
  if idx =? 0 then showOverview v h
  else if idx =? 1 then
    let h1 := setExplode v 1 h in
    let h2 := isolateIndex v None None h1 in
    default h2 (setOrbitTargetTo None h2)
  else
    match at_index parts (idx - 2) with
    | Some p =>
        let h1 := setExplode v 1 h in
        let h2 := isolateIndex v (Some (Z.of_nat (np_index p)))
                    (Some (Double.Finite (22 # 100))) h1 in
        fst (setOrbitTargetByName (Some (np_name p)) found h2)
    | None => h
    end.

(** What [onPickGLB] and [onDrop] do once [handle.loadGLB] has settled. *)
Definition afterLoad (v : Variant) (settled : State * Promise) (a : Component)
    : Component :=
  match settled with
  | (h, Resolved) =>
      mkComponent (Some (showOverview v h)) (parseNamedParts (getPartNames h)) 0
        ModelLoaded (usdzHref a)
  | (h, Rejected) =>
      mkComponent (Some h) (namedParts a) (curStage a) FailedToLoad (usdzHref a)
  end.

(** [onPickGLB].  [file] is the file picked, if any, standing for what the
    loader reports on it. *)
Definition onPickGLB (v : Variant) (file : option LoaderResult) (a : Component)
    : Component :=
  match file, handle a with
  | Some src, Some h => afterLoad v (loadGLBOf v src h) a
  | _, _ => a
  end.

(** [String.prototype.toLowerCase], restricted to what a comparison with an
    ASCII suffix without the letters i and k can observe: only the letters
    A to Z lower-case to ASCII letters of such a suffix. *)
Definition toLowerCase (s : list N) : list N :=
  List.map (fun c => if ((65 <=? c)%N && (c <=? 90)%N) then (c + 32)%N else c) s.

Fixpoint startsWith (s prefix : list N) : bool :=
  match prefix, s with
  | [], _ => true
  | p :: prefix', c :: s' => (c =? p)%N && startsWith s' prefix'
  | _ :: _, [] => false
  end.

(** [String.prototype.endsWith]. *)
Definition endsWith (s suffix : list N) : bool := startsWith (rev s) (rev suffix).

(** [onDrop].  [file] is the file dropped, if any: its name and what the
    loader reports on it; [url] is the object URL made for it. *)
Definition onDrop (v : Variant) (file : option (list N * LoaderResult))
    (url : list N) (a : Component) : Component :=
  match file, handle a with
  | Some (fileName, src), Some h =>
      let name := toLowerCase fileName in
      if endsWith name (str ".glb") || endsWith name (str ".gltf") then
        afterLoad v (loadGLBOf v src h) a
      else if endsWith name (str ".usdz") then
        mkComponent (handle a) (namedParts a) (curStage a) UsdzReady url
      else
        mkComponent (handle a) (namedParts a) (curStage a) UnsupportedFile (usdzHref a)
  | _, _ => a
  end.

(** A file name with one of the two model extensions, in any letter case. *)
Definition isModelName (fileName : list N) : Prop :=
  exists stem ext,
    fileName = (stem ++ ext)%list
    /\ (toLowerCase ext = str ".glb" \/ toLowerCase ext = str ".gltf").

End Front.

Import Front.

(* ===================================================================== *)
(** * The gesture router of [src/ui/App.tsx]: swipes *)
(* ===================================================================== *)

Module Touch.
Local Open Scope Q_scope.

Record Point := mkPoint {
  clientX : Q;
  clientY : Q
}.

Record TouchEvent := mkTouchEvent {
  touches : list Point;
  changedTouches : list Point
}.

(** [stage] is the React state, [touchStart] and [touchStartT] are the refs
    of the component and [pinchActive] the variable of the effect.  The
    pinch distance, which only scales the camera distance, is not
    represented. *)
Record SwipeState := mkSwipe {
  swipeStage : Z;
  touchStart : option Point;
  touchStartT : Q;
  pinchActive : bool
}.

Definition V_THRESH : Q := 44.
Definition ANGLE_DOMINANCE : Q := 15 # 10.
Definition TIME_MAX : Q := 600.

(** [onTouchStart] at time [now] of [performance.now()]. *)
Definition onTouchStart (now : Q) (e : TouchEvent) (a : SwipeState) : SwipeState :=
  match touches e with
  | [_; _] => mkSwipe (swipeStage a) (touchStart a) (touchStartT a) true
  | [p] => mkSwipe (swipeStage a) (Some p) now (pinchActive a)
  | _ => a
  end.

(** The test of [onTouchEnd] for a vertical swipe. *)
Definition isSwipe (dx dy dt : Q) : bool :=
  (if Qlt_le_dec V_THRESH (Qabs dy) then true else false)
  && (if Qlt_le_dec (ANGLE_DOMINANCE * Qabs dx) (Qabs dy) then true else false)
  && (if Qlt_le_dec dt TIME_MAX then true else false).

(** [onTouchEnd], also registered for [touchcancel], with [total] stages. *)
Definition onTouchEnd (total : Z) (now : Q) (e : TouchEvent) (a : SwipeState)
    : SwipeState :=
  let pinch := if pinchActive a && (length (touches e) <? 2)%nat then false
               else pinchActive a in
  let stage' :=
    match touchStart a with
    | Some start =>
        let endX := match changedTouches e with
                    | p :: _ => clientX p
                    | [] => clientX start
                    end in
        let endY := match changedTouches e with
                    | p :: _ => clientY p
                    | [] => clientY start
                    end in
        let dx := endX - clientX start in
        let dy := endY - clientY start in
        let dt := now - touchStartT a in
        if isSwipe dx dy dt then
          if Qlt_le_dec dy 0 then nextStage total (swipeStage a)
          else prevStage total (swipeStage a)
        else swipeStage a
    | None => swipeStage a
    end in
  mkSwipe stage' None (touchStartT a) pinch.

End Touch.

Import Touch.

(* ===================================================================== *)
(** * The radial menu of [src/ui/App.tsx] *)
(* ===================================================================== *)

Module Radial.
Local Open Scope Z_scope.

Record MenuItem := mkItem {
  label : list N;
  itemStage : Z
}.

(** [menuItems]: Overview, Exploded, then one item per section. *)
Definition menuItems (parts : list NamedPart) : list MenuItem :=
  [mkItem (str "Overview") 0; mkItem (str "Exploded") 1]
  ++ imap (fun idx p =>
             mkItem (match np_name p with
                     | [] => (str "Section " ++ digitsOfNat (idx + 1))%list
                     | n => n
                     end)
               (2 + Z.of_nat idx)) parts.

(** [N = Math.max(menuItems.length, 1)]. *)
Definition sliceCount (parts : list NamedPart) : Z :=
  Z.max (Z.of_nat (length (menuItems parts))) 1.

(** [loop(i, n)]. *)
Definition loop (i n : Z) : Z := Z.rem (Z.rem i n + n) n.

(** [Array.prototype.findIndex]: the first position that passes, or -1. *)
Fixpoint findIndexFrom {A} (f : A -> bool) (l : list A) (i : Z) : Z :=
  match l with
  | [] => -1
  | x :: l' => if f x then i else findIndexFrom f l' (i + 1)
  end.

Definition findIndex {A} (f : A -> bool) (l : list A) : Z := findIndexFrom f l 0.

Definition activeIdx (parts : list NamedPart) (currentStage : Z) : Z :=
  loop (findIndex (fun m => itemStage m =? currentStage) (menuItems parts))
    (sliceCount parts).

(** What a tap or a release of the wheel does: it hands a stage to
    [onSelectStage], fails with the [TypeError] of reading [stage] of a
    missing item, or selects nothing. *)
Inductive Selection :=
| Selects (s : Z)
| Throws
| Nothing.

Definition selectItem (parts : list NamedPart) (i : Z) : Selection :=
  match at_index (menuItems parts) i with
  | Some m => Selects (itemStage m)
  | None => Throws
  end.

Definition stepPrev (parts : list NamedPart) (currentStage : Z) : Selection :=
  selectItem parts (loop (activeIdx parts currentStage - 1) (sliceCount parts)).

Definition stepNext (parts : list NamedPart) (currentStage : Z) : Selection :=
  selectItem parts (loop (activeIdx parts currentStage + 1) (sliceCount parts)).

(** [onPointerUp]; [steps] is the value of
    [Math.round(dragAccumPx.current / PX_PER_SLICE)]. *)
Definition onPointerUp (parts : list NamedPart) (currentStage steps : Z)
    : Selection :=
  if negb (steps =? 0) then
    selectItem parts (loop (activeIdx parts currentStage - steps) (sliceCount parts))
  else Nothing.

(** [shorten(s, n)]; the ellipsis is one code unit. *)
Definition slice0 (s : list N) (e : Z) : list N :=
  let len := Z.of_nat (length s) in
  firstn (Z.to_nat (if e <? 0 then Z.max (len + e) 0 else Z.min e len)) s.

Definition shorten (s : list N) (n : Z) : list N :=
  if Z.of_nat (length s) >? n then (slice0 s (n - 1) ++ [8230%N])%list else s.

End Radial.

Import Radial.

(* ===================================================================== *)
(** * Stage arithmetic *)
(* ===================================================================== *)

Section StageArithmetic.
Local Open Scope Z_scope.

Lemma loopIndex_mod (n i : Z) : 0 < n -> loopIndex n i = i mod n.
Proof.
  intros Hn. unfold loopIndex.
  destruct (Z.leb_spec n 0) as [Hle|_]; [lia|].
  assert (Hr : - n < Z.rem i n < n).
  { pose proof (Z.rem_bound_abs i n ltac:(lia)). lia. }
  assert (Hc : (Z.rem i n + n) mod n = i mod n).
  { rewrite (Z.rem_eq i n) by lia.
    replace (i - n * (i ÷ n) + n) with (i + (1 - i ÷ n) * n) by ring.
    apply Z.mod_add. lia. }
  rewrite Z.rem_mod_nonneg by lia. exact Hc.
Qed.

Lemma loopIndex_range (n i : Z) : 0 < n -> 0 <= loopIndex n i < n.
Proof. intros Hn. rewrite loopIndex_mod by lia. apply Z.mod_pos_bound. lia. Qed.

Lemma nextStage_iter (n s : Z) (k : nat) :
  0 < n -> 0 <= s < n ->
  Nat.iter k (nextStage n) s = (s + Z.of_nat k) mod n.
Proof.
  intros Hn Hs. induction k as [|k IH].
  - simpl. rewrite Z.add_0_r, Z.mod_small; lia.
  - rewrite Nat.iter_succ, IH. unfold nextStage. rewrite loopIndex_mod by lia.
    rewrite Z.add_mod_idemp_l by lia. f_equal. lia.
Qed.

Lemma totalStages_pos (namedParts : list NamedPart) :
  2 <= totalStages namedParts.
Proof. unfold totalStages. lia. Qed.

End StageArithmetic.

(** C3.  From a stage [s] of the cycle, [nextStage] once and then
    [totalStages - 1] more times comes back to [s], and not before: the
    stages in between are the other stages, each once.  [nextStage] goes one
    stage up and from the last stage to stage 0, [prevStage] goes one stage
    down and from stage 0 to the last stage, and each undoes the other.  On
    every integer the two are [s + 1] and [s - 1] taken by [loopIndex], the
    floor modulo by [totalStages], so that negative values wrap to the top;
    with two named sections there are four stages and [prevStage] from stage
    0 yields 3.  The step is the same modulo any positive stage count that a
    caller holds. *)
Theorem C3_stage_cycle (namedParts : list NamedPart) (s : Z) :
  0 <= s < totalStages namedParts ->
  Nat.iter (Z.to_nat (totalStages namedParts - 1))
    (nextStage (totalStages namedParts))
    (nextStage (totalStages namedParts) s) = s
  /\ (forall i : Z,
        loopIndex (totalStages namedParts) i = i mod totalStages namedParts
        /\ 0 <= loopIndex (totalStages namedParts) i < totalStages namedParts)
  /\ (length namedParts = 2%nat ->
        totalStages namedParts = 4
        /\ prevStage (totalStages namedParts) 0 = 3)
  /\ nextStage (totalStages namedParts) s
     = (if s =? totalStages namedParts - 1 then 0 else s + 1)
  /\ prevStage (totalStages namedParts) s
     = (if s =? 0 then totalStages namedParts - 1 else s - 1)
  /\ prevStage (totalStages namedParts) (nextStage (totalStages namedParts) s) = s
  /\ nextStage (totalStages namedParts) (prevStage (totalStages namedParts) s) = s
  /\ (forall i : Z,
        nextStage (totalStages namedParts) i = (i + 1) mod totalStages namedParts
        /\ prevStage (totalStages namedParts) i
           = (i - 1) mod totalStages namedParts)
  /\ (forall k : nat,
        (0 < k)%nat -> Z.of_nat k < totalStages namedParts ->
        Nat.iter k (nextStage (totalStages namedParts)) s <> s)
  /\ (forall k : nat,
        Nat.iter k (nextStage (totalStages namedParts)) s
        = (s + Z.of_nat k) mod totalStages namedParts)
  /\ (forall count i : Z,
        0 < count ->
        nextStage count i = (i + 1) mod count
        /\ prevStage count i = (i - 1) mod count)
  /\ totalStages namedParts = 2 + Z.of_nat (length namedParts).
Proof.
  intros Hs. pose proof (totalStages_pos namedParts) as Hn.
  set (n := totalStages namedParts) in *.
  assert (Hnext : forall i, nextStage n i = (i + 1) mod n)
    by (intros i; unfold nextStage; apply loopIndex_mod; lia).
  assert (Hprev : forall i, prevStage n i = (i - 1) mod n)
    by (intros i; unfold prevStage; apply loopIndex_mod; lia).
  assert (Hup : nextStage n s = (if s =? n - 1 then 0 else s + 1)).
  { rewrite Hnext. destruct (Z.eqb_spec s (n - 1)) as [->|Hne].
    - replace (n - 1 + 1) with (0 + 1 * n) by ring.
      rewrite Z.mod_add by lia. apply Z.mod_small. lia.
    - apply Z.mod_small. lia. }
  assert (Hdown : prevStage n s = (if s =? 0 then n - 1 else s - 1)).
  { rewrite Hprev. destruct (Z.eqb_spec s 0) as [->|Hne].
    - replace (0 - 1) with (n - 1 + (-1) * n) by ring.
      rewrite Z.mod_add by lia. apply Z.mod_small. lia.
    - apply Z.mod_small. lia. }
  split; [|split; [|split; [|split; [|split; [|split; [|split; [|split; [|split; [|split; [|split]]]]]]]]]].
  - rewrite <- Nat.iter_succ_r.
    rewrite nextStage_iter by lia.
    replace (Z.of_nat (S (Z.to_nat (n - 1)))) with (1 * n) by lia.
    rewrite Z.mod_add by lia. apply Z.mod_small. lia.
  - intros i. split; [apply loopIndex_mod | apply loopIndex_range]; lia.
  - intros Hlen. unfold n, totalStages. rewrite Hlen. split; reflexivity.
  - exact Hup.
  - exact Hdown.
  - rewrite Hup. destruct (Z.eqb_spec s (n - 1)) as [->|Hne].
    + rewrite Hprev. replace (0 - 1) with (n - 1 + (-1) * n) by ring.
      rewrite Z.mod_add by lia. apply Z.mod_small. lia.
    + rewrite Hprev. replace (s + 1 - 1) with s by ring. apply Z.mod_small. lia.
  - rewrite Hdown. destruct (Z.eqb_spec s 0) as [->|Hne].
    + rewrite Hnext. replace (n - 1 + 1) with (0 + 1 * n) by ring.
      rewrite Z.mod_add by lia. apply Z.mod_small. lia.
    + rewrite Hnext. replace (s - 1 + 1) with s by ring. apply Z.mod_small. lia.
  - intros i. split; [apply Hnext | apply Hprev].
  - intros k Hk Hkn. rewrite nextStage_iter by lia. intros E.
    destruct (Z.ltb_spec (s + Z.of_nat k) n) as [Hlt|Hge].
    + rewrite Z.mod_small in E by lia. lia.
    + replace (s + Z.of_nat k) with (s + Z.of_nat k - n + 1 * n) in E by ring.
      rewrite Z.mod_add in E by lia. rewrite Z.mod_small in E by lia. lia.
  - intros k. apply nextStage_iter; lia.
  - intros count i Hc. unfold nextStage, prevStage.
    split; apply loopIndex_mod; exact Hc.
  - reflexivity.
Qed.

Lemma C3_stage_cycle_witness :
  let parts2 := [mkNamedPart (str "sec 1") 0 1; mkNamedPart (str "sec 2") 1 2] in
  0 <= 3 < totalStages parts2
  /\ Nat.iter (Z.to_nat (totalStages parts2 - 1)) (nextStage (totalStages parts2))
       (nextStage (totalStages parts2) 3) = 3
  /\ prevStage (totalStages parts2) 0 = 3
  /\ nextStage (totalStages parts2) 3 = 0
  /\ prevStage (totalStages parts2) 3 = 2.
Proof.
  intros parts2.
  assert (H : 0 <= 3 < totalStages parts2) by (unfold totalStages; simpl; lia).
  destruct (C3_stage_cycle parts2 3 H) as (Hc & _ & H2 & Hup & Hdown & _).
  split; [exact H|]. split; [exact Hc|]. split; [apply H2; reflexivity|].
  split; [exact Hup | exact Hdown].
Defined.

(* ===================================================================== *)
(** * The matcher computes the language of the pattern *)
(* ===================================================================== *)

Section RegexTheory.

Lemma star_loop_sound {A} (r : regex) (k : list N -> option A) :
  (forall s (k' : list N -> option A) a, exec r s k' = Some a ->
     exists s1 s2, s = s1 ++ s2 /\ matches r s1 /\ k' s2 = Some a) ->
  forall fuel s a, star_loop (exec r) k fuel s = Some a ->
  exists s1 s2, s = s1 ++ s2 /\ matches (RStar r) s1 /\ k s2 = Some a.
Proof.
  intros Hr fuel. induction fuel as [|f IH]; intros s a H; simpl in H.
  - exists [], s. repeat split; [constructor | exact H].
  - destruct (exec r s _) as [a0|] eqn:E.
    + injection H as ->.
      destruct (Hr _ _ _ E) as (s1 & s2 & -> & Hm & Hk).
      destruct (Nat.ltb_spec (length s2) (length (s1 ++ s2))) as [Hlt|_];
        [|discriminate].
      destruct (IH _ _ Hk) as (s3 & s4 & -> & Hm' & Hk').
      exists (s1 ++ s3), s4. rewrite <- app_assoc.
      repeat split; [|exact Hk'].
      apply MStarCons; [exact Hm| |exact Hm'].
      intros ->. simpl in Hlt. lia.
    + exists [], s. repeat split; [constructor | exact H].
Qed.

Lemma exec_sound (r : regex) :
  forall A s (k : list N -> option A) a, exec r s k = Some a ->
  exists s1 s2, s = s1 ++ s2 /\ matches r s1 /\ k s2 = Some a.
Proof.
  induction r as [|c| | |r1 IH1 r2 IH2|r1 IH1 r2 IH2|r IH];
    intros A s k a H; [simpl in H ..|].
  - exists [], s. repeat split; [constructor | exact H].
  - destruct s as [|x s']; [discriminate|].
    destruct (N.eqb_spec (canonicalize x) (canonicalize c)) as [e|_];
      [|discriminate].
    exists [x], s'. repeat split; [constructor; exact e | exact H].
  - destruct s as [|x s']; [discriminate|].
    destruct (isWhiteSpace x) eqn:e; [|discriminate].
    exists [x], s'. repeat split; [constructor; exact e | exact H].
  - destruct s as [|x s']; [discriminate|].
    destruct (isDigit x) eqn:e; [|discriminate].
    exists [x], s'. repeat split; [constructor; exact e | exact H].
  - destruct (IH1 _ _ _ _ H) as (s1 & s2 & -> & Hm1 & H2).
    destruct (IH2 _ _ _ _ H2) as (s3 & s4 & -> & Hm2 & Hk).
    exists (s1 ++ s3), s4. rewrite <- app_assoc.
    repeat split; [constructor; assumption | exact Hk].
  - destruct (exec r1 s k) as [a0|] eqn:E.
    + injection H as ->.
      destruct (IH1 _ _ _ _ E) as (s1 & s2 & -> & Hm & Hk).
      exists s1, s2. repeat split; [apply MAltL; exact Hm | exact Hk].
    + destruct (IH2 _ _ _ _ H) as (s1 & s2 & -> & Hm & Hk).
      exists s1, s2. repeat split; [apply MAltR; exact Hm | exact Hk].
  - change (star_loop (exec r) k (S (length s)) s = Some a) in H.
    eapply star_loop_sound; [|exact H]. intros s0 k' a0. apply IH.
Qed.

Lemma star_loop_complete {A} (r : regex) (k : list N -> option A) :
  (forall s1, matches r s1 -> forall s2 (k' : list N -> option A),
     is_Some (k' s2) -> is_Some (exec r (s1 ++ s2) k')) ->
  forall s1, matches (RStar r) s1 -> forall fuel s2,
    (length (s1 ++ s2) < fuel)%nat -> is_Some (k s2) ->
    is_Some (star_loop (exec r) k fuel (s1 ++ s2)).
Proof.
  intros Hr s1 Hm. remember (RStar r) as rs eqn:Ers.
  induction Hm as [| | | | | | |r0|r0 s1 s1' Hm1 _ Hne Hm2 IH2];
    try discriminate; injection Ers as ->; intros fuel s2 Hlen Hk.
  - destruct fuel as [|f]; [lia|]. simpl.
    destruct (exec r s2 _); [eauto | exact Hk].
  - destruct fuel as [|f]; [lia|]. simpl.
    assert (Hs1 : (0 < length s1)%nat) by (destruct s1; [congruence | simpl; lia]).
    rewrite length_app in Hlen.
    assert (Hin : is_Some (exec r ((s1 ++ s1') ++ s2)
              (fun s' => if (length s' <? length ((s1 ++ s1') ++ s2))%nat
                         then star_loop (exec r) k f s' else None))).
    { rewrite <- app_assoc. apply Hr; [exact Hm1|].
      destruct (Nat.ltb_spec (length (s1' ++ s2)) (length (s1 ++ s1' ++ s2)))
        as [_|Hge]; [|rewrite length_app in Hge; lia].
      apply IH2; [reflexivity| |exact Hk]. rewrite !length_app in *. lia. }
    destruct Hin as [a0 ->]. eauto.
Qed.

Lemma exec_complete (r : regex) :
  forall s1, matches r s1 -> forall A s2 (k : list N -> option A),
    is_Some (k s2) -> is_Some (exec r (s1 ++ s2) k).
Proof.
  induction r as [|c| | |r1 IH1 r2 IH2|r1 IH1 r2 IH2|r IH];
    intros s1 Hm A s2 k Hk.
  - inversion Hm; subst. exact Hk.
  - inversion Hm as [|c0 x e| | | | | | |]; subst. simpl.
    rewrite e, N.eqb_refl. exact Hk.
  - inversion Hm as [| |x e| | | | | |]; subst. simpl. rewrite e. exact Hk.
  - inversion Hm as [| | |x e| | | | |]; subst. simpl. rewrite e. exact Hk.
  - inversion Hm as [| | | |r1' r2' sa sb Ha Hb| | | |]; subst. simpl.
    rewrite <- app_assoc. apply IH1; [exact Ha|]. apply IH2; assumption.
  - simpl. inversion Hm as [| | | | |r1' r2' s Ha|r1' r2' s Hb| |]; subst.
    + destruct (IH1 _ Ha _ s2 k Hk) as [a ->]. eauto.
    + destruct (exec r1 (s1 ++ s2) k); [eauto|]. apply IH2; assumption.
  - change (is_Some (star_loop (exec r) k (S (length (s1 ++ s2))) (s1 ++ s2))).
    apply star_loop_complete; [|exact Hm|lia|exact Hk].
    intros sa Ha sb k'. apply IH. exact Ha.
Qed.

End RegexTheory.

Section SectionPattern.

Lemma matches_spaces (w : list N) : matches (RStar RSpace) w <-> isSpaces w.
Proof.
  split.
  - intros H. remember (RStar RSpace) as r eqn:Er.
    induction H as [| | | | | | |r0|r0 s1 s2 H1 _ _ _ IH2]; try discriminate.
    + constructor.
    + injection Er as ->. inversion H1; subst.
      constructor; [assumption | apply IH2; reflexivity].
  - intros H. induction H as [|x w Hx _ IH]; [constructor|].
    change (x :: w) with ([x] ++ w).
    apply MStarCons; [constructor; exact Hx | discriminate | exact IH].
Qed.

Lemma matches_digit_star (w : list N) :
  matches (RStar RDigit) w <-> Forall (fun c => isDigit c = true) w.
Proof.
  split.
  - intros H. remember (RStar RDigit) as r eqn:Er.
    induction H as [| | | | | | |r0|r0 s1 s2 H1 _ _ _ IH2]; try discriminate.
    + constructor.
    + injection Er as ->. inversion H1; subst.
      constructor; [assumption | apply IH2; reflexivity].
  - intros H. induction H as [|x w Hx _ IH]; [constructor|].
    change (x :: w) with ([x] ++ w).
    apply MStarCons; [constructor; exact Hx | discriminate | exact IH].
Qed.

Lemma matches_digits (ds : list N) : matches rx_group ds <-> isDigits ds.
Proof.
  unfold rx_group, RPlus, isDigits. split.
  - intros H. inversion H as [| | | |r1 r2 s1 s2 H1 H2| | | |]; subst.
    inversion H1; subst. apply matches_digit_star in H2.
    split; [discriminate | constructor; assumption].
  - intros [Hne H]. destruct H as [|x w Hx Hw]; [congruence|].
    change (x :: w) with ([x] ++ w).
    constructor; [constructor; exact Hx | apply matches_digit_star; exact Hw].
Qed.

Lemma matches_lit (s t : list N) :
  matches (lit s) t <-> List.map canonicalize t = List.map canonicalize s.
Proof.
  revert t. induction s as [|c s IH]; intros t; simpl.
  - split.
    + intros H. inversion H. reflexivity.
    + intros H. destruct t; [constructor | discriminate].
  - split.
    + intros H. inversion H as [| | | |r1 r2 s1 s2 H1 H2| | | |]; subst.
      inversion H1; subst. simpl. f_equal; [assumption | apply IH; assumption].
    + intros H. destruct t as [|x t]; [discriminate|]. simpl in H.
      injection H as Hx Ht. change (x :: t) with ([x] ++ t).
      constructor; [constructor; exact Hx | apply IH; exact Ht].
Qed.

Lemma matches_token (tok : list N) :
  matches (RAlt (lit (str "sec")) (RAlt (lit (str "se")) (lit (str "section")))) tok
  <-> isToken tok.
Proof.
  unfold isToken. split.
  - intros H. inversion H as [| | | | |r1 r2 s Ha|r1 r2 s Hb| |]; subst.
    + left. apply (matches_lit (str "sec")) in Ha. exact Ha.
    + inversion Hb as [| | | | |r1' r2' s' Hc|r1' r2' s' Hd| |]; subst.
      * right; left. apply (matches_lit (str "se")) in Hc. exact Hc.
      * right; right. apply (matches_lit (str "section")) in Hd. exact Hd.
  - intros [H|[H|H]].
    + apply MAltL, (matches_lit (str "sec")). exact H.
    + apply MAltR, MAltL, (matches_lit (str "se")). exact H.
    + apply MAltR, MAltR, (matches_lit (str "section")). exact H.
Qed.

Lemma matches_prefix (p : list N) :
  matches rx_prefix p <->
  exists w1 tok w2, p = w1 ++ tok ++ w2 /\ isSpaces w1 /\ isToken tok /\ isSpaces w2.
Proof.
  unfold rx_prefix. split.
  - intros H. inversion H as [| | | |r1 r2 s1 s2 H1 H2| | | |]; subst.
    inversion H2 as [| | | |r1' r2' s3 s4 H3 H4| | | |]; subst.
    exists s1, s3, s4. repeat split.
    + apply matches_spaces; exact H1.
    + apply matches_token; exact H3.
    + apply matches_spaces; exact H4.
  - intros (w1 & tok & w2 & -> & H1 & H2 & H3).
    constructor; [apply matches_spaces; exact H1|].
    constructor; [apply matches_token; exact H2 | apply matches_spaces; exact H3].
Qed.

(** What [rx.exec] returns is a decomposition of its argument along the
    pattern. *)
Lemma rx_exec_sound (t ds : list N) : rx_exec t = Some ds -> sectionText t ds.
Proof.
  unfold rx_exec. intros H.
  destruct (exec_sound _ _ _ _ _ H) as (p & s1 & -> & Hp & H1).
  destruct (exec_sound _ _ _ _ _ H1) as (g & s2 & -> & Hg & H2).
  destruct (exec_sound _ _ _ _ _ H2) as (q & s3 & -> & Hq & H3).
  destruct s3 as [|? ?]; [|discriminate]. injection H3 as <-.
  rewrite app_nil_r in *.
  replace (length (g ++ q) - length q)%nat with (length g)
    by (rewrite length_app; lia).
  rewrite firstn_app, Nat.sub_diag, firstn_all. simpl. rewrite app_nil_r.
  apply matches_prefix in Hp. destruct Hp as (w1 & tok & w2 & -> & Hw1 & Htok & Hw2).
  exists w1, tok, w2, q. repeat split; try assumption.
  - rewrite <- !app_assoc. reflexivity.
  - apply matches_digits in Hg. apply Hg.
  - apply matches_digits in Hg. apply Hg.
  - apply matches_spaces; exact Hq.
Qed.

Lemma rx_exec_complete (t ds : list N) :
  sectionText t ds -> is_Some (rx_exec t).
Proof.
  intros (w1 & tok & w2 & w3 & -> & Hw1 & Htok & Hw2 & Hds & Hw3).
  unfold rx_exec.
  replace (w1 ++ tok ++ w2 ++ ds ++ w3) with ((w1 ++ tok ++ w2) ++ ds ++ w3)
    by (rewrite <- !app_assoc; reflexivity).
  apply exec_complete.
  { apply matches_prefix. exists w1, tok, w2. repeat split; assumption. }
  apply exec_complete; [apply matches_digits; exact Hds|].
  rewrite <- (app_nil_r w3).
  apply exec_complete; [apply matches_spaces; exact Hw3|]. eauto.
Qed.

End SectionPattern.

Section Uniqueness.


Lemma run_unique (P : N -> bool) (a a' b b' : list N) :
  a ++ b = a' ++ b' ->
  Forall (fun c => P c = true) a -> Forall (fun c => P c = true) a' ->
  stops P b -> stops P b' -> a = a' /\ b = b'.
Proof.
  revert a'. induction a as [|x a IH]; intros [|x' a'] E Ha Ha' Hb Hb'; simpl in E.
  - auto.
  - subst b. simpl in Hb. inversion Ha'; subst. congruence.
  - subst b'. simpl in Hb'. inversion Ha; subst. congruence.
  - injection E as -> E. inversion Ha; inversion Ha'; subst.
    destruct (IH a' E) as [-> ->]; auto.
Qed.

Lemma letter_not_blank (x : N) :
  (65 <= canonicalize x <= 90)%N -> isWhiteSpace x = false /\ isDigit x = false.
Proof.
  unfold canonicalize, isWhiteSpace, isDigit. intros H.
  assert (Hx : (65 <= x <= 122)%N).
  { destruct (N.leb_spec 97 x), (N.leb_spec x 122); simpl in H; lia. }
  clear H. simpl existsb.
  repeat match goal with
         | |- context [N.eqb ?u ?v] => destruct (N.eqb_spec u v); [lia|]
         | |- context [N.leb ?u ?v] => destruct (N.leb_spec u v); try lia
         end; auto.
Qed.


Lemma after_token (w2 ds w3 : list N) :
  isSpaces w2 -> isDigits ds -> blankOrDigitFirst (w2 ++ ds ++ w3).
Proof.
  intros Hw [Hne Hds]. destruct w2 as [|x w2].
  - destruct ds as [|d ds]; [congruence|]. inversion Hds; subst.
    exists d, (ds ++ w3). auto.
  - inversion Hw; subst. exists x, (w2 ++ ds ++ w3). auto.
Qed.

Lemma not_letter_first (x : N) (r0 r : list N) :
  blankOrDigitFirst r -> r = x :: r0 -> (65 <= canonicalize x <= 90)%N -> False.
Proof.
  intros (y & r1 & -> & Hy) E Hx. injection E as -> _.
  destruct (letter_not_blank _ Hx) as [H1 H2]. destruct Hy; congruence.
Qed.

Lemma token_unique (tok tok' r r' : list N) :
  tok ++ r = tok' ++ r' -> isToken tok -> isToken tok' ->
  blankOrDigitFirst r -> blankOrDigitFirst r' -> tok = tok' /\ r = r'.
Proof.
  intros E Ht Ht' Hr Hr'.
  assert (Hsplit : forall t, isToken t ->
            (exists a b c, t = [a; b; c] /\ canonicalize c = 67%N)
            \/ (exists a b, t = [a; b])
            \/ (exists a b c d e f g, t = [a; b; c; d; e; f; g]
                  /\ canonicalize c = 67%N /\ canonicalize d = 84%N)).
  { intros t [H|[H|H]].
    - left. do 4 (destruct t as [|? t]; try discriminate).
      injection H as _ _ H. eauto.
    - right; left. do 3 (destruct t as [|? t]; try discriminate). eauto.
    - right; right. do 8 (destruct t as [|? t]; try discriminate).
      injection H as _ _ H3 H4. eauto 12. }
  destruct (Hsplit _ Ht) as [(a & b & c & -> & Hc)|[(a & b & ->)|(a & b & c & d & e & f & g & -> & Hc & Hd)]];
  destruct (Hsplit _ Ht') as [(a' & b' & c' & -> & Hc')|[(a' & b' & ->)|(a' & b' & c' & d' & e' & f' & g' & -> & Hc' & Hd')]];
  simpl in E; injection E; intros; subst;
  try (split; reflexivity);
  exfalso;
  match goal with
  | H : blankOrDigitFirst (?x :: ?r0) |- _ =>
      apply (not_letter_first x r0 _ H eq_refl); lia
  end.
Qed.

Lemma token_first (tok r : list N) : isToken tok -> stops isWhiteSpace (tok ++ r).
Proof.
  intros [H|[H|H]]; (destruct tok as [|x tok]; [discriminate|]);
    simpl in *; injection H as Hx _;
    apply letter_not_blank; rewrite Hx; lia.
Qed.

Lemma blank_first_stops_digit (w3 : list N) : isSpaces w3 -> stops isDigit w3.
Proof.
  intros H. destruct H as [|x w Hx _]; simpl; [exact I|].
  unfold isWhiteSpace, isDigit in *. simpl existsb in Hx.
  destruct (N.leb_spec 48 x), (N.leb_spec x 57); simpl; try reflexivity.
  exfalso.
  repeat match type of Hx with
         | context [N.eqb ?u ?v] => destruct (N.eqb_spec u v); [lia|]
         | context [N.leb ?u ?v] => destruct (N.leb_spec u v); try lia
         end; simpl in Hx; discriminate.
Qed.

Lemma digit_first_stops_blank (ds r : list N) :
  isDigits ds -> stops isWhiteSpace (ds ++ r).
Proof.
  intros [Hne H]. destruct H as [|x w Hx _]; [congruence|]. simpl.
  destruct (isWhiteSpace x) eqn:E; [|reflexivity].
  pose proof (blank_first_stops_digit [x] ltac:(constructor; [exact E|constructor])) as Hs.
  simpl in Hs. congruence.
Qed.

(** The decomposition of a section name is unique: so is its integer. *)
Lemma sectionText_unique (t ds ds' : list N) :
  sectionText t ds -> sectionText t ds' -> ds = ds'.
Proof.
  intros (w1 & tok & w2 & w3 & -> & Hw1 & Htok & Hw2 & Hds & Hw3)
         (v1 & tok' & v2 & v3 & E & Hv1 & Htok' & Hv2 & Hds' & Hv3).
  destruct (run_unique isWhiteSpace _ _ _ _ E Hw1 Hv1
              (token_first _ _ Htok) (token_first _ _ Htok')) as [-> E1].
  destruct (token_unique _ _ _ _ E1 Htok Htok'
              (after_token _ _ _ Hw2 Hds) (after_token _ _ _ Hv2 Hds')) as [-> E2].
  destruct (run_unique isWhiteSpace _ _ _ _ E2 Hw2 Hv2
              (digit_first_stops_blank _ _ Hds) (digit_first_stops_blank _ _ Hds'))
    as [-> E3].
  destruct (run_unique isDigit _ _ _ _ E3 (proj2 Hds) (proj2 Hds')
              (blank_first_stops_digit _ Hw3) (blank_first_stops_digit _ Hv3))
    as [-> _].
  reflexivity.
Qed.

(** [rx.exec] succeeds exactly on the texts of the specified shape, and its
    capture group is the integer of the text. *)
Lemma rx_exec_spec (t ds : list N) : rx_exec t = Some ds <-> sectionText t ds.
Proof.
  split; [apply rx_exec_sound|].
  intros H. destruct (rx_exec_complete _ _ H) as [ds' E].
  rewrite E. f_equal. apply (sectionText_unique t); [|exact H].
  apply rx_exec_sound. exact E.
Qed.

Lemma rx_test_spec (t : list N) : rx_test t = true <-> exists ds, sectionText t ds.
Proof.
  unfold rx_test. split.
  - destruct (rx_exec t) as [ds|] eqn:E; [|discriminate].
    intros _. exists ds. apply rx_exec_spec. exact E.
  - intros [ds H]. apply rx_exec_spec in H. rewrite H. reflexivity.
Qed.

End Uniqueness.

(* ===================================================================== *)
(** * Named sections: [parseNamedParts] *)
(* ===================================================================== *)

Section NamedParts.

Lemma pick_spec (idx : nat) (name : list N) (p : NamedPart) :
  pick idx name = Some p <->
  np_name p = name /\ np_index p = idx
  /\ exists ds, sectionText (trim name) ds /\ parseInt10 ds = Finite (np_num p).
Proof.
  unfold pick. split.
  - destruct (rx_exec (trim name)) as [ds|] eqn:E; [|discriminate].
    destruct (parseInt10 ds) as [z| |] eqn:Ez; try discriminate.
    intros H. injection H as <-. simpl. repeat split.
    exists ds. split; [apply rx_exec_spec; exact E | exact Ez].
  - intros (Hn & Hi & ds & Hs & Hz). apply rx_exec_spec in Hs.
    rewrite Hs, Hz. destruct p; simpl in *; subst; reflexivity.
Qed.

Lemma pick_accepts (idx : nat) (name : list N) :
  is_Some (pick idx name) <->
  exists ds, sectionText (trim name) ds /\ isFinite (parseInt10 ds) = true.
Proof.
  split.
  - intros [p H]. apply pick_spec in H. destruct H as (_ & _ & ds & Hs & Hz).
    exists ds. rewrite Hz. auto.
  - intros (ds & Hs & Hf). destruct (parseInt10 ds) as [z| |] eqn:Ez; try discriminate.
    exists (mkNamedPart name idx z). apply pick_spec. simpl. eauto.
Qed.

Lemma collect_In (names : list (list N)) :
  forall i p, In p (collect i names) <->
  exists k name, nth_error names k = Some name /\ pick (i + k) name = Some p.
Proof.
  induction names as [|n names IH]; intros i p; simpl.
  - split; [tauto|]. intros (k & name & H & _). destruct k; discriminate.
  - assert (Hrest : In p (collect (S i) names) <->
             exists k name, nth_error names k = Some name
                            /\ pick (i + S k) name = Some p).
    { rewrite IH. split; intros (k & name & H1 & H2); exists k, name;
        (split; [exact H1|]); rewrite <- H2; f_equal; lia. }
    split.
    + intros H.
      assert (Hc : pick i n = Some p \/ In p (collect (S i) names)).
      { destruct (pick i n); [destruct H as [->|H]|]; auto. }
      destruct Hc as [Hc|Hc].
      * exists 0%nat, n. rewrite Nat.add_0_r. auto.
      * apply Hrest in Hc. destruct Hc as (k & name & H1 & H2).
        exists (S k), name. auto.
    + intros (k & name & H1 & H2). destruct k as [|k]; simpl in H1.
      * injection H1 as ->. rewrite Nat.add_0_r in H2. rewrite H2. left; reflexivity.
      * assert (In p (collect (S i) names)) by (apply Hrest; eauto).
        destruct (pick i n); [right|]; assumption.
Qed.

Lemma insertPick_perm (x : NamedPart) (l : list NamedPart) :
  Permutation (x :: l) (insertPick x l).
Proof.
  induction l as [|y l IH]; simpl; [reflexivity|].
  destruct (compareNum x y <=? 0); [reflexivity|].
  rewrite perm_swap. constructor. exact IH.
Qed.

Lemma sortPicks_perm (l : list NamedPart) : Permutation l (sortPicks l).
Proof.
  induction l as [|x l IH]; simpl; [reflexivity|].
  rewrite <- insertPick_perm. constructor. exact IH.
Qed.

Lemma parseNamedParts_In (allNames : list (list N)) (p : NamedPart) :
  In p (parseNamedParts allNames) <->
  exists name, nth_error allNames (np_index p) = Some name
               /\ pick (np_index p) name = Some p.
Proof.
  unfold parseNamedParts.
  assert (H : In p (sortPicks (collect 0 allNames)) <-> In p (collect 0 allNames)).
  { split; apply Permutation_in;
      [symmetry|]; apply sortPicks_perm. }
  rewrite H, collect_In. simpl. split.
  - intros (k & name & H1 & H2). pose proof H2 as H3.
    apply pick_spec in H3. destruct H3 as (_ & -> & _). eauto.
  - intros (name & H1 & H2). eauto.
Qed.

(** Positions grow along the list that [forEach] builds. *)
Lemma collect_indices (names : list (list N)) :
  forall i, StronglySorted (fun a b => (np_index a < np_index b)%nat) (collect i names)
            /\ Forall (fun a => (i <= np_index a)%nat) (collect i names).
Proof.
  induction names as [|n names IH]; intros i; simpl.
  - split; constructor.
  - destruct (IH (S i)) as [Hs Hf].
    assert (Hf' : Forall (fun a => (i <= np_index a)%nat) (collect (S i) names)).
    { eapply Forall_impl; [exact Hf|]. simpl. intros; lia. }
    destruct (pick i n) as [p|] eqn:E; [|auto].
    apply pick_spec in E. destruct E as (_ & Hi & _).
    split; constructor; try assumption; [|lia].
    eapply Forall_impl; [exact Hf|]. simpl. intros; lia.
Qed.

Lemma insertPick_sorted (x : NamedPart) (l : list NamedPart) :
  StronglySorted before l ->
  Forall (fun y => (np_index x < np_index y)%nat) l ->
  StronglySorted before (insertPick x l).
Proof.
  unfold before. intros Hs. induction Hs as [|y l Hs IH Hy]; intros Hx; simpl.
  - repeat constructor.
  - inversion Hx as [|? ? Hxy Hxl]; subst. unfold compareNum.
    destruct (Z.leb_spec (np_num x - np_num y) 0) as [Hle|Hgt].
    + constructor; [constructor; assumption|].
      constructor; [lia|].
      rewrite List.Forall_forall in *. intros z Hz.
      specialize (Hy z Hz). specialize (Hxl z Hz). simpl in *. lia.
    + constructor; [apply IH; exact Hxl|].
      rewrite List.Forall_forall in *. intros z Hz.
      apply (Permutation_in _ (Permutation_sym (insertPick_perm x l))) in Hz.
      destruct Hz as [<-|Hz]; [lia | apply Hy; exact Hz].
Qed.

Lemma sortPicks_sorted (l : list NamedPart) :
  StronglySorted (fun a b => (np_index a < np_index b)%nat) l ->
  StronglySorted before (sortPicks l).
Proof.
  induction 1 as [|x l Hs IH Hx]; simpl; [constructor|].
  apply insertPick_sorted; [exact IH|].
  rewrite List.Forall_forall in *. intros y Hy. apply Hx.
  eapply Permutation_in; [symmetry; apply sortPicks_perm | exact Hy].
Qed.

(** A list has one arrangement in display order: whatever stable sort the
    engine runs, it returns the list that [sortPicks] returns. *)
Lemma sortPicks_unique (l l' : list NamedPart) :
  StronglySorted (fun a b => (np_index a < np_index b)%nat) l ->
  Permutation l l' -> StronglySorted before l' -> l' = sortPicks l.
Proof.
  intros Hidx Hp Hs'.
  assert (Hs : StronglySorted before (sortPicks l)) by (apply sortPicks_sorted; exact Hidx).
  assert (Hpp : Permutation l' (sortPicks l)).
  { rewrite <- Hp. apply sortPicks_perm. }
  clear Hidx Hp. revert Hs Hpp. generalize (sortPicks l) as m. clear l.
  induction Hs' as [|a l' Hs' IH Ha]; intros m Hm Hp.
  - apply Permutation_nil in Hp. subst. reflexivity.
  - destruct m as [|b m]; [apply Permutation_sym, Permutation_nil in Hp; discriminate|].
    inversion Hm as [|? ? Hm' Hb]; subst.
    assert (E : a = b).
    { assert (Hab : In a (b :: m)) by (eapply Permutation_in; [exact Hp|left; reflexivity]).
      assert (Hba : In b (a :: l')) by (eapply Permutation_in; [symmetry; exact Hp|left; reflexivity]).
      destruct Hab as [->|Hab]; [reflexivity|].
      destruct Hba as [->|Hba]; [reflexivity|].
      rewrite List.Forall_forall in Ha, Hb.
      specialize (Ha _ Hba). specialize (Hb _ Hab). unfold before in *. lia. }
    subst b. f_equal. apply IH; [exact Hm'|].
    eapply Permutation_cons_inv. exact Hp.
Qed.

Lemma pick_num (i j : nat) (name : list N) :
  option_map np_num (pick i name) = option_map np_num (pick j name).
Proof.
  unfold pick. destruct (rx_exec (trim name)) as [ds|]; [|reflexivity].
  destruct (parseInt10 ds); reflexivity.
Qed.

Lemma collect_nums (names : list (list N)) :
  forall i, List.map np_num (collect i names)
            = List.flat_map (fun n => match pick 0 n with
                                      | Some p => [np_num p]
                                      | None => []
                                      end) names.
Proof.
  induction names as [|n names IH]; intros i; simpl; [reflexivity|].
  pose proof (pick_num i 0 n) as E.
  destruct (pick i n) as [p|], (pick 0 n) as [q|]; simpl in E; try discriminate.
  - injection E as E. simpl. rewrite E, IH. reflexivity.
  - apply IH.
Qed.

Lemma sorted_numbers_unique (l l' : list Z) :
  StronglySorted Z.le l -> StronglySorted Z.le l' -> Permutation l l' -> l = l'.
Proof.
  intros Hl. revert l'. induction Hl as [|a l Hl IH Ha]; intros l' Hl' Hp.
  - apply Permutation_nil in Hp. subst. reflexivity.
  - destruct l' as [|b l']; [apply Permutation_sym, Permutation_nil in Hp; discriminate|].
    inversion Hl' as [|? ? Hl'' Hb]; subst.
    assert (E : a = b).
    { assert (Hab : In a (b :: l')) by (eapply Permutation_in; [exact Hp|left; reflexivity]).
      assert (Hba : In b (a :: l)) by (eapply Permutation_in; [symmetry; exact Hp|left; reflexivity]).
      destruct Hab as [->|Hab]; [reflexivity|].
      destruct Hba as [->|Hba]; [reflexivity|].
      rewrite List.Forall_forall in Ha, Hb.
      specialize (Ha _ Hba). specialize (Hb _ Hab). lia. }
    subst b. f_equal. apply IH; [exact Hl''|].
    eapply Permutation_cons_inv. exact Hp.
Qed.

End NamedParts.

(* ===================================================================== *)
(** * When [parseInt] stays finite *)
(* ===================================================================== *)

Section Numbers.

(** A non-negative integer rounds to a finite double exactly below
    2^1024 - 2^970 (about 1.8e308). *)
Lemma toDouble_finite (n : Z) :
  0 <= n -> (isFinite (toDouble n) = true <-> n < 2 ^ 1024 - 2 ^ 970).
Proof.
  intros Hn. unfold toDouble.
  destruct (Z.ltb_spec n (2 ^ 53)) as [Hsmall|Hbig].
  { simpl. split; [intros _|reflexivity].
    assert (2 ^ 53 < 2 ^ 1024 - 2 ^ 970) by reflexivity. lia. }
  set (L := Z.log2 n). set (e := L - 52). set (P := 2 ^ e).
  assert (HL : 2 ^ L <= n < 2 ^ (Z.succ L)) by (apply Z.log2_spec; lia).
  assert (HL53 : 53 <= L).
  { apply Z.log2_le_pow2; lia. }
  assert (HP : 0 < P) by (apply Z.pow_pos_nonneg; lia).
  assert (H2L : 2 ^ L = 2 ^ 52 * P).
  { unfold P, e. rewrite <- Z.pow_add_r by lia. f_equal. lia. }
  assert (H2L1 : 2 ^ (Z.succ L) = 2 ^ 53 * P).
  { rewrite Z.pow_succ_r by lia. rewrite H2L. change (2 ^ 53) with (2 * 2 ^ 52). ring. }
  pose proof (Z.div_mod n P ltac:(lia)) as Hdm.
  pose proof (Z.mod_pos_bound n P HP) as Hr.
  set (q := n / P) in *. set (r := n mod P) in *.
  assert (Hq : 2 ^ 52 <= q < 2 ^ 53).
  { rewrite H2L, H2L1 in HL. split; nia. }
  set (q' := if 2 * r <? P then q else if P <? 2 * r then q + 1
             else if Z.even q then q else q + 1).
  assert (Hq' : q <= q' <= q + 1).
  { unfold q'. destruct (2 * r <? P), (P <? 2 * r), (Z.even q); lia. }
  destruct (Z.lt_trichotomy L 1023) as [Hlt|[Heq|Hgt]].
  - assert (Hle : 2 ^ (Z.succ L) <= 2 ^ 1023) by (apply Z.pow_le_mono_r; lia).
    rewrite H2L1 in Hle.
    assert (Hv : q' * P < 2 ^ 1024).
    { assert (2 ^ 1023 < 2 ^ 1024) by reflexivity. nia. }
    destruct (Z.leb_spec (2 ^ 1024) (q' * P)); [lia|]. simpl.
    split; [intros _|reflexivity].
    assert (2 ^ 1023 < 2 ^ 1024 - 2 ^ 970) by reflexivity. lia.
  - assert (HPe : P = 2 ^ 971) by (unfold P, e; rewrite Heq; reflexivity).
    assert (Hodd : q = 2 ^ 53 - 1 -> Z.even q = false).
    { intros ->. reflexivity. }
    assert (Hc : 2 ^ 1024 <= q' * P <-> 2 ^ 1024 - 2 ^ 970 <= n).
    { unfold q'. rewrite HPe in *.
      change (2 ^ 1024) with (2 ^ 53 * 2 ^ 971).
      change (2 ^ 1024 - 2 ^ 970) with ((2 ^ 53 - 1) * 2 ^ 971 + 2 ^ 970).
      change (2 ^ 971) with (2 * 2 ^ 970) in *.
      destruct (Z.ltb_spec (2 * r) (2 * 2 ^ 970)); [nia|].
      destruct (Z.ltb_spec (2 * 2 ^ 970) (2 * r)); [nia|].
      destruct (Z.even q) eqn:Ev; [|nia].
      assert (q <> 2 ^ 53 - 1) by (intros E; specialize (Hodd E); congruence).
      nia. }
    destruct (Z.leb_spec (2 ^ 1024) (q' * P)) as [Hv|Hv]; simpl.
    + split; [intros Hf; inversion Hf | intros; lia].
    + split; [intros _; lia | reflexivity].
  - assert (Hle : 2 ^ 1024 <= 2 ^ L) by (apply Z.pow_le_mono_r; lia).
    assert (Hv : 2 ^ 1024 <= q' * P) by (rewrite H2L in Hle; nia).
    destruct (Z.leb_spec (2 ^ 1024) (q' * P)); [|lia]. simpl.
    split; [intros Hf; inversion Hf|]. intros. exfalso.
    assert (0 < 2 ^ 970) by reflexivity. lia.
Qed.

Lemma digitsValue_nonneg (ds : list N) :
  Forall (fun c => isDigit c = true) ds -> 0 <= digitsValue ds.
Proof.
  unfold digitsValue.
  assert (H : forall acc, 0 <= acc -> Forall (fun c => isDigit c = true) ds ->
            0 <= fold_left (fun acc c => 10 * acc + digitValue c) ds acc).
  { induction ds as [|c ds IH]; intros acc Hacc Hds; simpl; [exact Hacc|].
    inversion Hds as [|? ? Hc Hds']; subst.
    unfold isDigit in Hc. apply andb_true_iff in Hc. destruct Hc as [H1 H2].
    apply N.leb_le in H1. apply N.leb_le in H2.
    apply IH; [|exact Hds']. unfold digitValue. lia. }
  apply H. lia.
Qed.

Lemma parseInt10_finite (ds : list N) :
  isDigits ds ->
  (isFinite (parseInt10 ds) = true <-> digitsValue ds < 2 ^ 1024 - 2 ^ 970).
Proof.
  intros [Hne Hds]. unfold parseInt10.
  destruct ds as [|c ds]; [congruence|].
  apply toDouble_finite. apply digitsValue_nonneg. exact Hds.
Qed.

Lemma digitsValue_bound (ds : list N) :
  Forall (fun c => isDigit c = true) ds ->
  digitsValue ds < 10 ^ Z.of_nat (length ds).
Proof.
  unfold digitsValue.
  assert (H : forall acc, Forall (fun c => isDigit c = true) ds ->
            fold_left (fun acc c => 10 * acc + digitValue c) ds acc
            < (acc + 1) * 10 ^ Z.of_nat (length ds)).
  { induction ds as [|c ds IH]; intros acc Hds; simpl length.
    - simpl. lia.
    - inversion Hds as [|? ? Hc Hds']; subst.
      unfold isDigit in Hc. apply andb_true_iff in Hc. destruct Hc as [H1 H2].
      apply N.leb_le in H1. apply N.leb_le in H2.
      simpl fold_left. specialize (IH (10 * acc + digitValue c) Hds').
      rewrite Nat2Z.inj_succ, Z.pow_succ_r by lia.
      assert (Hp : 0 < 10 ^ Z.of_nat (length ds)) by (apply Z.pow_pos_nonneg; lia).
      unfold digitValue in *. nia. }
  intros Hds. specialize (H 0 Hds). lia.
Qed.

(** A section number of at most 308 digits is always read as finite. *)
Lemma short_numbers_finite (ds : list N) :
  isDigits ds -> (length ds <= 308)%nat -> isFinite (parseInt10 ds) = true.
Proof.
  intros Hds Hlen. apply (parseInt10_finite ds Hds).
  pose proof (digitsValue_bound ds (proj2 Hds)) as Hb.
  assert (Hpow : 10 ^ Z.of_nat (length ds) <= 10 ^ 308)
    by (apply Z.pow_le_mono_r; lia).
  assert (Hthr : 10 ^ 308 < 2 ^ 1024 - 2 ^ 970) by reflexivity.
  lia.
Qed.

End Numbers.

(** C4 (as amended).  A part name is recognized exactly when its trimmed text
    is optional whitespace, one of the tokens sec, se, section in any case,
    optional whitespace, a decimal integer, optional whitespace and nothing
    else, and the integer is below 2^1024 - 2^970, so that [parseInt] reads
    it as a finite number.  A recognized name is listed with its position and
    that number.  "Section 4", "sec4" and "SE 4" are section 4; "Section 4a"
    and "foo sec 4" are not recognized. *)
Theorem C4_section_recognizer :
  (forall (idx : nat) (name : list N),
      is_Some (pick idx name) <->
      exists ds, sectionText (trim name) ds /\ digitsValue ds < 2 ^ 1024 - 2 ^ 970)
  /\ (forall (allNames : list (list N)) (p : NamedPart),
        In p (parseNamedParts allNames) <->
        nth_error allNames (np_index p) = Some (np_name p)
        /\ exists ds, sectionText (trim (np_name p)) ds
                      /\ parseInt10 ds = Finite (np_num p))
  /\ parseNamedParts [str "Section 4"] = [mkNamedPart (str "Section 4") 0 4]
  /\ parseNamedParts [str "sec4"] = [mkNamedPart (str "sec4") 0 4]
  /\ parseNamedParts [str "SE 4"] = [mkNamedPart (str "SE 4") 0 4]
  /\ parseNamedParts [str "Section 4a"] = []
  /\ parseNamedParts [str "foo sec 4"] = [].
Proof.
  split; [|split].
  - intros idx name. rewrite pick_accepts.
    split; intros (ds & Hs & Hf); exists ds; (split; [exact Hs|]);
      assert (Hd : isDigits ds)
        by (destruct Hs as (? & ? & ? & ? & _ & _ & _ & _ & Hd & _); exact Hd);
      apply (parseInt10_finite ds Hd); exact Hf.
  - intros allNames p. rewrite parseNamedParts_In. split.
    + intros (name & Hn & Hp). apply pick_spec in Hp.
      destruct Hp as (<- & _ & Hds). auto.
    + intros (Hn & Hds). exists (np_name p). split; [exact Hn|].
      apply pick_spec. auto.
  - repeat split; vm_compute; reflexivity.
Qed.

(** C4 fails as stated: "sec " followed by 1 and 309 zeros is a token and a
    decimal integer, yet it is not recognized, because the integer overflows
    to [Infinity] and [parseNamedParts] keeps finite numbers only. *)
Lemma C4_counterexample :
  let name := str "sec " ++ 49%N :: repeat 48%N 309 in
  (exists ds, sectionText (trim name) ds)
  /\ (forall idx, pick idx name = None)
  /\ parseNamedParts [name] = []
  /\ ~ (forall (idx : nat) (nm : list N),
          is_Some (pick idx nm) <-> exists ds, sectionText (trim nm) ds).
Proof.
  intros name.
  assert (H1 : exists ds, sectionText (trim name) ds).
  { exists (49%N :: repeat 48%N 309). apply rx_exec_spec.
    vm_compute. reflexivity. }
  assert (H2 : forall idx, pick idx name = None).
  { intros idx. unfold pick.
    replace (rx_exec (trim name)) with (Some (49%N :: repeat 48%N 309))
      by (vm_compute; reflexivity).
    replace (parseInt10 (49%N :: repeat 48%N 309)) with PosInfinity
      by (vm_compute; reflexivity).
    reflexivity. }
  split; [exact H1|]. split; [exact H2|]. split; [vm_compute; reflexivity|].
  intros H. apply (H 0%nat name) in H1. rewrite H2 in H1.
  destruct H1 as [? H1]. discriminate.
Qed.

(** C5 (as amended).  For every list of part names, the named sections come
    out in ascending (non-decreasing) order of section number, sections with
    the same number keep the order of their parts, and the result holds
    exactly the entries that the scan of the names produced.  The sequence
    of section numbers does not depend on the order of the names. *)
Theorem C5_sections_sorted (allNames : list (list N)) :
  StronglySorted (fun a b => np_num a <= np_num b) (parseNamedParts allNames)
  /\ StronglySorted before (parseNamedParts allNames)
  /\ Permutation (collect 0 allNames) (parseNamedParts allNames)
  /\ (forall allNames' : list (list N),
        Permutation allNames allNames' ->
        List.map np_num (parseNamedParts allNames')
        = List.map np_num (parseNamedParts allNames)).
Proof.
  assert (Hb : forall names, StronglySorted before (parseNamedParts names)).
  { intros names. apply sortPicks_sorted. apply collect_indices. }
  assert (Hle : forall names,
            StronglySorted (fun a b => np_num a <= np_num b) (parseNamedParts names)).
  { intros names. specialize (Hb names).
    induction Hb as [|a l _ IH Ha]; constructor; [exact IH|].
    eapply Forall_impl; [exact Ha|]. unfold before. simpl. intros; lia. }
  assert (Hnums : forall names,
            StronglySorted Z.le (List.map np_num (parseNamedParts names))).
  { intros names. specialize (Hle names).
    induction Hle as [|a l _ IH Ha]; simpl; constructor; [exact IH|].
    rewrite List.Forall_forall in *. intros z Hz.
    apply in_map_iff in Hz. destruct Hz as (p & <- & Hp). apply Ha. exact Hp. }
  split; [apply Hle|]. split; [apply Hb|]. split; [apply sortPicks_perm|].
  intros allNames' Hperm. apply sorted_numbers_unique; try apply Hnums.
  unfold parseNamedParts.
  rewrite <- (sortPicks_perm (collect 0 allNames')).
  rewrite <- (sortPicks_perm (collect 0 allNames)).
  rewrite !collect_nums. apply Permutation_flat_map. symmetry. exact Hperm.
Qed.

Lemma C5_sections_sorted_witness :
  List.map np_num (parseNamedParts [str "sec 2"; str "sec 1"]) = [1; 2]
  /\ List.map np_num (parseNamedParts [str "sec 1"; str "sec 2"]) = [1; 2].
Proof.
  split; [vm_compute; reflexivity|].
  rewrite (proj2 (proj2 (proj2 (C5_sections_sorted [str "sec 2"; str "sec 1"])))
             [str "sec 1"; str "sec 2"] (perm_swap _ _ _)).
  vm_compute. reflexivity.
Defined.

(** C5 fails as stated: two parts that carry the same section number give a
    list that is not strictly ascending. *)
Lemma C5_counterexample :
  List.map np_num (parseNamedParts [str "sec 1"; str "se 1"]) = [1; 1]
  /\ ~ StronglySorted Z.lt (List.map np_num (parseNamedParts [str "sec 1"; str "se 1"])).
Proof.
  assert (E : List.map np_num (parseNamedParts [str "sec 1"; str "se 1"]) = [1; 1])
    by (vm_compute; reflexivity).
  split; [exact E|]. rewrite E. intros H.
  inversion H as [|? ? _ Hf]; subst. inversion Hf; subst. lia.
Qed.

(* ===================================================================== *)
(** * Trimming and the section pattern *)
(* ===================================================================== *)

Section Trimming.

Lemma trimStart_spaces (w r : list N) :
  isSpaces w -> trimStart (w ++ r) = trimStart r.
Proof.
  induction 1 as [|x w Hx _ IH]; simpl; [reflexivity|]. rewrite Hx. exact IH.
Qed.

Lemma trimStart_stops (r : list N) : stops isWhiteSpace r -> trimStart r = r.
Proof. destruct r as [|x r]; simpl; [reflexivity|]. intros ->. reflexivity. Qed.

Lemma trimStart_snoc (l : list N) (x : N) :
  isWhiteSpace x = false -> exists l', trimStart (l ++ [x]) = l' ++ [x].
Proof.
  intros Hx. induction l as [|y l IH]; simpl.
  - rewrite Hx. exists []. reflexivity.
  - destruct (isWhiteSpace y); [exact IH|]. exists (y :: l). reflexivity.
Qed.

Lemma trim_head (x : N) (s : list N) :
  isWhiteSpace x = false -> exists s', trim (x :: s) = x :: s'.
Proof.
  intros Hx. unfold trim, trimEnd. simpl trimStart at 2. rewrite Hx. simpl rev at 2.
  destruct (trimStart_snoc (rev s) x Hx) as [l' ->].
  rewrite rev_app_distr. simpl. eauto.
Qed.

Lemma isSpaces_rev (w : list N) : isSpaces w -> isSpaces (rev w).
Proof.
  unfold isSpaces. rewrite !List.Forall_forall. intros H x Hx.
  apply H. apply in_rev. exact Hx.
Qed.

Lemma isDigits_rev (ds : list N) : isDigits ds -> isDigits (rev ds).
Proof.
  intros [Hne H]. split.
  - intros E. apply Hne. rewrite <- (rev_involutive ds), E. reflexivity.
  - rewrite List.Forall_forall in *. intros x Hx. apply H. apply in_rev. exact Hx.
Qed.

(** The trimmed text of a section name is the token, the blanks after it and
    the integer. *)
Lemma sectionText_trim (t ds : list N) :
  sectionText t ds -> sectionText (trim t) ds.
Proof.
  intros (w1 & tok & w2 & w3 & -> & Hw1 & Htok & Hw2 & Hds & Hw3).
  assert (E : trim (w1 ++ tok ++ w2 ++ ds ++ w3) = tok ++ w2 ++ ds).
  { unfold trim, trimEnd.
    rewrite trimStart_spaces by exact Hw1.
    rewrite (trimStart_stops (tok ++ w2 ++ ds ++ w3))
      by (apply token_first; exact Htok).
    rewrite !rev_app_distr, <- !app_assoc.
    rewrite trimStart_spaces by (apply isSpaces_rev; exact Hw3).
    rewrite (trimStart_stops (rev ds ++ rev w2 ++ rev tok))
      by (apply digit_first_stops_blank, isDigits_rev; exact Hds).
    rewrite !rev_app_distr, !rev_involutive, <- !app_assoc. reflexivity. }
  rewrite E. exists [], tok, w2, []. rewrite app_nil_r.
  split; [reflexivity|]. split; [constructor|]. split; [exact Htok|].
  split; [exact Hw2|]. split; [exact Hds | constructor].
Qed.

Lemma rx_test_trim (t : list N) : rx_test t = true -> rx_test (trim t) = true.
Proof.
  rewrite !rx_test_spec. intros [ds H]. exists ds. apply sectionText_trim. exact H.
Qed.

(** A text that starts with a letter other than S is no section name. *)
Lemma rx_test_first (x : N) (s : list N) :
  isWhiteSpace x = false -> canonicalize x <> 83%N -> rx_test (x :: s) = false.
Proof.
  intros Hx Hc. destruct (rx_test (x :: s)) eqn:E; [|reflexivity]. exfalso.
  apply rx_test_spec in E.
  destruct E as (ds & w1 & tok & w2 & w3 & E & Hw1 & Htok & _).
  destruct w1 as [|y w1].
  - assert (Hz : exists z tok', tok = z :: tok' /\ canonicalize z = 83%N).
    { destruct Htok as [H|[H|H]]; (destruct tok as [|z tok]; [discriminate|]);
        exists z, tok; (split; [reflexivity|]); injection H; intros _ Hz; exact Hz. }
    destruct Hz as (z & tok' & -> & Hz). simpl in E. injection E as -> _.
    congruence.
  - simpl in E. injection E as -> _. inversion Hw1; subst. congruence.
Qed.

Lemma trimStart_split (s : list N) :
  exists w, s = w ++ trimStart s /\ isSpaces w /\ stops isWhiteSpace (trimStart s).
Proof.
  induction s as [|c s IH]; simpl.
  - exists []. repeat split. constructor.
  - destruct (isWhiteSpace c) eqn:E.
    + destruct IH as (w & Hs & Hw & Hst). exists (c :: w).
      split; [simpl; f_equal; exact Hs|]. split; [constructor; assumption | exact Hst].
    + exists []. repeat split; [constructor | exact E].
Qed.

(** [trim] removes whitespace from both ends and nothing else. *)
Lemma trim_split (s : list N) :
  exists w w', s = w ++ trim s ++ w' /\ isSpaces w /\ isSpaces w'
               /\ stops isWhiteSpace (trim s) /\ stops isWhiteSpace (rev (trim s)).
Proof.
  unfold trim, trimEnd.
  destruct (trimStart_split s) as (w & Hs & Hw & Hst).
  destruct (trimStart_split (rev (trimStart s))) as (v & Hr & Hv & Hst').
  exists w, (rev v). split; [|split; [exact Hw|split; [apply isSpaces_rev; exact Hv|]]].
  - rewrite <- rev_app_distr, <- Hr, rev_involutive. exact Hs.
  - split; [|rewrite rev_involutive; exact Hst'].
    apply (f_equal (@rev N)) in Hr. rewrite rev_involutive, rev_app_distr in Hr.
    destruct (rev (trimStart (rev (trimStart s)))) as [|x t] eqn:E; [exact I|].
    rewrite Hr in Hst. exact Hst.
Qed.

(** Whitespace around a section name does not matter. *)
Lemma sectionText_untrim (s ds : list N) :
  sectionText (trim s) ds -> sectionText s ds.
Proof.
  intros (w1 & tok & w2 & w3 & E & Hw1 & Htok & Hw2 & Hds & Hw3).
  destruct (trim_split s) as (w & w' & Hs & Hw & Hw' & _).
  exists (w ++ w1), tok, w2, (w3 ++ w'). rewrite Hs at 1. rewrite E.
  rewrite <- !app_assoc. split; [reflexivity|].
  split; [apply Forall_app; auto|]. split; [exact Htok|].
  split; [exact Hw2|]. split; [exact Hds|]. apply Forall_app; auto.
Qed.

Lemma trim_idem (s : list N) : trim (trim s) = trim s.
Proof.
  destruct (trim_split s) as (_ & _ & _ & _ & _ & H1 & H2).
  unfold trim at 1. unfold trimEnd.
  rewrite (trimStart_stops (trim s)) by exact H1.
  rewrite (trimStart_stops (rev (trim s))) by exact H2.
  apply rev_involutive.
Qed.

End Trimming.

(* ===================================================================== *)
(** * Section names on inner nodes (mobile build) *)
(* ===================================================================== *)

Section Promotion.

(** The name [promoteSectionNamesToParts] picks below a part is the trimmed
    name of the first matching node in traversal order. *)
Lemma firstSectionName_spec (l : list Object3D) :
  match Mobile.firstSectionName l with
  | Some n =>
      exists pre d post,
        l = pre ++ d :: post
        /\ Forall (fun o => rx_test (trim (name o)) = false) pre
        /\ rx_test (trim (name d)) = true
        /\ n = trim (name d)
  | None => Forall (fun o => rx_test (trim (name o)) = false) l
  end.
Proof.
  induction l as [|o l IH]; simpl; [constructor|].
  assert (Hskip : rx_test (trim (name o)) = false ->
    match Mobile.firstSectionName l with
    | Some n =>
        exists pre d post,
          o :: l = pre ++ d :: post
          /\ Forall (fun o => rx_test (trim (name o)) = false) pre
          /\ rx_test (trim (name d)) = true
          /\ n = trim (name d)
    | None => Forall (fun o => rx_test (trim (name o)) = false) (o :: l)
    end).
  { intros Ho. destruct (Mobile.firstSectionName l) as [n|].
    - destruct IH as (pre & d & post & -> & Hpre & Hd & Hn).
      exists (o :: pre), d, post. repeat split; try assumption.
      constructor; assumption.
    - constructor; assumption. }
  destruct (trim (name o)) as [|c t] eqn:Et.
  - apply Hskip. reflexivity.
  - destruct (rx_test (c :: t)) eqn:Ert.
    + exists [], o, l. rewrite Et. repeat split; [constructor | exact Ert].
    + apply Hskip. reflexivity.
Qed.

Lemma partLabel_named (i : nat) (p : Object3D) :
  name p <> [] -> partLabel i p = name p.
Proof. unfold partLabel. destruct (name p); [congruence | reflexivity]. Qed.

Lemma partLabel_default_unmatched (i : nat) (p : Object3D) :
  name p = [] -> rx_test (trim (partLabel i p)) = false.
Proof.
  intros E. unfold partLabel. rewrite E.
  change (str "Part " ++ digitsOfNat (i + 1))%list
    with (80%N :: (str "art " ++ digitsOfNat (i + 1)))%list.
  destruct (trim_head 80 (str "art " ++ digitsOfNat (i + 1)) eq_refl) as [s' ->].
  apply rx_test_first; [reflexivity | discriminate].
Qed.

End Promotion.

(** C9 (as amended).  Take a part whose own trimmed name does not match the
    section pattern while the trimmed name of some node below it does.  The
    mobile build renames the part to the trimmed name of the first such node
    in traversal order and reports that name for the part; the reported name
    matches the section pattern, and the front end reads from it the section
    number it would read from the node's own name.  The part is recognized
    as a named section exactly when that number is below 2^1024 - 2^970, so
    that [parseInt] reads it as a finite number; a larger number leaves the
    promoted part without a section.  The desktop build reports the part's
    own name (or its "Part n" label), which does not match.  After a load the
    mobile build reports the labels of the promoted parts and the desktop
    build the labels of the parts as gathered. *)
Theorem C9_section_name_promotion (p : Object3D) (i : nat) :
  rx_test (trim (name p)) = false ->
  (exists d, In d (traverse p) /\ rx_test (trim (name d)) = true) ->
  (exists pre d post,
      traverse p = pre ++ d :: post
      /\ Forall (fun o => rx_test (trim (name o)) = false) pre
      /\ rx_test (trim (name d)) = true
      /\ name (Mobile.promoteSectionName p) = trim (name d)
      /\ partLabel i (Mobile.promoteSectionName p) = trim (name d)
      /\ option_map np_num (pick i (partLabel i (Mobile.promoteSectionName p)))
         = option_map np_num (pick i (name d))
      /\ exists ds,
           sectionText (trim (name d)) ds
           /\ (digitsValue ds < 2 ^ 1024 - 2 ^ 970 ->
               exists num,
                 parseInt10 ds = Finite num
                 /\ pick i (partLabel i (Mobile.promoteSectionName p))
                    = Some (mkNamedPart (trim (name d)) i num))
           /\ (2 ^ 1024 - 2 ^ 970 <= digitsValue ds ->
               pick i (partLabel i (Mobile.promoteSectionName p)) = None)
           /\ (forall names,
                 nth_error names i
                 = Some (partLabel i (Mobile.promoteSectionName p)) ->
                 ((exists q, In q (parseNamedParts names) /\ np_index q = i)
                  <-> digitsValue ds < 2 ^ 1024 - 2 ^ 970)))
  /\ rx_test (trim (partLabel i (Mobile.promoteSectionName p))) = true
  /\ rx_test (trim (partLabel i p)) = false
  /\ pick i (partLabel i p) = None
  /\ (forall g root0 s shown,
        gltfRoot g = Some root0 -> scene (rig s) = Some shown ->
        let root := Mobile.recenter (getCenter (setFromObject (cloneMaterials root0)))
                      (cloneMaterials root0) in
        getPartNames (fst (Mobile.loadGLB (LoadOk g) s))
        = imap partLabel
            (List.map Mobile.promoteSectionName
               (gatherParts (Some (Mobile.mkPivot root)) root))
        /\ getPartNames (fst (Viewer.loadGLB (LoadOk g) s))
           = imap partLabel (gatherParts None (cloneMaterials root0))).
Proof.
  intros Hown (d0 & Hin & Hd0).
  assert (Hp : exists pre d post,
      traverse p = pre ++ d :: post
      /\ Forall (fun o => rx_test (trim (name o)) = false) pre
      /\ rx_test (trim (name d)) = true
      /\ name (Mobile.promoteSectionName p) = trim (name d)
      /\ partLabel i (Mobile.promoteSectionName p) = trim (name d)).
  { unfold Mobile.promoteSectionName. rewrite Hown.
    pose proof (firstSectionName_spec (traverse p)) as Hf.
    destruct (Mobile.firstSectionName (traverse p)) as [n|].
    - destruct Hf as (pre & d & post & E & Hpre & Hd & ->).
      exists pre, d, post.
      destruct (trim (name d)) as [|c t] eqn:Et; [discriminate Hd|].
      repeat split; try assumption; reflexivity.
    - rewrite List.Forall_forall in Hf. rewrite (Hf _ Hin) in Hd0. discriminate. }
  assert (Hdesk : rx_test (trim (partLabel i p)) = false).
  { destruct (name p) as [|c t] eqn:En.
    - apply partLabel_default_unmatched. exact En.
    - rewrite partLabel_named by (rewrite En; discriminate). rewrite En. exact Hown. }
  split; [|split; [|split; [|split]]].
  - destruct Hp as (pre & d & post & H1 & H2 & H3 & H4 & H5).
    exists pre, d, post.
    split; [exact H1|]. split; [exact H2|]. split; [exact H3|].
    split; [exact H4|]. split; [exact H5|]. split.
    { rewrite H5. unfold pick. rewrite trim_idem.
      destruct (rx_exec (trim (name d))) as [ds|]; [|reflexivity].
      destruct (parseInt10 ds); reflexivity. }
    pose proof H3 as H3'. apply rx_test_spec in H3'. destruct H3' as [ds Hds].
    assert (Hdig : isDigits ds)
      by (destruct Hds as (? & ? & ? & ? & _ & _ & _ & _ & Hd & _); exact Hd).
    pose proof (parseInt10_finite ds Hdig) as Hfin.
    assert (Hpick : pick i (partLabel i (Mobile.promoteSectionName p))
                    = match parseInt10 ds with
                      | Finite num => Some (mkNamedPart (trim (name d)) i num)
                      | _ => None
                      end).
    { rewrite H5. unfold pick. rewrite trim_idem.
      rewrite (proj2 (rx_exec_spec _ _) Hds). reflexivity. }
    assert (Hsmall : digitsValue ds < 2 ^ 1024 - 2 ^ 970 ->
              exists num,
                parseInt10 ds = Finite num
                /\ pick i (partLabel i (Mobile.promoteSectionName p))
                   = Some (mkNamedPart (trim (name d)) i num)).
    { intros Hlt. apply Hfin in Hlt. rewrite Hpick.
      destruct (parseInt10 ds) as [num| |]; try discriminate.
      exists num. split; reflexivity. }
    assert (Hbig : 2 ^ 1024 - 2 ^ 970 <= digitsValue ds ->
              pick i (partLabel i (Mobile.promoteSectionName p)) = None).
    { intros Hge. rewrite Hpick.
      destruct (parseInt10 ds) as [num| |] eqn:E; try reflexivity.
      exfalso. assert (Hlt : digitsValue ds < 2 ^ 1024 - 2 ^ 970)
        by (apply Hfin; reflexivity). lia. }
    exists ds. split; [exact Hds|]. split; [exact Hsmall|]. split; [exact Hbig|].
    intros names Hnth. split.
    + intros (q & Hq & Hi). apply parseNamedParts_In in Hq.
      destruct Hq as (nm & Hnm & Hpk). rewrite Hi, Hnth in Hnm.
      injection Hnm as <-. rewrite Hi in Hpk.
      destruct (Z.lt_ge_cases (digitsValue ds) (2 ^ 1024 - 2 ^ 970)) as [Hlt|Hge];
        [exact Hlt|]. rewrite (Hbig Hge) in Hpk. discriminate.
    + intros Hlt. destruct (Hsmall Hlt) as (num & _ & Hpk).
      exists (mkNamedPart (trim (name d)) i num). split; [|reflexivity].
      apply parseNamedParts_In. simpl.
      exists (partLabel i (Mobile.promoteSectionName p)). auto.
  - destruct Hp as (pre & d & post & _ & _ & Hd & _ & ->).
    apply rx_test_trim. exact Hd.
  - exact Hdesk.
  - unfold pick. unfold rx_test in Hdesk.
    destruct (rx_exec (trim (partLabel i p))); [discriminate | reflexivity].
  - intros g root0 s shown Hg Hs root. unfold Mobile.loadGLB, Viewer.loadGLB.
    rewrite Hs, Hg. split; reflexivity.
Qed.

Lemma C9_section_name_promotion_witness :
  let inner := mkObj (str " sec 4 ") true true NoMaterial None [] in
  let p := mkObj (str "Group") true false NoMaterial None [inner] in
  name (Mobile.promoteSectionName p) = str "sec 4"
  /\ pick 0 (partLabel 0 (Mobile.promoteSectionName p))
     = Some (mkNamedPart (str "sec 4") 0 4)
  /\ rx_test (trim (partLabel 0 (Mobile.promoteSectionName p))) = true
  /\ rx_test (trim (partLabel 0 p)) = false.
Proof.
  intros inner p.
  assert (H1 : rx_test (trim (name p)) = false) by (vm_compute; reflexivity).
  assert (H2 : exists d, In d (traverse p) /\ rx_test (trim (name d)) = true).
  { exists inner. split; [right; left; reflexivity | vm_compute; reflexivity]. }
  destruct (C9_section_name_promotion p 0%nat H1 H2) as (_ & Ha & Hb & _).
  split; [vm_compute; reflexivity|]. split; [vm_compute; reflexivity|].
  split; [exact Ha | exact Hb].
Defined.

(** C9 fails as stated: a part named "Group" over a node named "sec "
    followed by 1 and 309 zeros is renamed after the node, and the new name
    matches the section pattern, yet the part is not recognized as a named
    section, because the number overflows to [Infinity] and
    [parseNamedParts] keeps finite numbers only. *)
Lemma C9_counterexample :
  let big := (str "sec " ++ 49%N :: repeat 48%N 309)%list in
  let inner := mkObj big true true NoMaterial None [] in
  let p := mkObj (str "Group") true false NoMaterial None [inner] in
  rx_test (trim (name p)) = false
  /\ In inner (traverse p) /\ rx_test (trim (name inner)) = true
  /\ name (Mobile.promoteSectionName p) = big
  /\ partLabel 0 (Mobile.promoteSectionName p) = big
  /\ rx_test (trim (partLabel 0 (Mobile.promoteSectionName p))) = true
  /\ pick 0 (partLabel 0 (Mobile.promoteSectionName p)) = None
  /\ parseNamedParts [partLabel 0 (Mobile.promoteSectionName p)] = [].
Proof.
  intros big inner p.
  split; [vm_compute; reflexivity|].
  split; [right; left; reflexivity|].
  split; [vm_compute; reflexivity|].
  split; [vm_compute; reflexivity|].
  split; [vm_compute; reflexivity|].
  split; [vm_compute; reflexivity|].
  split; vm_compute; reflexivity.
Qed.

(* ===================================================================== *)
(** * Scene-graph lemmas *)
(* ===================================================================== *)

Section SceneGraph.

Lemma Object3D_forall_ind (P : Object3D -> Prop) :
  (forall n v m mat b ch, Forall P ch -> P (mkObj n v m mat b ch)) ->
  forall o, P o.
Proof.
  intros H.
  refine (fix IH (o : Object3D) : P o :=
            match o with
            | mkObj n v m mat b ch =>
                H n v m mat b ch
                  ((fix go (l : list Object3D) : Forall P l :=
                      match l with
                      | [] => @List.Forall_nil _ P
                      | c :: l' => @List.Forall_cons _ P c l' (IH c) (go l')
                      end) ch)
            end).
Qed.

Lemma traverse_unfold (o : Object3D) :
  traverse o = o :: List.flat_map traverse (children o).
Proof.
  destruct o as [n v m mat b ch]. reflexivity.
Qed.

Lemma forMeshMaterials_children (f : Material -> Material) (o : Object3D) :
  children (forMeshMaterials f o) = List.map (forMeshMaterials f) (children o).
Proof.
  destruct o as [n v m mat b ch]. simpl.
  induction ch as [|c ch IH]; simpl; [reflexivity|]. rewrite IH. reflexivity.
Qed.

Lemma forMeshMaterials_traverse (f : Material -> Material) (o : Object3D) :
  traverse (forMeshMaterials f o) = List.map (forMeshMaterials f) (traverse o).
Proof.
  induction o as [n v m mat b ch IH] using Object3D_forall_ind.
  rewrite (traverse_unfold (mkObj n v m mat b ch)), traverse_unfold.
  rewrite forMeshMaterials_children. simpl. f_equal.
  induction IH as [|c ch Hc _ IHch]; simpl; [reflexivity|].
  rewrite List.map_app, Hc, IHch. reflexivity.
Qed.

Lemma forMeshMaterials_node (f : Material -> Material) (o : Object3D) :
  name (forMeshMaterials f o) = name o
  /\ visible (forMeshMaterials f o) = visible o
  /\ isMesh (forMeshMaterials f o) = isMesh o
  /\ geomBox (forMeshMaterials f o) = geomBox o
  /\ material (forMeshMaterials f o)
     = (if isMesh o then mapSlot f (material o) else material o).
Proof. destruct o. simpl. auto. Qed.

Lemma slotMaterials_mapSlot (f : Material -> Material) (m : MaterialSlot) :
  slotMaterials (mapSlot f m) = List.map f (slotMaterials m).
Proof. destruct m; reflexivity. Qed.

(** The mesh loop rewrites each visited material by [f], and nothing else. *)
Lemma meshMaterials_forMesh (f : Material -> Material) (o : Object3D) :
  meshMaterials (forMeshMaterials f o) = List.map f (meshMaterials o).
Proof.
  unfold meshMaterials. rewrite forMeshMaterials_traverse.
  induction (traverse o) as [|n l IH]; simpl; [reflexivity|].
  rewrite List.map_app, IH. f_equal.
  destruct (forMeshMaterials_node f n) as (_ & _ & Hm & _ & Hmat).
  rewrite Hm, Hmat. destruct (isMesh n); [apply slotMaterials_mapSlot | reflexivity].
Qed.

Lemma meshMaterials_setVisible (v : bool) (o : Object3D) :
  meshMaterials (setVisible v o) = meshMaterials o.
Proof.
  unfold meshMaterials. rewrite (traverse_unfold (setVisible v o)), (traverse_unfold o).
  destruct o; reflexivity.
Qed.

Lemma isolated_part (keep : bool) (dim : Double.t) (p : Object3D) :
  let p' := forMeshMaterials (isolateMaterial keep dim) (setVisible true p) in
  visible p' = true
  /\ name p' = name p
  /\ meshMaterials p' = List.map (isolateMaterial keep dim) (meshMaterials p).
Proof.
  intros p'. unfold p'.
  destruct (forMeshMaterials_node (isolateMaterial keep dim) (setVisible true p))
    as (Hn & Hv & _).
  rewrite Hn, Hv, meshMaterials_forMesh, meshMaterials_setVisible.
  destruct p; auto.
Qed.

Lemma imap_lookup_Some {A B} (f : nat -> A -> B) (l : list A) (i : nat) (x : A) :
  l !! i = Some x -> imap f l !! i = Some (f i x).
Proof. intros H. rewrite list_lookup_imap, H. reflexivity. Qed.

(** When no child of the root contains a mesh, the only mesh that a
    traversal of the root can meet is the root itself: this is the case the
    fallback of [gatherParts] handles. *)
Lemma fallback_mesh_is_root (root o : Object3D) :
  List.filter hasMesh (children root) = [] ->
  In o (traverse root) -> isMesh o = true -> o = root.
Proof.
  intros Hnone Hin Hmesh. rewrite traverse_unfold in Hin.
  destruct Hin as [->|Hin]; [reflexivity|]. exfalso.
  apply in_flat_map in Hin. destruct Hin as (c & Hc & Ho).
  assert (Hm : hasMesh c = true).
  { unfold hasMesh. apply existsb_exists. exists o. auto. }
  assert (Hf : In c (List.filter hasMesh (children root)))
    by (apply filter_In; auto).
  rewrite Hnone in Hf. exact Hf.
Qed.

End SceneGraph.


Section Isolation.

Lemma imap_imap {A B C} (f : nat -> B -> C) (g : nat -> A -> B) (l : list A) :
  imap f (imap g l) = imap (fun i x => f i (g i x)) l.
Proof.
  revert f g. induction l as [|x l IH]; intros f g; [reflexivity|].
  rewrite !imap_cons. f_equal. apply IH.
Qed.

Lemma map_imap_list {A B C} (h : B -> C) (g : nat -> A -> B) (l : list A) :
  List.map h (imap g l) = imap (fun i x => h (g i x)) l.
Proof.
  revert g. induction l as [|x l IH]; intros g; [reflexivity|].
  rewrite !imap_cons. simpl. f_equal. apply IH.
Qed.

Lemma imap_as_map {A B} (h : A -> B) (l : list A) :
  imap (fun _ x => h x) l = List.map h l.
Proof.
  induction l as [|x l IH]; [reflexivity|].
  rewrite imap_cons. simpl. f_equal. exact IH.
Qed.

Lemma isolateMaterial_base (keep : bool) (dim : Double.t) (m : Material) :
  savedBase (isolateMaterial keep dim m) = savedBase m.
Proof. reflexivity. Qed.

Lemma isolateMaterial_opacity (keep : bool) (dim : Double.t) (m : Material) :
  opacity (isolateMaterial keep dim m)
  = if keep then Double.max (98 # 100) (savedBase m) else dim.
Proof. reflexivity. Qed.

Lemma isolatePart_opacities (index : option Z) (d : Double.t)
    (ps : list Object3D) :
  imap (fun _ p => partOpacities p) (isolatePart index d ps)
  = imap (fun i p =>
            List.map (fun m => if isKept index i
                               then Double.max (98 # 100) (savedBase m)
                               else clampDim d) (meshMaterials p)) ps.
Proof.
  unfold isolatePart. rewrite imap_imap. apply imap_ext. intros i p _.
  cbv beta. unfold partOpacities.
  destruct (isolated_part (isKept index i) (clampDim d) p) as (_ & _ & ->).
  rewrite List.map_map. reflexivity.
Qed.

Lemma isolatePart_bases (index : option Z) (d : Double.t) (ps : list Object3D) :
  List.map partBases (isolatePart index d ps) = List.map partBases ps.
Proof.
  unfold isolatePart. rewrite map_imap_list, <- imap_as_map.
  apply imap_ext. intros i p _. cbv beta. unfold partBases.
  destruct (isolated_part (isKept index i) (clampDim d) p) as (_ & _ & ->).
  rewrite List.map_map. reflexivity.
Qed.

Lemma isolatePart_visible (index : option Z) (d : Double.t) (ps : list Object3D) :
  List.map visible (isolatePart index d ps) = List.map (fun _ => true) ps.
Proof.
  unfold isolatePart. rewrite map_imap_list, <- imap_as_map.
  apply imap_ext. intros i p _. cbv beta.
  destruct (isolated_part (isKept index i) (clampDim d) p) as (-> & _). reflexivity.
Qed.

(** The dim level: the argument clamped to [0.08, 0.5] when it is a number,
    an infinity counting as beyond the bound, and NaN when it is NaN. *)
Lemma clampDim_finite (x : Q) :
  clampDim x = Double.Finite (Qmax (8 # 100) (Qmin (1 # 2) x)).
Proof. reflexivity. Qed.

Lemma clampDim_range (d : Double.t) :
  d <> Double.NaN ->
  exists q : Q, clampDim d = Double.Finite q /\ (8 # 100 <= q <= 1 # 2)%Q.
Proof.
  intros Hd. destruct d as [x| | |].
  - exists (Qmax (8 # 100) (Qmin (1 # 2) x)). split; [reflexivity|]. split.
    + apply Q.le_max_l.
    + apply Q.max_lub; [discriminate|]. apply Q.le_min_l.
  - exists (1 # 2)%Q. split; [reflexivity|]. split; discriminate.
  - exists (8 # 100)%Q. split; [reflexivity|]. split; discriminate.
  - congruence.
Qed.

Lemma clampDim_NaN (d : Double.t) : clampDim d = Double.NaN <-> d = Double.NaN.
Proof.
  split; [|intros ->; reflexivity].
  destruct d; [discriminate| discriminate | discriminate | reflexivity].
Qed.

Lemma floor_keeps_opaque (base : Q) :
  (Qmax (98 # 100) base == base <-> 98 # 100 <= base)%Q.
Proof.
  split.
  - intros H. rewrite <- H. apply Q.le_max_l.
  - intros H. apply Q.max_r. exact H.
Qed.

Lemma floor_finite (base : Q) :
  Double.max (98 # 100) base = Double.Finite (Qmax (98 # 100) base).
Proof. reflexivity. Qed.

End Isolation.

(** C6 (as amended).  [Isolate(index, dimOpacity)] makes every part visible:
    the flag of a visible part is unchanged and a hidden part is shown again.
    For a non-null [index] every material of every part other than [index]
    gets the dim level [Math.max(0.08, Math.min(0.5, dimOpacity))]: for every
    [dimOpacity] that is a number this is [dimOpacity] clamped to
    [0.08, 0.5], which is 0.5 for [Infinity] and 0.08 for [-Infinity], and
    for NaN it is NaN.  The materials of part [index] go back to their recorded opacity
    floored at 0.98; for a null [index] no part is dimmed and all of them go
    back.  Nothing but the parts changes. *)
Theorem C6_isolate_effect (v : Variant) (index : option Z)
    (dimOpacity : option Double.t) (s : State) :
  let s' := isolateIndex v index dimOpacity s in
  let d := default (defaultDim v) dimOpacity in
  List.map visible (parts (asset s')) = List.map (fun _ => true) (parts (asset s))
  /\ imap (fun _ p => partOpacities p) (parts (asset s'))
     = imap (fun i p =>
               List.map (fun m => if isKept index i
                                  then Double.max (98 # 100) (savedBase m)
                                  else clampDim d) (meshMaterials p))
         (parts (asset s))
  /\ (d <> Double.NaN ->
      exists q : Q, clampDim d = Double.Finite q /\ (8 # 100 <= q <= 1 # 2)%Q)
  /\ (forall x : Q,
        d = Double.Finite x ->
        clampDim d = Double.Finite (Qmax (8 # 100) (Qmin (1 # 2) x)))
  /\ (d = Double.NaN -> clampDim d = Double.NaN)
  /\ (d = Double.PosInfinity -> clampDim d = Double.Finite (1 # 2))
  /\ (d = Double.NegInfinity -> clampDim d = Double.Finite (8 # 100))
  /\ (forall i : nat, isKept index i = false <-> exists j, index = Some j /\ Z.of_nat i <> j)
  /\ rig s' = rig s /\ anim s' = anim s /\ zoom s' = zoom s
  /\ partNames (asset s') = partNames (asset s)
  /\ currentModel (asset s') = currentModel (asset s).
Proof.
  intros s' d. unfold s', isolateIndex, with_asset, with_parts. simpl. fold d.
  split; [apply isolatePart_visible|].
  split; [apply isolatePart_opacities|].
  split; [apply clampDim_range|].
  split; [intros x ->; reflexivity|].
  split; [intros ->; reflexivity|].
  split; [intros ->; reflexivity|].
  split; [intros ->; reflexivity|].
  split; [|auto 6].
  intros i. destruct index as [j|]; simpl.
  - rewrite Z.eqb_neq. split; [eauto|]. intros (j' & E & H). congruence.
  - split; [discriminate|]. intros (j & E & _). discriminate.
Qed.


Lemma isolatePart_restore (d : Double.t) (ps : list Object3D) :
  List.map partOpacities (isolatePart None d ps)
  = List.map (fun p => List.map (Double.max (98 # 100)) (partBases p)) ps.
Proof.
  rewrite <- !imap_as_map, isolatePart_opacities. apply imap_ext.
  intros i p _. cbv beta. unfold partBases. rewrite List.map_map. reflexivity.
Qed.

(** C2 (as amended).  [Isolate(null)], [Isolate(i, d)], [Isolate(null)] leaves
    every material of every part at its recorded base opacity floored at
    0.98, that is at [max(0.98, baseOpacity)]; this is the base opacity itself
    exactly when the base opacity is 0.98 or more.  The recorded base opacity
    is what [cloneMaterials] set at load time: the source opacity when above
    0.1, else 1. *)
Theorem C2_isolate_round_trip (v : Variant) (i : Z) (d0 d d1 : option Double.t)
    (s : State) :
  let s3 := isolateIndex v None d1
              (isolateIndex v (Some i) d (isolateIndex v None d0 s)) in
  List.map partOpacities (parts (asset s3))
  = List.map (fun p => List.map (Double.max (98 # 100)) (partBases p))
      (parts (asset s))
  /\ List.map partBases (parts (asset s3)) = List.map partBases (parts (asset s))
  /\ (forall base : Q,
        Double.max (98 # 100) base = Double.Finite (Qmax (98 # 100) base)
        /\ (Qmax (98 # 100) base == base <-> 98 # 100 <= base)%Q)
  /\ (forall m : Material,
        savedBase (wrap m) = opacity (wrap m)
        /\ savedBase (wrap m)
           = if Double.lt (1 # 10) (opacity m) then opacity m
             else Double.Finite 1).
Proof.
  intros s3. unfold s3, isolateIndex, with_asset, with_parts. simpl.
  split; [|split; [|split]].
  - rewrite isolatePart_restore.
    rewrite <- (List.map_map partBases (List.map (Double.max (98 # 100)))).
    rewrite !isolatePart_bases. rewrite List.map_map. reflexivity.
  - rewrite !isolatePart_bases. reflexivity.
  - intros base. split; [reflexivity | apply floor_keeps_opaque].
  - intros m. split; reflexivity.
Qed.

(** C2 fails as stated: the cover of the sample asset is loaded with base
    opacity 0.5 and is at 0.98 after the round trip. *)
Lemma C2_counterexample :
  let s3 := isolateIndex Desktop None None
              (isolateIndex Desktop (Some 1%Z) (Some (Double.Finite (22 # 100)))
                 (isolateIndex Desktop None None Sample.loaded)) in
  List.map partBases (parts (asset Sample.loaded))
  = [[Double.Finite 1]; [Double.Finite (1 # 2)]]
  /\ List.map partOpacities (parts (asset Sample.loaded))
     = [[Double.Finite 1]; [Double.Finite (1 # 2)]]
  /\ List.map partOpacities (parts (asset s3))
     = [[Double.Finite 1]; [Double.Finite (98 # 100)]]
  /\ ~ (98 # 100 == 1 # 2)%Q.
Proof.
  intros s3. split; [vm_compute; reflexivity|]. split; [vm_compute; reflexivity|].
  split; [vm_compute; reflexivity|]. intros H. vm_compute in H. discriminate.
Qed.

(** C6 fails as stated: a part hidden by the visibility mask is shown again
    by [Isolate], with a null index no part is dimmed, and with NaN as dim
    opacity the other parts are put at opacity NaN, which is no value of
    [0.08, 0.5]. *)
Lemma C6_counterexample :
  let hidden := setVisibleIndices (Some [0%Z]) Sample.loaded in
  List.map visible (parts (asset hidden)) = [true; false]
  /\ List.map visible
       (parts (asset (isolateIndex Desktop (Some 0%Z)
                        (Some (Double.Finite (22 # 100))) hidden)))
     = [true; true]
  /\ List.map partOpacities
       (parts (asset (isolateIndex Desktop None
                        (Some (Double.Finite (22 # 100))) Sample.loaded)))
     = [[Double.Finite 1]; [Double.Finite (98 # 100)]]
  /\ clampDim (22 # 100) = Double.Finite (22 # 100)
  /\ List.map partOpacities
       (parts (asset (isolateIndex Desktop (Some 0%Z) (Some Double.NaN)
                        Sample.loaded)))
     = [[Double.Finite 1]; [Double.NaN]].
Proof.
  intros hidden. repeat split; vm_compute; reflexivity.
Qed.

(* ===================================================================== *)
(** * Loading *)
(* ===================================================================== *)

(** C1 (as amended).  When [loadGLB] is called on a viewer that has a scene
    and the new source holds no usable scene root, the load rejects and the
    previous asset is gone: it was torn down before the loader ran.  The part
    list, the part names and the animation clip table are empty, there is no
    current model and no asset is left in the scene.  This holds for the
    desktop and for the mobile build. *)
Theorem C1_failed_load (g : GLTF) (s : State) (shown : option Object3D) :
  scene (rig s) = Some shown -> gltfRoot g = None ->
  (let s' := fst (Viewer.loadGLB (LoadOk g) s) in
   snd (Viewer.loadGLB (LoadOk g) s) = Rejected
   /\ parts (asset s') = [] /\ partNames (asset s') = []
   /\ mixer (anim s') = false /\ actions (anim s') = ∅
   /\ clipNames (anim s') = [] /\ clipDurations (anim s') = ∅
   /\ currentModel (asset s') = None
   /\ scene (rig s') = Some (match currentModel (asset s) with
                             | Some _ => None
                             | None => shown
                             end))
  /\ (let s' := fst (Mobile.loadGLB (LoadOk g) s) in
      snd (Mobile.loadGLB (LoadOk g) s) = Rejected
      /\ parts (asset s') = [] /\ partNames (asset s') = []
      /\ mixer (anim s') = false /\ actions (anim s') = ∅
      /\ clipNames (anim s') = [] /\ clipDurations (anim s') = ∅
      /\ currentModel (asset s') = None /\ pivot (asset s') = None
      /\ scene (rig s') = Some (match pivot (asset s) with
                                | Some _ => None
                                | None => shown
                                end)).
Proof.
  intros Hs Hg. unfold Viewer.loadGLB, Mobile.loadGLB. rewrite Hs, Hg. simpl.
  repeat split; reflexivity.
Qed.

Lemma C1_failed_load_witness :
  let s' := fst (Viewer.loadGLB (LoadOk Sample.noSceneGLTF) Sample.loaded) in
  snd (Viewer.loadGLB (LoadOk Sample.noSceneGLTF) Sample.loaded) = Rejected
  /\ parts (asset s') = [] /\ scene (rig s') = Some None.
Proof.
  assert (Hs : scene (rig Sample.loaded) = Some (currentModel (asset Sample.loaded)))
    by reflexivity.
  assert (Hg : gltfRoot Sample.noSceneGLTF = None) by reflexivity.
  destruct (C1_failed_load Sample.noSceneGLTF Sample.loaded _ Hs Hg)
    as [(Hr & Hp & _ & _ & _ & _ & _ & _ & Hsc) _].
  split; [exact Hr|]. split; [exact Hp|]. exact Hsc.
Defined.

(** C1 fails as stated: after a failed load on the sample asset the two
    parts, their names, the clip and the displayed model are gone, in both
    builds. *)
Lemma C1_counterexample :
  let before := Sample.loaded in
  let after := fst (Viewer.loadGLB (LoadOk Sample.noSceneGLTF) before) in
  let beforeM := Sample.loadedMobile in
  let afterM := fst (Mobile.loadGLB (LoadOk Sample.noSceneGLTF) beforeM) in
  snd (Viewer.loadGLB (LoadOk Sample.noSceneGLTF) before) = Rejected
  /\ partNames (asset before) = [str "sec 1"; str "Cover"]
  /\ partNames (asset after) = []
  /\ length (parts (asset before)) = 2%nat /\ parts (asset after) = []
  /\ clipNames (anim before) = [str "Explode"] /\ clipNames (anim after) = []
  /\ scene (rig before) = Some (currentModel (asset before))
  /\ currentModel (asset before) <> None
  /\ scene (rig after) = Some None /\ currentModel (asset after) = None
  /\ snd (Mobile.loadGLB (LoadOk Sample.noSceneGLTF) beforeM) = Rejected
  /\ partNames (asset beforeM) = [str "sec 1"; str "Cover"]
  /\ partNames (asset afterM) = []
  /\ scene (rig afterM) = Some None.
Proof.
  intros before after beforeM afterM.
  repeat split; try (vm_compute; reflexivity). vm_compute. discriminate.
Qed.

(* ===================================================================== *)
(** * Orbit target *)
(* ===================================================================== *)

(** C10 (as amended).  [setOrbitTargetTo] never raises on an integer or null
    index.  On a viewer without orbit controls (disposed) it changes nothing.
    Otherwise it sets the desired orbit target to the asset centroid when the
    index is null, negative or at least the number of parts, and to the
    center of the world bounding box of the part when the index is in range;
    no other state changes. *)
Theorem C10_orbit_target (index : option Z) (s : State) :
  let ps := parts (asset s) in
  let inRange := match index with
                 | Some i => (0 <=? i) && (i <? Z.of_nat (length ps))
                 | None => false
                 end in
  let goal := match index with
              | Some i =>
                  match nth_error ps (Z.to_nat i) with
                  | Some p => if inRange then getCenter (setFromObject p)
                              else centroid (asset s)
                  | None => centroid (asset s)
                  end
              | None => centroid (asset s)
              end in
  (exists s', setOrbitTargetTo index s = Some s'
     /\ target_desired (rig s')
        = (if controls (rig s) then goal else target_desired (rig s))
     /\ scene (rig s') = scene (rig s) /\ camera (rig s') = camera (rig s)
     /\ controls (rig s') = controls (rig s)
     /\ asset s' = asset s /\ anim s' = anim s /\ zoom s' = zoom s)
  /\ (inRange = true <-> exists i, index = Some i /\ 0 <= i < Z.of_nat (length ps))
  /\ (inRange = true <->
      exists i p, index = Some i /\ 0 <= i /\ nth_error ps (Z.to_nat i) = Some p).
Proof.
  intros ps inRange goal. split; [|split].
  - unfold setOrbitTargetTo. fold ps.
    destruct (controls (rig s)) eqn:Hc; simpl.
    2:{ exists s. rewrite Hc. auto 10. }
    destruct index as [i|]; simpl in *.
    2:{ eexists. split; [reflexivity|]. simpl. auto 10. }
    unfold goal, inRange. unfold getPartWorldCenter.
    destruct (Z.ltb_spec i 0) as [Hneg|Hpos]; simpl.
    { eexists. split; [reflexivity|]. simpl.
      destruct (Z.leb_spec 0 i); [lia|]. simpl.
      destruct (nth_error ps (Z.to_nat i)); auto 10. }
    destruct (Z.leb_spec (Z.of_nat (length ps)) i) as [Hge|Hlt]; simpl.
    { eexists. split; [reflexivity|]. simpl.
      destruct (Z.ltb_spec i (Z.of_nat (length ps))); [lia|].
      rewrite andb_false_r. destruct (nth_error ps (Z.to_nat i)); auto 10. }
    destruct (nth_error ps (Z.to_nat i)) as [p|] eqn:Hp.
    + eexists. split; [reflexivity|]. simpl.
      destruct (Z.leb_spec 0 i); [|lia].
      destruct (Z.ltb_spec i (Z.of_nat (length ps))); [|lia]. simpl. auto 10.
    + apply nth_error_None in Hp. lia.
  - unfold inRange. destruct index as [i|].
    + rewrite andb_true_iff, Z.leb_le, Z.ltb_lt. split; [eauto|].
      intros (j & E & H). injection E as ->. exact H.
    + split; [discriminate|]. intros (j & E & _). discriminate.
  - unfold inRange. destruct index as [i|].
    + rewrite andb_true_iff, Z.leb_le, Z.ltb_lt. split.
      * intros [H0 H1].
        destruct (nth_error ps (Z.to_nat i)) as [p|] eqn:Hp; [eauto 6|].
        apply nth_error_None in Hp. lia.
      * intros (j & p & E & H0 & Hp). injection E as ->.
        split; [exact H0|].
        assert (Z.to_nat j < length ps)%nat
          by (apply nth_error_Some; rewrite Hp; discriminate).
        lia.
    + split; [discriminate|]. intros (j & p & E & _). discriminate.
Qed.

(** C10 fails as stated: on a disposed viewer a null index leaves the desired
    orbit target where it was, away from the centroid. *)
Lemma C10_counterexample :
  exists focused,
    setOrbitTargetTo (Some 1%Z) Sample.loaded = Some focused
    /\ let gone := dispose focused in
       setOrbitTargetTo None gone = Some gone
       /\ target_desired (rig gone) = ((6 # 2)%Q, (1 # 2)%Q, (1 # 2)%Q)
       /\ centroid (asset gone) = ((4 # 2)%Q, (1 # 2)%Q, (1 # 2)%Q)
       /\ ~ (6 # 2 == 4 # 2)%Q.
Proof.
  eexists. split; [vm_compute; reflexivity|]. simpl.
  split; [reflexivity|]. split; [vm_compute; reflexivity|].
  split; [vm_compute; reflexivity|]. intros H. vm_compute in H. discriminate.
Qed.

(* ===================================================================== *)
(** * Wheel events *)
(* ===================================================================== *)



Section WheelCooldown.

Lemma mounted_invariant (t0 s : Z) : cooldownInvariant (mounted t0 s).
Proof. left. repeat split. constructor. Qed.

Lemma onWheel_invariant (total now : Z) (e : WheelEvent) (a : AppState) :
  clock a <= now -> cooldownInvariant a -> cooldownInvariant (onWheel total now e a).
Proof.
  intros Hnow Hinv. unfold onWheel.
  assert (Hsame : forall dr, cooldownInvariant
            (mkApp (stage a) (wheelCooldown a) (timeouts a) dr now (accepted a))).
  { intros dr. destruct Hinv as [(Hc & Ht & Hacc)|(Hc & t0 & rest & Ea & Et & Ht0 & Hr)].
    - left. simpl. repeat split; try assumption.
      eapply Forall_impl; [exact Hacc|]. simpl. intros; lia.
    - right. simpl. split; [assumption|]. exists t0, rest.
      repeat split; try assumption. lia. }
  destruct (ctrlKey e || metaKey e); [apply Hsame|].
  destruct (wheelCooldown a) eqn:Hc; [apply Hsame|].
  destruct (Qlt_le_dec (Qabs (deltaY e)) 30); [apply Hsame|].
  destruct Hinv as [(_ & Ht & Hacc)|(Hc' & _)]; [|congruence].
  right. simpl. split; [reflexivity|]. exists now, (accepted a). rewrite Ht.
  repeat split; try lia.
  eapply Forall_impl; [exact Hacc|]. simpl. intros; lia.
Qed.

Lemma deliver_invariant (total now : Z) (i : Input) (a a' : AppState) :
  deliver total now i a = Some a' ->
  cooldownInvariant a -> cooldownInvariant a' /\ clock a <= clock a'.
Proof.
  unfold deliver. destruct (Z.ltb_spec now (clock a)) as [|Hnow]; [discriminate|].
  destruct i as [e|].
  - intros H Hinv. injection H as <-. split; [apply onWheel_invariant; assumption|].
    unfold onWheel.
    destruct (ctrlKey e || metaKey e), (wheelCooldown a),
      (Qlt_le_dec (Qabs (deltaY e)) 30); simpl; lia.
  - destruct (timeouts a) as [|due rest] eqn:Et; [discriminate|].
    destruct (Z.leb_spec due now) as [Hdue|]; [|discriminate].
    intros H Hinv. injection H as <-. simpl. split; [|lia].
    destruct Hinv as [(_ & Ht & _)|(_ & t0 & rest' & Ea & Et' & Ht0 & Hr)];
      [congruence|].
    rewrite Et in Et'. injection Et' as -> ->.
    left. simpl. repeat split. rewrite Ea. constructor; [lia|].
    eapply Forall_impl; [exact Hr|]. simpl. intros; lia.
Qed.

Lemma run_invariant (total : Z) (tr : list (Z * Input)) :
  forall a a', run total tr a = Some a' -> cooldownInvariant a -> cooldownInvariant a'.
Proof.
  induction tr as [|[now i] tr IH]; intros a a' H Hinv; simpl in H.
  - injection H as <-. exact Hinv.
  - destruct (deliver total now i a) as [a1|] eqn:E; [|discriminate].
    apply (IH _ _ H). eapply deliver_invariant; eassumption.
Qed.

End WheelCooldown.

(** C8.  After any history of wheel events and timer callbacks, a wheel event
    without modifier key leaves the stage as it is unless its magnitude is at
    least 30 and every accepted wheel event lies at least 260 ms back; when
    it is accepted, a positive [deltaY] moves to the next stage and any other
    to the previous one.  An event that arrives less than 260 ms after an
    accepted one is ignored whatever its [deltaY]; so is one of [deltaY] 50
    that comes 100 ms after. *)
Theorem C8_wheel_cooldown (total t0 s0 : Z) (tr : list (Z * Input))
    (a : AppState) (now : Z) (e : WheelEvent) :
  run total tr (mounted t0 s0) = Some a ->
  clock a <= now ->
  ctrlKey e = false -> metaKey e = false ->
  let a' := onWheel total now e a in
  (stage a' = stage a
   \/ ((30 <= Qabs (deltaY e))%Q
       /\ Forall (fun t => t + 260 <= now) (accepted a)
       /\ stage a' = (if Qlt_le_dec 0 (deltaY e) then nextStage total (stage a)
                      else prevStage total (stage a))))
  /\ (forall t, In t (accepted a) -> now < t + 260 ->
        stage a' = stage a /\ wheelCooldown a' = true /\ accepted a' = accepted a)
  /\ (forall t, In t (accepted a) -> now = t + 100 -> deltaY e = 50%Q ->
        stage a' = stage a).
Proof.
  intros Hrun Hnow Hctrl Hmeta a'.
  pose proof (run_invariant _ _ _ _ Hrun (mounted_invariant t0 s0)) as Hinv.
  assert (Hrecent : forall t, In t (accepted a) -> now < t + 260 ->
            stage a' = stage a /\ wheelCooldown a' = true /\ accepted a' = accepted a).
  { intros t Hin Hlt. unfold a', onWheel. rewrite Hctrl, Hmeta. simpl.
    destruct Hinv as [(_ & _ & Hacc)|(Hc & _)].
    - rewrite List.Forall_forall in Hacc. specialize (Hacc _ Hin). lia.
    - rewrite Hc. simpl. auto. }
  split; [|split].
  - unfold a', onWheel. rewrite Hctrl, Hmeta. simpl.
    destruct (wheelCooldown a) eqn:Hc; [left; reflexivity|].
    destruct (Qlt_le_dec (Qabs (deltaY e)) 30) as [|Hbig]; [left; reflexivity|].
    right. simpl. split; [exact Hbig|]. split; [|reflexivity].
    destruct Hinv as [(_ & _ & Hacc)|(Hc' & _)]; [|congruence].
    eapply Forall_impl; [exact Hacc|]. simpl. intros; lia.
  - exact Hrecent.
  - intros t Hin -> _. apply (Hrecent t Hin). lia.
Qed.

Lemma C8_wheel_cooldown_witness :
  let first := mkWheel 50 false false in
  let tr := [(1000, Wheel first)] in
  exists a, run 4 tr (mounted 0 0) = Some a
    /\ stage a = 1 /\ accepted a = [1000]
    /\ stage (onWheel 4 1100 (mkWheel 50 false false) a) = stage a.
Proof.
  intros first tr. eexists. split; [reflexivity|].
  split; [reflexivity|]. split; [reflexivity|].
  refine (proj2 (proj2 (C8_wheel_cooldown 4 0 0 tr _ 1100 (mkWheel 50 false false)
                          eq_refl _ eq_refl eq_refl)) 1000 _ eq_refl eq_refl).
  - simpl. lia.
  - left. reflexivity.
Defined.

(* ===================================================================== *)
(** * Explosion controller *)
(* ===================================================================== *)



Section Explode.
Local Open Scope Q_scope.

Lemma updateAction_paused (dt : Q) (a : Action) :
  paused a = true -> updateAction dt a = a.
Proof.
  intros Hp. unfold updateAction. rewrite Hp.
  destruct (negb (scheduled a) || negb (enabled a)); [reflexivity|].
  assert (E : Qeq_bool (dt * 0) 0 = true) by (apply Qeq_bool_iff; ring).
  rewrite E. reflexivity.
Qed.

Lemma updateAction_duration (dt : Q) (a : Action) :
  clipDuration (updateAction dt a) = clipDuration a.
Proof.
  unfold updateAction.
  destruct (negb (scheduled a) || negb (enabled a)); [reflexivity|].
  destruct (Qeq_bool _ 0); [reflexivity|].
  destruct (Qle_bool (clipDuration a) _); [reflexivity|].
  destruct (Qle_bool 0 _); reflexivity.
Qed.








(** What [loadGLB] registers satisfies [animOk]. *)
Lemma addClips_ok (clips : list Clip) :
  forall (i : nat) (a : Anim),
    Forall (fun c => 0 <= clip_duration c) clips -> animOk a ->
    animOk (addClips i clips a).
Proof.
  induction clips as [|c clips IH]; intros i a Hc Ha; simpl; [exact Ha|].
  inversion Hc as [|? ? Hd Hrest]; subst. apply IH; [exact Hrest|].
  generalize (clipKey i c) as key. intros key.
  destruct Ha as [Hs Ha]. split; [exact Hs|]. simpl.
  intros nm act Hact.
  destruct (decide (nm = key)) as [->|Hne].
  - rewrite lookup_insert_eq in Hact. injection Hact as <-.
    rewrite lookup_insert_eq. simpl. auto.
  - rewrite lookup_insert_ne in Hact by congruence.
    rewrite lookup_insert_ne by congruence. apply (Ha _ _ Hact).
Qed.

Lemma loadAnimations_ok (clips : list Clip) (a : Anim) :
  Forall (fun c => 0 <= clip_duration c) clips -> 0 <= playbackSpeed a ->
  animOk (loadAnimations clips (clearedAnim a)).
Proof.
  intros Hc Hs. unfold loadAnimations.
  assert (H0 : forall m, animOk (mkAnim m ∅ [] ∅ (playbackSpeed a) Overview)).
  { intros m. split; [exact Hs | apply map_Forall_empty]. }
  destruct clips as [|c clips]; [apply H0|].
  set (a' := addClips 0 (c :: clips) _).
  assert (Ha' : animOk a') by (apply addClips_ok; [exact Hc | apply H0]).
  destruct Ha' as [Hs' Ha']. split; [exact Hs'|]. simpl.
  intros nm act Hact. unfold mixerUpdate in Hact. rewrite lookup_fmap in Hact.
  destruct (actions a' !! nm) as [b|] eqn:Eb; [|discriminate].
  simpl in Hact. injection Hact as <-. rewrite updateAction_duration.
  apply (Ha' _ _ Eb).
Qed.

Lemma addClips_keeps (clips : list Clip) :
  forall (i : nat) (a : Anim) (nm : list N),
    is_Some (actions a !! nm) -> is_Some (actions (addClips i clips a) !! nm).
Proof.
  induction clips as [|c clips IH]; intros i a nm H; simpl; [exact H|].
  apply IH. simpl. destruct (decide (nm = clipKey i c)) as [->|Hne].
  - rewrite lookup_insert_eq. eauto.
  - rewrite lookup_insert_ne by congruence. exact H.
Qed.

Lemma loadAnimations_nonempty (clips : list Clip) (a : Anim) :
  clips <> [] ->
  mixer (loadAnimations clips a) = true /\ actions (loadAnimations clips a) <> ∅.
Proof.
  destruct clips as [|c clips]; [congruence|]. intros _.
  unfold loadAnimations. split; [reflexivity|].
  cbn [actions]. intros E.
  apply (f_equal (fun m => m !! clipKey 0 c)) in E.
  unfold mixerUpdate in E. rewrite lookup_fmap, lookup_empty in E.
  cbn [addClips] in E.
  match type of E with
  | context [actions (addClips ?i ?cl ?b)] =>
      destruct (addClips_keeps cl i b (clipKey 0 c)) as [x Hx]
  end.
  - cbn [actions]. rewrite lookup_insert_eq. eauto.
  - rewrite Hx in E. discriminate.
Qed.

(** Every asset that comes with animation clips is in the states that C7
    speaks of. *)
Lemma loadGLB_with_clips (g : GLTF) (s : State) (shown : option Object3D)
    (root0 : Object3D) :
  scene (rig s) = Some shown -> gltfRoot g = Some root0 ->
  gltf_animations g <> [] ->
  Forall (fun c => 0 <= clip_duration c) (gltf_animations g) ->
  0 <= playbackSpeed (anim s) ->
  let s' := fst (Viewer.loadGLB (LoadOk g) s) in
  mixer (anim s') = true /\ actions (anim s') <> ∅ /\ animOk (anim s').
Proof.
  intros Hs Hg Hne Hd Hsp. unfold Viewer.loadGLB. rewrite Hs, Hg.
  cbv zeta. cbn [fst anim].
  destruct (loadAnimations_nonempty (gltf_animations g) (clearedAnim (anim s)) Hne)
    as [H1 H2].
  split; [exact H1|]. split; [exact H2|].
  apply loadAnimations_ok; assumption.
Qed.



End Explode.




(* ===================================================================== *)
(** * The handle after [dispose] *)
(* ===================================================================== *)

Section Disposed.

Lemma perform_disposed (v : Variant) (e : Event) (s : State) :
  perform v e (dispose s) = dispose s.
Proof. destruct e, v; reflexivity. Qed.

End Disposed.

(** X1.  A disposed viewer is inert: every call through the handle and every
    frame leaves the module state as [dispose] left it, a [loadGLB] on it
    resolves without loading anything, and no parts, names or animations are
    reported. *)
Theorem X1_disposed_inert (v : Variant) (s : State) (es : list Event) :
  performAll v es (dispose s) = dispose s
  /\ (forall src, loadGLBOf v src (dispose s) = (dispose s, Resolved))
  /\ partCount (dispose s) = 0%nat
  /\ getPartNames (dispose s) = []
  /\ getAnimations (dispose s) = [].
Proof.
  split; [|split; [|auto]].
  - induction es as [|e es IH]; [reflexivity|].
    unfold performAll in *. simpl. rewrite perform_disposed. exact IH.
  - intros src. destruct v; reflexivity.
Qed.

(* ===================================================================== *)
(** * Invariants of the handle *)
(* ===================================================================== *)

Section Invariants.
Local Open Scope Q_scope.

Lemma performAll_ind (v : Variant) (P : State -> Prop) (Q : Event -> Prop) :
  (forall e s, Q e -> P s -> P (perform v e s)) ->
  forall es s, Forall Q es -> P s -> P (performAll v es s).
Proof.
  intros Hstep es. induction es as [|e es IH]; intros s HQ Hs; [exact Hs|].
  inversion HQ as [|? ? He Hes]; subst.
  unfold performAll in *. simpl. apply IH; [exact Hes|]. apply Hstep; assumption.
Qed.

Lemma performAll_always (v : Variant) (P : State -> Prop) :
  (forall e s, P s -> P (perform v e s)) ->
  forall es s, P s -> P (performAll v es s).
Proof.
  intros Hstep es s Hs.
  apply (performAll_ind v P (fun _ => True)); auto.
  clear. induction es; constructor; auto.
Qed.

(** The steps that leave the asset alone. *)
Lemma perform_asset (v : Variant) (e : Event) (s : State) :
  match e with
  | LoadGLB _ | Dispose | IsolateIndex _ _ | SetVisibleIndices _ => True
  | _ => asset (perform v e s) = asset s
  end.
Proof.
  destruct e as [src| |t|i d|ix|index|nm found| |dt]; simpl; auto.
  - unfold setExplode.
    destruct (negb (mixer (anim s)) || (size (actions (anim s)) =? 0)%nat);
      [reflexivity|].
    destruct (Qle_bool (clamp01 t) 0); [reflexivity|].
    destruct (Qle_bool 1 (clamp01 t)); reflexivity.
  - unfold setOrbitTargetTo. destruct (negb (controls (rig s))); [reflexivity|].
    destruct index as [i|]; [|reflexivity].
    destruct ((i <? 0)%Z || (Z.of_nat (length (parts (asset s))) <=? i)%Z);
      [reflexivity|].
    destruct (getPartWorldCenter i (parts (asset s))); reflexivity.
  - unfold setOrbitTargetByName, getWorldPosByName.
    destruct (negb (controls (rig s))); [reflexivity|].
    destruct nm as [[|c n]|]; try reflexivity.
    destruct (scene (rig s)); [|reflexivity]. destruct found; reflexivity.
  - unfold resetView. destruct (negb (controls (rig s))); reflexivity.
  - unfold renderFrame. destruct (mixer (anim s)); reflexivity.
Qed.

Lemma imap_partLabel (g : nat -> Object3D -> Object3D) (ps : list Object3D) :
  (forall i p, name (g i p) = name p) ->
  imap partLabel (imap g ps) = imap partLabel ps.
Proof.
  intros H. rewrite imap_imap. apply imap_ext. intros i p _. cbv beta.
  unfold partLabel. rewrite H. reflexivity.
Qed.

Lemma isolatePart_labels (index : option Z) (d : Double.t) (ps : list Object3D) :
  imap partLabel (isolatePart index d ps) = imap partLabel ps.
Proof.
  apply imap_partLabel. intros i p.
  destruct (forMeshMaterials_node (isolateMaterial (isKept index i) (clampDim d))
              (setVisible true p)) as (-> & _).
  destruct p; reflexivity.
Qed.

Lemma applyVisibilityMask_labels (ix : option (list Z)) (ps : list Object3D) :
  imap partLabel (applyVisibilityMask ix ps) = imap partLabel ps.
Proof.
  apply imap_partLabel. intros i p. cbv zeta.
  match goal with
  | |- name (forMeshMaterials ?f ?o) = _ =>
      destruct (forMeshMaterials_node f o) as (-> & _)
  end.
  destruct p; reflexivity.
Qed.

Lemma loadGLBOf_names (v : Variant) (src : LoaderResult) (s : State) :
  namesOk (asset s) -> namesOk (asset (fst (loadGLBOf v src s))).
Proof.
  intros H. destruct v; simpl; unfold Viewer.loadGLB, Mobile.loadGLB;
    (destruct (scene (rig s)); [|exact H]);
    (destruct src as [g|]; [|reflexivity]);
    (destruct (gltfRoot g); reflexivity).
Qed.

Lemma perform_names (v : Variant) (e : Event) (s : State) :
  namesOk (asset s) -> namesOk (asset (perform v e s)).
Proof.
  intros H. pose proof (perform_asset v e s) as Hfr.
  destruct e; try (rewrite Hfr; exact H).
  - apply loadGLBOf_names. exact H.
  - reflexivity.
  - unfold namesOk in *. simpl. rewrite isolatePart_labels. exact H.
  - unfold namesOk in *. simpl. rewrite applyVisibilityMask_labels. exact H.
Qed.

Lemma initViewerOf_asset (v : Variant) (src : LoaderResult) :
  asset (fst (initViewerOf v src)) = asset (fst (loadGLBOf v src fresh)).
Proof.
  destruct v; simpl; unfold Viewer.initViewer, Mobile.initViewer.
  - destruct (Viewer.loadGLB src fresh) as [s []]; reflexivity.
  - destruct (Mobile.loadGLB src fresh) as [s []]; reflexivity.
Qed.

End Invariants.

(** X2.  Whatever is done through the handle, the names that [getPartNames]
    reports are the labels of the current parts: there are [partCount] of
    them, none is empty, and the name at position [i] is the name of part
    [i], or "Part i+1" when that part has no name. *)
Theorem X2_part_names (v : Variant) (src : LoaderResult) (es : list Event) :
  let s := performAll v es (fst (initViewerOf v src)) in
  length (getPartNames s) = partCount s
  /\ Forall (fun n => n <> []) (getPartNames s)
  /\ (forall (i : nat) (p : Object3D),
        parts (asset s) !! i = Some p ->
        getPartNames s !! i
        = Some (match name p with
                | [] => (str "Part " ++ digitsOfNat (i + 1))%list
                | n => n
                end)).
Proof.
  intros s.
  assert (H : namesOk (asset s)).
  { unfold s. apply performAll_always; [apply perform_names|].
    rewrite initViewerOf_asset. apply loadGLBOf_names. reflexivity. }
  unfold getPartNames, partCount. rewrite H. split; [apply length_imap|]. split.
  - apply List.Forall_forall. intros n Hn.
    apply list_elem_of_In, elem_of_lookup_imap in Hn.
    destruct Hn as (i & p & -> & _). unfold partLabel.
    destruct (name p); [|discriminate].
    change (str "Part " ++ digitsOfNat (i + 1))%list
      with (80%N :: (str "art " ++ digitsOfNat (i + 1)))%list.
    discriminate.
  - intros i p Hp. rewrite list_lookup_imap, Hp. reflexivity.
Qed.

Section ZoomFlag.
Local Open Scope Q_scope.

Lemma loadAnimations_state (clips : list Clip) (a : Anim) :
  explodeState (loadAnimations clips (clearedAnim a)) = Overview.
Proof. destruct clips; reflexivity. Qed.

Lemma loadGLBOf_zoom (v : Variant) (src : LoaderResult) (s : State) :
  zoomOk s -> zoomOk (fst (loadGLBOf v src s)).
Proof.
  intros H. destruct v; simpl; unfold Viewer.loadGLB, Mobile.loadGLB;
    (destruct (scene (rig s)); [|exact H]);
    (destruct src as [g|]; [|reflexivity]);
    (destruct (gltfRoot g); [|reflexivity]);
    unfold zoomOk; cbn [fst zoom anim]; rewrite loadAnimations_state; reflexivity.
Qed.

Lemma setExplode_zoom (v : Variant) (t : Q) (s : State) :
  zoomOk s -> zoomOk (setExplode v t s).
Proof.
  intros H. unfold setExplode.
  destruct (negb (mixer (anim s)) || (size (actions (anim s)) =? 0)%nat);
    [exact H|].
  destruct (Qle_bool (clamp01 t) 0).
  - unfold zoomOk, clearExplodedZoom. cbn [zoom anim with_actions explodeState].
    destruct (explodedZoomApplied (zoom s)) eqn:E; simpl; [reflexivity | exact E].
  - destruct (Qle_bool 1 (clamp01 t)).
    + unfold zoomOk, applyExplodedZoom. cbn [zoom anim with_actions explodeState].
      destruct (explodedZoomApplied (zoom s)) eqn:E; simpl; [exact E | reflexivity].
    + exact H.
Qed.

Lemma perform_zoom (v : Variant) (e : Event) (s : State) :
  zoomOk s -> zoomOk (perform v e s).
Proof.
  intros H. destruct e as [src| |t|i d|ix|index|nm found| |dt]; simpl.
  - apply loadGLBOf_zoom. exact H.
  - reflexivity.
  - apply setExplode_zoom. exact H.
  - exact H.
  - exact H.
  - unfold setOrbitTargetTo. destruct (negb (controls (rig s))); [exact H|].
    destruct index as [i|]; [|exact H].
    destruct ((i <? 0)%Z || (Z.of_nat (length (parts (asset s))) <=? i)%Z);
      [exact H|].
    destruct (getPartWorldCenter i (parts (asset s))); exact H.
  - unfold setOrbitTargetByName, getWorldPosByName.
    destruct (negb (controls (rig s))); [exact H|].
    destruct nm as [[|c n]|]; try exact H.
    destruct (scene (rig s)); [|exact H]. destruct found; exact H.
  - unfold resetView. destruct (negb (controls (rig s))); exact H.
  - unfold renderFrame. destruct (mixer (anim s)); exact H.
Qed.

Lemma initViewerOf_zoom (v : Variant) (src : LoaderResult) :
  zoomOk (fst (initViewerOf v src)).
Proof.
  assert (H : zoomOk (fst (loadGLBOf v src fresh)))
    by (apply loadGLBOf_zoom; reflexivity).
  destruct v; simpl in *; unfold Viewer.initViewer, Mobile.initViewer.
  - destruct (Viewer.loadGLB src fresh) as [s []]; exact H.
  - destruct (Mobile.loadGLB src fresh) as [s []]; exact H.
Qed.

End ZoomFlag.

(** X3.  Whatever is done through the handle, the smooth zoom-out of the
    exploded view is on record as applied exactly when the viewer is in the
    exploded state: [setExplode] is the only call that moves either, a load
    and [dispose] reset both. *)
Theorem X3_zoom_follows_explode (v : Variant) (src : LoaderResult)
    (es : list Event) :
  let s := performAll v es (fst (initViewerOf v src)) in
  explodedZoomApplied (zoom s) = true <-> explodeState (anim s) = Exploded.
Proof.
  intros s.
  assert (H : zoomOk s).
  { unfold s. apply performAll_always; [apply perform_zoom|].
    apply initViewerOf_zoom. }
  unfold zoomOk in H. rewrite H.
  destruct (explodeState (anim s)); split; congruence.
Qed.

(* ===================================================================== *)
(** * The clip tables *)
(* ===================================================================== *)

Section ClipTables.
Local Open Scope Q_scope.

Lemma addClips_names (clips : list Clip) :
  forall (i : nat) (a : Anim),
    clipNames (addClips i clips a)
    = (clipNames a ++ imap (fun k c => clipKey (i + k) c) clips)%list.
Proof.
  induction clips as [|c clips IH]; intros i a; simpl.
  - rewrite app_nil_r. reflexivity.
  - rewrite IH. cbn [clipNames]. rewrite <- app_assoc. f_equal. simpl.
    rewrite Nat.add_0_r. f_equal. apply imap_ext. intros k c' _. simpl.
    rewrite Nat.add_succ_r. reflexivity.
Qed.

(** The table entry of a name after the clips of a file have been
    registered: that of the last clip under the name, or the old one. *)
Lemma addClips_lookup (clips : list Clip) :
  forall (i : nat) (a : Anim) (nm : list N),
    (exists k c,
        clips !! k = Some c /\ clipKey (i + k) c = nm
        /\ (forall j c', (k < j)%nat -> clips !! j = Some c' ->
                         clipKey (i + j) c' <> nm)
        /\ actions (addClips i clips a) !! nm = Some (newAction c)
        /\ clipDurations (addClips i clips a) !! nm = Some (clip_duration c))
    \/ ((forall j c', clips !! j = Some c' -> clipKey (i + j) c' <> nm)
        /\ actions (addClips i clips a) !! nm = actions a !! nm
        /\ clipDurations (addClips i clips a) !! nm = clipDurations a !! nm).
Proof.
  induction clips as [|c clips IH]; intros i a nm.
  - right. split; [intros j c' H; discriminate H|]. split; reflexivity.
  - cbn [addClips]. cbv zeta.
    set (a1 := mkAnim _ _ _ _ _ _).
    destruct (IH (S i) a1 nm) as [(k & c0 & Hk & Hkey & Hlast & Hact & Hdur)
                                 |(Hnone & Hact & Hdur)].
    + left. exists (S k), c0. split; [exact Hk|].
      split; [rewrite Nat.add_succ_r; exact Hkey|].
      split; [|split; assumption].
      intros j c' Hj Hc'. destruct j as [|j]; [lia|].
      rewrite Nat.add_succ_r. apply (Hlast j c'); [lia | exact Hc'].
    + destruct (decide (clipKey i c = nm)) as [E|E].
      * left. exists 0%nat, c. split; [reflexivity|].
        split; [rewrite Nat.add_0_r; exact E|]. split.
        -- intros j c' Hj Hc'. destruct j as [|j]; [lia|].
           rewrite Nat.add_succ_r. apply (Hnone j c'). exact Hc'.
        -- rewrite Hact, Hdur. unfold a1. cbn [actions clipDurations].
           rewrite <- E, !lookup_insert_eq. split; reflexivity.
      * right. split.
        -- intros j c' Hc'. destruct j as [|j].
           ++ simpl in Hc'. injection Hc' as <-. rewrite Nat.add_0_r. exact E.
           ++ rewrite Nat.add_succ_r. apply (Hnone j c'). exact Hc'.
        -- rewrite Hact, Hdur. unfold a1. cbn [actions clipDurations].
           rewrite !lookup_insert_ne by exact E. split; reflexivity.
Qed.

Lemma newAction_update (dt : Q) (c : Clip) :
  updateAction dt (newAction c) = newAction c.
Proof. apply updateAction_paused. reflexivity. Qed.

(** The tables as [loadGLB] leaves them for the clips of a file. *)
Lemma loadAnimations_tables (clips : list Clip) (a : Anim) :
  let a' := loadAnimations clips (clearedAnim a) in
  clipNames a' = imap clipKey clips
  /\ (mixer a' = true <-> clips <> [])
  /\ playbackSpeed a' = playbackSpeed a
  /\ forall nm,
       (exists k c,
           clips !! k = Some c /\ clipKey k c = nm
           /\ (forall j c', (k < j)%nat -> clips !! j = Some c' ->
                            clipKey j c' <> nm)
           /\ actions a' !! nm = Some (newAction c)
           /\ clipDurations a' !! nm = Some (clip_duration c))
       \/ ((forall j c', clips !! j = Some c' -> clipKey j c' <> nm)
           /\ actions a' !! nm = None /\ clipDurations a' !! nm = None).
Proof.
  intros a'. unfold a', loadAnimations.
  destruct clips as [|c clips].
  - split; [reflexivity|]. split; [split; [discriminate | congruence]|].
    split; [reflexivity|]. intros nm. right.
    split; [intros j c' H; discriminate H|]. split; reflexivity.
  - cbv zeta. set (b := mkAnim true (actions (clearedAnim a)) _ _ _ _).
    set (cl := c :: clips).
    cbn [clipNames mixer playbackSpeed actions clipDurations].
    split; [|split; [|split]].
    + rewrite addClips_names. reflexivity.
    + split; [discriminate | reflexivity].
    + assert (H : forall l i b0, playbackSpeed (addClips i l b0) = playbackSpeed b0).
      { induction l as [|x l IH]; intros i b0; simpl; [reflexivity|].
        rewrite IH. reflexivity. }
      rewrite H. reflexivity.
    + intros nm. unfold mixerUpdate. rewrite lookup_fmap.
      destruct (addClips_lookup cl 0 b nm)
        as [(k & c0 & Hk & Hkey & Hlast & Hact & Hdur)|(Hnone & Hact & Hdur)].
      * left. exists k, c0. rewrite Hact. simpl. rewrite newAction_update. auto.
      * right. rewrite Hact, Hdur. split; [exact Hnone|]. split; reflexivity.
Qed.

End ClipTables.

Section ClipInvariant.
Local Open Scope Q_scope.

Lemma loadGLBOf_anim (v : Variant) (g : GLTF) (s : State) (shown : option Object3D)
    (root0 : Object3D) :
  scene (rig s) = Some shown -> gltfRoot g = Some root0 ->
  anim (fst (loadGLBOf v (LoadOk g) s))
  = loadAnimations (gltf_animations g) (clearedAnim (anim s)).
Proof.
  intros Hs Hg. destruct v; simpl; unfold Viewer.loadGLB, Mobile.loadGLB;
    rewrite Hs, Hg; reflexivity.
Qed.

Lemma imap_clipKey_In (clips : list Clip) (nm : list N) :
  In nm (imap clipKey clips) <-> exists k c, clips !! k = Some c /\ clipKey k c = nm.
Proof.
  rewrite <- list_elem_of_In, elem_of_lookup_imap.
  split; intros (k & c & H1 & H2); exists k, c; auto.
Qed.

Lemma loadAnimations_tablesOk (clips : list Clip) (a : Anim) :
  tablesOk (loadAnimations clips (clearedAnim a)).
Proof.
  destruct (loadAnimations_tables clips a) as (Hn & Hm & _ & Hl).
  cbv zeta in *. unfold tablesOk. rewrite Hn. split; [|split].
  - intros nm. rewrite imap_clipKey_In.
    destruct (Hl nm) as [(k & c & Hk & Hkey & _ & -> & _)|(Hnone & -> & _)].
    + split; eauto.
    + split; [|intros [x Hx]; discriminate].
      intros (k & c & Hk & Hkey). destruct (Hnone k c Hk Hkey).
  - intros nm.
    destruct (Hl nm) as [(k & c & _ & _ & _ & -> & ->)|(_ & -> & ->)];
      [split; eauto | split; intros [x Hx]; discriminate].
  - rewrite Hm. destruct clips; simpl; split; congruence.
Qed.

Lemma tablesOk_cleared (a : Anim) : tablesOk (clearedAnim a).
Proof.
  unfold tablesOk, clearedAnim. simpl. split; [|split].
  - intros nm. rewrite lookup_empty.
    split; [intros [] | intros [x Hx]; discriminate].
  - intros nm. rewrite !lookup_empty. split; intros [x Hx]; discriminate.
  - split; [discriminate | congruence].
Qed.

Lemma loadGLBOf_tables (v : Variant) (src : LoaderResult) (s : State) :
  tablesOk (anim s) -> tablesOk (anim (fst (loadGLBOf v src s))).
Proof.
  intros H. destruct v; simpl; unfold Viewer.loadGLB, Mobile.loadGLB;
    (destruct (scene (rig s)); [|exact H]);
    (destruct src as [g|]; [|apply tablesOk_cleared]);
    (destruct (gltfRoot g); [|apply tablesOk_cleared]);
    apply loadAnimations_tablesOk.
Qed.

(** [setExplode] rewrites the actions and keeps their names. *)
Lemma setExplode_tables (v : Variant) (t : Q) (s : State) :
  let s' := setExplode v t s in
  mixer (anim s') = mixer (anim s)
  /\ clipNames (anim s') = clipNames (anim s)
  /\ clipDurations (anim s') = clipDurations (anim s)
  /\ playbackSpeed (anim s') = playbackSpeed (anim s)
  /\ forall nm, is_Some (actions (anim s') !! nm) <-> is_Some (actions (anim s) !! nm).
Proof.
  unfold setExplode.
  destruct (negb (mixer (anim s)) || (size (actions (anim s)) =? 0)%nat);
    [cbv zeta; tauto|].
  assert (Hf : forall (f : Action -> Action) nm,
            is_Some ((f <$> actions (anim s)) !! nm)
            <-> is_Some (actions (anim s) !! nm)).
  { intros f nm. rewrite lookup_fmap. apply fmap_is_Some. }
  assert (Hi : forall (f : list N -> Action -> Action) nm,
            is_Some (map_imap (fun k a => Some (f k a)) (actions (anim s)) !! nm)
            <-> is_Some (actions (anim s) !! nm)).
  { intros f nm. rewrite map_lookup_imap.
    destruct (actions (anim s) !! nm); simpl; split; eauto;
      intros [x Hx]; discriminate. }
  assert (Hu : forall dt (m : gmap (list N) Action) nm,
            is_Some (mixerUpdate dt m !! nm) <-> is_Some (m !! nm)).
  { intros dt m nm. unfold mixerUpdate. rewrite lookup_fmap. apply fmap_is_Some. }
  destruct (Qle_bool (clamp01 t) 0); [|destruct (Qle_bool 1 (clamp01 t))];
    cbv zeta; cbn [anim with_actions mixer clipNames clipDurations playbackSpeed actions];
    (repeat (split; [reflexivity|])); intros nm;
    try destruct (explodeState (anim s));
    rewrite ?Hu, ?Hi, ?Hf; reflexivity.
Qed.

Lemma perform_tables (v : Variant) (e : Event) (s : State) :
  tablesOk (anim s) -> tablesOk (anim (perform v e s)).
Proof.
  intros H. destruct e as [src| |t|i d|ix|index|nm found| |dt]; simpl.
  - apply loadGLBOf_tables. exact H.
  - apply tablesOk_cleared.
  - destruct (setExplode_tables v t s) as (Hm & Hn & Hd & _ & Ha).
    cbv zeta in *. destruct H as (H1 & H2 & H3).
    unfold tablesOk. rewrite Hm, Hn, Hd. split; [|split; [|exact H3]].
    + intros nm. rewrite Ha. apply H1.
    + intros nm. rewrite Ha. apply H2.
  - exact H.
  - exact H.
  - unfold setOrbitTargetTo. destruct (negb (controls (rig s))); [exact H|].
    destruct index as [i|]; [|exact H].
    destruct ((i <? 0)%Z || (Z.of_nat (length (parts (asset s))) <=? i)%Z);
      [exact H|].
    destruct (getPartWorldCenter i (parts (asset s))); exact H.
  - unfold setOrbitTargetByName, getWorldPosByName.
    destruct (negb (controls (rig s))); [exact H|].
    destruct nm as [[|c n]|]; try exact H.
    destruct (scene (rig s)); [|exact H]. destruct found; exact H.
  - unfold resetView. destruct (negb (controls (rig s))); exact H.
  - unfold renderFrame. destruct (mixer (anim s)); [|exact H].
    destruct H as (H1 & H2 & H3). unfold tablesOk.
    cbn [anim with_actions mixer clipNames clipDurations actions].
    assert (Hu : forall nm, is_Some (mixerUpdate (dt * playbackSpeed (anim s))
                                       (actions (anim s)) !! nm)
                            <-> is_Some (actions (anim s) !! nm)).
    { intros nm. unfold mixerUpdate. rewrite lookup_fmap. apply fmap_is_Some. }
    split; [|split; [|exact H3]]; intros nm; rewrite Hu; auto.
Qed.

Lemma initViewerOf_anim (v : Variant) (src : LoaderResult) :
  anim (fst (initViewerOf v src)) = anim (fst (loadGLBOf v src fresh)).
Proof.
  destruct v; simpl; unfold Viewer.initViewer, Mobile.initViewer.
  - destruct (Viewer.loadGLB src fresh) as [s []]; reflexivity.
  - destruct (Mobile.loadGLB src fresh) as [s []]; reflexivity.
Qed.

End ClipInvariant.




(* ===================================================================== *)
(** * Clip times *)
(* ===================================================================== *)

Section ClipTimes.
Local Open Scope Q_scope.











End ClipTimes.



(* ===================================================================== *)
(** * The materials of the parts *)
(* ===================================================================== *)

Section PartMaterials.
Local Open Scope Q_scope.

Lemma masked_part (allow : bool) (p : Object3D) :
  let p' := forMeshMaterials (maskMaterial allow) (setVisible allow p) in
  visible p' = allow
  /\ name p' = name p
  /\ meshMaterials p' = List.map (maskMaterial allow) (meshMaterials p).
Proof.
  intros p'. unfold p'.
  destruct (forMeshMaterials_node (maskMaterial allow) (setVisible allow p))
    as (Hn & Hv & _).
  rewrite Hn, Hv, meshMaterials_forMesh, meshMaterials_setVisible.
  destruct p; auto.
Qed.

Lemma Double_lt_le (a b : Q) (x : Double.t) :
  (a <= b)%Q -> Double.lt b x = true -> Double.le a x = true.
Proof.
  intros Hab. destruct x as [q| | |]; simpl; try congruence.
  destruct (Qlt_le_dec b q) as [H|H]; [|discriminate]. intros _.
  destruct (Qlt_le_dec q a) as [H'|H']; [exfalso; lra | reflexivity].
Qed.

Lemma Double_lt_number (b : Q) (x : Double.t) :
  Double.lt b x = true -> x <> Double.NaN.
Proof. destruct x; simpl; congruence. Qed.

Lemma Double_le_max (a c : Q) (x : Double.t) :
  (a <= c)%Q -> x <> Double.NaN -> Double.le a (Double.max c x) = true.
Proof.
  intros Hac Hx. destruct x as [q| | |]; simpl; try reflexivity; try congruence.
  - pose proof (Q.le_max_l c q) as Hm.
    destruct (Qlt_le_dec (Qmax c q) a) as [H|H]; [exfalso; lra | reflexivity].
  - destruct (Qlt_le_dec c a) as [H|H]; [exfalso; lra | reflexivity].
Qed.

Lemma Double_max_number (c : Q) (x : Double.t) :
  x <> Double.NaN -> Double.max c x <> Double.NaN.
Proof. destruct x; simpl; congruence. Qed.

Lemma wrap_ok (shown : bool) (m : Material) :
  materialOk shown (wrap m) /\ opacity (wrap m) <> Double.NaN.
Proof.
  unfold materialOk, wrap, savedBase.
  cbn [saved saved_opacity opacity transparent depthWrite].
  set (base := if Double.lt (1 # 10) (opacity m) then opacity m
               else Double.Finite 1).
  assert (Hb : Double.lt (1 # 10) base = true).
  { unfold base. destruct (Double.lt (1 # 10) (opacity m)) eqn:E;
      [exact E | reflexivity]. }
  split; [|exact (Double_lt_number _ _ Hb)].
  split; [eauto|]. split; [exact Hb|]. split; [reflexivity|].
  split; [reflexivity|]. right. split; [|intros _].
  - apply (Double_lt_le 0 (1 # 10)); [discriminate | exact Hb].
  - apply (Double_lt_le (8 # 100) (1 # 10)); [discriminate | exact Hb].
Qed.

Lemma isolateMaterial_ok (keep shown b : bool) (d : Double.t) (m : Material) :
  materialOk b m ->
  materialOk shown (isolateMaterial keep (clampDim d) m)
  /\ (d <> Double.NaN ->
      opacity (isolateMaterial keep (clampDim d) m) <> Double.NaN).
Proof.
  intros (Hs & Hb & _). unfold materialOk, isolateMaterial.
  cbn [saved opacity transparent depthWrite].
  change (match saved m with Some sv => saved_opacity sv | None => Double.Finite 1 end)
    with (savedBase m) in *.
  pose proof (Double_lt_number _ _ Hb) as Hn.
  split.
  - split; [exact Hs|]. split; [exact Hb|]. split; [reflexivity|].
    split; [reflexivity|]. destruct keep.
    + right. split; [|intros _]; apply Double_le_max; try exact Hn; discriminate.
    + destruct d as [x| | |]; [| | |left; reflexivity]; right.
      * destruct (clampDim_range (Double.Finite x) ltac:(discriminate))
          as (q & -> & Hq1 & Hq2).
        simpl. split; [|intros _].
        -- destruct (Qlt_le_dec q 0); [exfalso; lra | reflexivity].
        -- destruct (Qlt_le_dec q (8 # 100)); [exfalso; lra | reflexivity].
      * split; reflexivity.
      * split; reflexivity.
  - intros Hd. destruct keep.
    + apply Double_max_number. exact Hn.
    + intros E. apply Hd. apply (proj1 (clampDim_NaN d)). exact E.
Qed.

Lemma maskMaterial_ok (allow b : bool) (m : Material) :
  materialOk b m ->
  materialOk allow (maskMaterial allow m)
  /\ opacity (maskMaterial allow m) <> Double.NaN.
Proof.
  intros (Hs & Hb & _). unfold materialOk, maskMaterial.
  cbn [saved opacity transparent depthWrite].
  change (match saved m with Some sv => saved_opacity sv | None => Double.Finite 1 end)
    with (savedBase m) in *.
  pose proof (Double_lt_number _ _ Hb) as Hn.
  split.
  - split; [exact Hs|]. split; [exact Hb|]. split; [reflexivity|].
    split; [reflexivity|]. right. destruct allow.
    + split; [|intros _]; apply Double_le_max; try exact Hn; discriminate.
    + split; [reflexivity | discriminate].
  - destruct allow; [apply Double_max_number; exact Hn | discriminate].
Qed.

Lemma isolatePart_ok (index : option Z) (d : Double.t) (ps : list Object3D) :
  partsOk ps ->
  partsOk (isolatePart index d ps)
  /\ (d <> Double.NaN -> opacitiesOk (isolatePart index d ps)).
Proof.
  unfold partsOk, opacitiesOk, isolatePart. intros H.
  rewrite List.Forall_forall in H.
  assert (G : forall p', In p' (imap (fun i p =>
                forMeshMaterials (isolateMaterial (isKept index i) (clampDim d))
                  (setVisible true p)) ps) ->
              Forall (materialOk (visible p')) (meshMaterials p')
              /\ (d <> Double.NaN ->
                  Forall (fun m => opacity m <> Double.NaN) (meshMaterials p'))).
  { intros p' Hp'. apply list_elem_of_In, elem_of_lookup_imap in Hp'.
    destruct Hp' as (i & p & -> & Hp).
    destruct (isolated_part (isKept index i) (clampDim d) p) as (-> & _ & ->).
    apply list_elem_of_lookup_2, list_elem_of_In in Hp.
    specialize (H p Hp). rewrite List.Forall_forall in H.
    split; [|intros Hd]; apply List.Forall_forall; intros m' Hm';
      apply in_map_iff in Hm'; destruct Hm' as (m & <- & Hm);
      destruct (isolateMaterial_ok (isKept index i) true (visible p) d m (H m Hm))
        as [H1 H2]; auto. }
  split; [|intros Hd]; apply List.Forall_forall; intros p' Hp';
    destruct (G p' Hp') as [G1 G2]; auto.
Qed.

Lemma applyVisibilityMask_ok (ix : option (list Z)) (ps : list Object3D) :
  partsOk ps ->
  partsOk (applyVisibilityMask ix ps) /\ opacitiesOk (applyVisibilityMask ix ps).
Proof.
  unfold partsOk, opacitiesOk, applyVisibilityMask. intros H.
  rewrite List.Forall_forall in H.
  rewrite <- Forall_and. apply List.Forall_forall. intros p' Hp'.
  apply list_elem_of_In, elem_of_lookup_imap in Hp'.
  destruct Hp' as (i & p & -> & Hp). cbv zeta.
  match goal with
  | |- context [forMeshMaterials (maskMaterial ?a)] =>
      destruct (masked_part a p) as (-> & _ & ->); set (allow := a)
  end.
  apply list_elem_of_lookup_2, list_elem_of_In in Hp.
  specialize (H p Hp). rewrite List.Forall_forall in H.
  split; apply List.Forall_forall; intros m' Hm';
    apply in_map_iff in Hm'; destruct Hm' as (m & <- & Hm);
    destruct (maskMaterial_ok allow (visible p) m (H m Hm)) as [H1 H2]; auto.
Qed.

(** A tree all of whose mesh materials come out of [wrap]. *)
Lemma meshMaterials_child (o c : Object3D) (m : Material) :
  In c (children o) -> In m (meshMaterials c) -> In m (meshMaterials o).
Proof.
  intros Hc Hm. unfold meshMaterials in *. rewrite (traverse_unfold o).
  apply in_flat_map in Hm. destruct Hm as (n & Hn & Hm).
  apply in_flat_map. exists n. split; [|exact Hm].
  right. apply in_flat_map. exists c. auto.
Qed.

Lemma recenter_children (c : Vec3) (o : Object3D) :
  children (Mobile.recenter c o) = List.map (Mobile.recenter c) (children o).
Proof.
  destruct o as [n v m mat b ch]. simpl.
  induction ch as [|x ch IH]; simpl; [reflexivity|]. rewrite IH. reflexivity.
Qed.

Lemma recenter_traverse (c : Vec3) (o : Object3D) :
  traverse (Mobile.recenter c o) = List.map (Mobile.recenter c) (traverse o).
Proof.
  induction o as [n v m mat b ch IH] using Object3D_forall_ind.
  rewrite (traverse_unfold (mkObj n v m mat b ch)), traverse_unfold.
  rewrite recenter_children. simpl. f_equal.
  induction IH as [|x ch Hx _ IHch]; simpl; [reflexivity|].
  rewrite List.map_app, Hx, IHch. reflexivity.
Qed.

Lemma recenter_materials (c : Vec3) (o : Object3D) :
  meshMaterials (Mobile.recenter c o) = meshMaterials o.
Proof.
  unfold meshMaterials. rewrite recenter_traverse.
  induction (traverse o) as [|n l IH]; simpl; [reflexivity|].
  rewrite IH. f_equal. destruct n; reflexivity.
Qed.

Lemma setName_materials (n : list N) (o : Object3D) :
  meshMaterials (setName n o) = meshMaterials o.
Proof.
  unfold meshMaterials. rewrite (traverse_unfold (setName n o)), (traverse_unfold o).
  destruct o; reflexivity.
Qed.

Lemma promote_materials (p : Object3D) :
  meshMaterials (Mobile.promoteSectionName p) = meshMaterials p
  /\ visible (Mobile.promoteSectionName p) = visible p.
Proof.
  unfold Mobile.promoteSectionName.
  destruct (if rx_test (trim (name p)) then Some (name p)
            else Mobile.firstSectionName (traverse p)) as [[|c n]|]; auto.
  rewrite setName_materials. destruct p; auto.
Qed.

Lemma gatherParts_In (par : option Object3D) (root p : Object3D) :
  In p (gatherParts par root) -> In p (children root) \/ par = Some p.
Proof.
  unfold gatherParts.
  destruct (List.filter hasMesh (children root)) as [|x l] eqn:E.
  - destruct (isMesh root); [|intros []]. destruct par as [q|]; [|intros []].
    intros [->|[]]. right. reflexivity.
  - intros H. left. rewrite <- E in H. apply filter_In in H. apply H.
Qed.

(** After a load either nothing has changed (the viewer was disposed) or
    every material of every part comes out of [wrap]. *)
Lemma loadGLBOf_wrapped (R : Material -> Prop) (v : Variant) (src : LoaderResult)
    (s : State) :
  (forall m0, R (wrap m0)) ->
  fst (loadGLBOf v src s) = s
  \/ Forall (fun p => Forall R (meshMaterials p))
       (parts (asset (fst (loadGLBOf v src s)))).
Proof.
  intros HR.
  assert (Hclone : forall root0 m, In m (meshMaterials (cloneMaterials root0)) -> R m).
  { intros root0 m Hm. unfold cloneMaterials in Hm.
    rewrite meshMaterials_forMesh in Hm. apply in_map_iff in Hm.
    destruct Hm as (m0 & <- & _). apply HR. }
  destruct v; simpl; unfold Viewer.loadGLB, Mobile.loadGLB;
    (destruct (scene (rig s)); [|left; reflexivity]); right;
    (destruct src as [g|]; [|constructor]);
    (destruct (gltfRoot g) as [root0|]; [|constructor]);
    cbv zeta; cbn [fst asset parts];
    apply List.Forall_forall; intros p Hp; apply List.Forall_forall; intros m Hm.
  - apply gatherParts_In in Hp. destruct Hp as [Hp|Hp]; [|discriminate].
    apply (Hclone root0). eapply meshMaterials_child; eauto.
  - unfold Mobile.promoteSectionNamesToParts in Hp. apply in_map_iff in Hp.
    destruct Hp as (p0 & <- & Hp0).
    destruct (promote_materials p0) as [Em _]. rewrite Em in Hm.
    apply (Hclone root0).
    set (root := Mobile.recenter _ _) in *.
    assert (Hroot : In m (meshMaterials root)).
    { apply gatherParts_In in Hp0. destruct Hp0 as [Hp0|Hp0].
      - eapply meshMaterials_child; eauto.
      - injection Hp0 as <-. unfold Mobile.mkPivot, meshMaterials in Hm.
        rewrite traverse_unfold in Hm. simpl in Hm. rewrite app_nil_r in Hm.
        exact Hm. }
    unfold root in Hroot. rewrite recenter_materials in Hroot. exact Hroot.
Qed.

Lemma loadGLBOf_parts (v : Variant) (src : LoaderResult) (s : State) :
  partsOk (parts (asset s)) -> partsOk (parts (asset (fst (loadGLBOf v src s)))).
Proof.
  intros H.
  destruct (loadGLBOf_wrapped (fun m => forall b, materialOk b m) v src s)
    as [E|HR].
  - intros m0 b. apply wrap_ok.
  - rewrite E. exact H.
  - unfold partsOk. eapply Forall_impl; [exact HR|]. intros p Hp. cbv beta in *.
    eapply Forall_impl; [exact Hp|]. intros m Hm. apply Hm.
Qed.

Lemma loadGLBOf_opacities (v : Variant) (src : LoaderResult) (s : State) :
  opacitiesOk (parts (asset s)) ->
  opacitiesOk (parts (asset (fst (loadGLBOf v src s)))).
Proof.
  intros H.
  destruct (loadGLBOf_wrapped (fun m => opacity m <> Double.NaN) v src s)
    as [E|HR].
  - intros m0. apply (wrap_ok true).
  - rewrite E. exact H.
  - exact HR.
Qed.

Lemma perform_parts (v : Variant) (e : Event) (s : State) :
  partsOk (parts (asset s)) -> partsOk (parts (asset (perform v e s))).
Proof.
  intros H. pose proof (perform_asset v e s) as Hfr.
  destruct e as [src| |t|i d|ix|index|nm found| |dt]; try (rewrite Hfr; exact H).
  - apply loadGLBOf_parts. exact H.
  - constructor.
  - simpl. apply isolatePart_ok. exact H.
  - simpl. apply applyVisibilityMask_ok. exact H.
Qed.

Lemma perform_opacities (v : Variant) (e : Event) (s : State) :
  eventDimOk e ->
  partsOk (parts (asset s)) /\ opacitiesOk (parts (asset s)) ->
  partsOk (parts (asset (perform v e s)))
  /\ opacitiesOk (parts (asset (perform v e s))).
Proof.
  intros He [H Ho]. split; [apply perform_parts; exact H|].
  pose proof (perform_asset v e s) as Hfr.
  destruct e as [src| |t|i d|ix|index|nm found| |dt]; try (rewrite Hfr; exact Ho).
  - apply loadGLBOf_opacities. exact Ho.
  - constructor.
  - simpl. apply isolatePart_ok; [exact H|].
    destruct d as [x|]; simpl in *; [exact He|]. destruct v; discriminate.
  - simpl. apply applyVisibilityMask_ok. exact H.
Qed.

End PartMaterials.

(** X7.  By loads, [dispose], [setExplode], [isolateIndex],
    [setVisibleIndices], the orbit-target calls and frames, in any order,
    every material of every part keeps a baseline opacity on record that is
    above 0.1, is flagged transparent and writes depth.  Its opacity is NaN
    or a number that is not negative and that, while its part is flagged
    visible, is at least 0.08; and it is a number as long as no
    [isolateIndex] call was handed NaN as dim opacity.  So short of a NaN
    argument a part that is shown is never fully transparent, only a part
    masked out is. *)
Theorem X7_shown_parts_are_visible (v : Variant) (src : LoaderResult)
    (es : list Event) :
  let s := performAll v es (fst (initViewerOf v src)) in
  forall p m,
    In p (parts (asset s)) -> In m (meshMaterials p) ->
    (exists sv, saved m = Some sv /\ Double.lt (1 # 10) (saved_opacity sv) = true)
    /\ transparent m = true /\ depthWrite m = true
    /\ (opacity m = Double.NaN
        \/ (Double.le 0%Q (opacity m) = true
            /\ (visible p = true -> Double.le (8 # 100) (opacity m) = true)))
    /\ (Forall eventDimOk es -> opacity m <> Double.NaN).
Proof.
  intros s p m Hp Hm.
  assert (H : partsOk (parts (asset s))).
  { unfold s. apply (performAll_always v (fun st => partsOk (parts (asset st))));
      [apply perform_parts|].
    rewrite initViewerOf_asset. apply loadGLBOf_parts. constructor. }
  assert (Hnum : Forall eventDimOk es -> opacity m <> Double.NaN).
  { intros Hes.
    assert (G : partsOk (parts (asset s)) /\ opacitiesOk (parts (asset s))).
    { unfold s. apply (performAll_ind v
        (fun st => partsOk (parts (asset st)) /\ opacitiesOk (parts (asset st)))
        eventDimOk); [apply perform_opacities | exact Hes |].
      rewrite initViewerOf_asset. split.
      - apply loadGLBOf_parts. constructor.
      - apply loadGLBOf_opacities. constructor. }
    destruct G as [_ G]. unfold opacitiesOk in G.
    rewrite List.Forall_forall in G. specialize (G p Hp).
    rewrite List.Forall_forall in G. exact (G m Hm). }
  unfold partsOk in H. rewrite List.Forall_forall in H. specialize (H p Hp).
  rewrite List.Forall_forall in H. destruct (H m Hm) as ([sv Hsv] & Hb & Ht & Hd & Ho).
  split; [|split; [exact Ht|split; [exact Hd|split; [exact Ho|]]]].
  - exists sv. split; [exact Hsv|].
    unfold savedBase in Hb. rewrite Hsv in Hb. exact Hb.
  - exact Hnum.
Qed.

Lemma X7_shown_parts_are_visible_witness :
  let s := performAll Desktop [SetVisibleIndices (Some [0%Z]); IsolateIndex (Some 1%Z) None]
             (fst (initViewerOf Desktop (LoadOk Sample.bedGLTF))) in
  match parts (asset s) with
  | p :: _ =>
      match meshMaterials p with
      | m :: _ => visible p = true /\ transparent m = true
                  /\ opacity m = Double.Finite (8 # 100)
      | [] => False
      end
  | [] => False
  end.
Proof.
  intros s.
  assert (E : exists p m ps ms,
            parts (asset s) = p :: ps /\ meshMaterials p = m :: ms
            /\ visible p = true /\ opacity m = Double.Finite (8 # 100)).
  { do 4 eexists. split; [reflexivity|]. split; [reflexivity|]. split; reflexivity. }
  destruct E as (p & m & ps & ms & Ep & Em & Ev & Eo). rewrite Ep, Em.
  destruct (X7_shown_parts_are_visible Desktop (LoadOk Sample.bedGLTF)
              [SetVisibleIndices (Some [0%Z]); IsolateIndex (Some 1%Z) None] p m)
    as (_ & Ht & _ & _ & _).
  - fold s. rewrite Ep. left. reflexivity.
  - rewrite Em. left. reflexivity.
  - split; [exact Ev|]. split; [exact Ht | exact Eo].
Defined.

(* ===================================================================== *)
(** * Isolation and the visibility mask together *)
(* ===================================================================== *)

Section PartCalls.
Local Open Scope Q_scope.

Lemma forMeshMaterials_unfold (f : Material -> Material) (o : Object3D) :
  forMeshMaterials f o
  = mkObj (name o) (visible o) (isMesh o)
      (if isMesh o then mapSlot f (material o) else material o)
      (geomBox o) (List.map (forMeshMaterials f) (children o)).
Proof.
  rewrite <- forMeshMaterials_children. destruct o; reflexivity.
Qed.

Lemma mapSlot_ext (f g : Material -> Material) (m : MaterialSlot) :
  (forall x, f x = g x) -> mapSlot f m = mapSlot g m.
Proof.
  intros H. destruct m as [|x|xs]; simpl; [reflexivity | rewrite H; reflexivity|].
  f_equal. apply List.map_ext. exact H.
Qed.

Lemma mapSlot_mapSlot (f g : Material -> Material) (m : MaterialSlot) :
  mapSlot f (mapSlot g m) = mapSlot (fun x => f (g x)) m.
Proof.
  destruct m as [|x|xs]; simpl; [reflexivity | reflexivity|].
  rewrite List.map_map. reflexivity.
Qed.

(** Two passes of the mesh loop are one pass with both rewrites. *)
Lemma forMeshMaterials_twice (f g h : Material -> Material) (o : Object3D) :
  (forall x, f (g x) = h x) ->
  forMeshMaterials f (forMeshMaterials g o) = forMeshMaterials h o.
Proof.
  intros H. induction o as [n v m mat b ch IH] using Object3D_forall_ind.
  rewrite (forMeshMaterials_unfold g), (forMeshMaterials_unfold f),
    (forMeshMaterials_unfold h).
  cbn [name visible isMesh material geomBox children]. f_equal.
  - destruct m; [|reflexivity]. rewrite mapSlot_mapSlot. apply mapSlot_ext. exact H.
  - rewrite List.map_map. induction IH as [|c ch Hc _ IHch]; simpl; [reflexivity|].
    rewrite Hc, IHch. reflexivity.
Qed.

Lemma setVisible_forMesh (a : bool) (g : Material -> Material) (o : Object3D) :
  setVisible a (forMeshMaterials g o) = forMeshMaterials g (setVisible a o).
Proof.
  rewrite !forMeshMaterials_unfold. destruct o; reflexivity.
Qed.

Lemma setVisible_twice (a b : bool) (o : Object3D) :
  setVisible a (setVisible b o) = setVisible a o.
Proof. destruct o; reflexivity. Qed.

(** A pass that sets the flag and rewrites every material from its record
    alone undoes an earlier such pass. *)
Lemma pass_twice (a b : bool) (f g : Material -> Material) (p : Object3D) :
  (forall x, f (g x) = f x) ->
  forMeshMaterials f (setVisible a (forMeshMaterials g (setVisible b p)))
  = forMeshMaterials f (setVisible a p).
Proof.
  intros H. rewrite setVisible_forMesh, setVisible_twice.
  apply forMeshMaterials_twice. exact H.
Qed.

Lemma isolate_after_isolate (i j : option Z) (d e : Double.t)
    (ps : list Object3D) :
  isolatePart i d (isolatePart j e ps) = isolatePart i d ps.
Proof.
  unfold isolatePart. rewrite imap_imap. apply imap_ext. intros k p _. cbv beta.
  apply pass_twice. reflexivity.
Qed.

Lemma isolate_after_mask (i : option Z) (d : Double.t) (ix : option (list Z))
    (ps : list Object3D) :
  isolatePart i d (applyVisibilityMask ix ps) = isolatePart i d ps.
Proof.
  unfold isolatePart, applyVisibilityMask. rewrite imap_imap. apply imap_ext.
  intros k p _. cbv beta zeta. apply pass_twice. reflexivity.
Qed.

Lemma mask_after_isolate (i : option Z) (d : Double.t) (ix : option (list Z))
    (ps : list Object3D) :
  applyVisibilityMask ix (isolatePart i d ps) = applyVisibilityMask ix ps.
Proof.
  unfold isolatePart, applyVisibilityMask. rewrite imap_imap. apply imap_ext.
  intros k p _. cbv beta zeta. apply pass_twice. reflexivity.
Qed.

Lemma mask_after_mask (ix iy : option (list Z)) (ps : list Object3D) :
  applyVisibilityMask ix (applyVisibilityMask iy ps) = applyVisibilityMask ix ps.
Proof.
  unfold applyVisibilityMask. rewrite imap_imap. apply imap_ext.
  intros k p _. cbv beta zeta. apply pass_twice. reflexivity.
Qed.

Lemma forMeshMaterials_ext (f g : Material -> Material) (o : Object3D) :
  (forall x, f x = g x) -> forMeshMaterials f o = forMeshMaterials g o.
Proof.
  intros H. induction o as [n v m mat b ch IH] using Object3D_forall_ind.
  rewrite (forMeshMaterials_unfold f), (forMeshMaterials_unfold g).
  cbn [name visible isMesh material geomBox children]. f_equal.
  - destruct m; [|reflexivity]. apply mapSlot_ext. exact H.
  - induction IH as [|c ch Hc _ IHch]; simpl; [reflexivity|].
    rewrite Hc, IHch. reflexivity.
Qed.

Lemma isolate_none_is_mask_none (d : Double.t) (ps : list Object3D) :
  isolatePart None d ps = applyVisibilityMask None ps.
Proof.
  unfold isolatePart, applyVisibilityMask. apply imap_ext. intros k p _. cbv beta zeta.
  apply forMeshMaterials_ext. reflexivity.
Qed.

End PartCalls.

(** X8.  [setVisibleIndices(indices)] shows exactly the parts whose position
    is in the list, and all of them for [null]; positions in the list that
    no part has are ignored.  A part that is shown is flagged visible and
    each of its materials gets its recorded opacity floored at 0.98 and
    writes colour; a part that is not shown is flagged invisible and each of
    its materials gets opacity 0 and writes no colour.  The recorded
    opacities, the names and everything outside the parts stay as they
    are. *)
Theorem X8_visibility_mask (indices : option (list Z)) (s : State) :
  let s' := setVisibleIndices indices s in
  let ps := parts (asset s) in
  let allowed (i : nat) :=
    match indices with
    | None => true
    | Some keep => existsb (Z.eqb (Z.of_nat i)) keep
    end in
  List.map visible (parts (asset s')) = imap (fun i _ => allowed i) ps
  /\ imap (fun _ p => partOpacities p) (parts (asset s'))
     = imap (fun i p =>
               List.map (fun m => if allowed i
                                  then Double.max (98 # 100) (savedBase m)
                                  else Double.Finite 0) (meshMaterials p)) ps
  /\ imap (fun _ p => List.map colorWrite (meshMaterials p)) (parts (asset s'))
     = imap (fun i p => List.map (fun _ => allowed i) (meshMaterials p)) ps
  /\ List.map partBases (parts (asset s')) = List.map partBases ps
  /\ (forall i : nat,
        allowed i = true
        <-> indices = None \/ exists keep, indices = Some keep /\ In (Z.of_nat i) keep)
  /\ rig s' = rig s /\ anim s' = anim s /\ zoom s' = zoom s
  /\ partNames (asset s') = partNames (asset s)
  /\ imap partLabel (parts (asset s')) = imap partLabel ps.
Proof.
  intros s' ps allowed. unfold s', setVisibleIndices, with_asset, with_parts.
  cbn [asset parts rig anim zoom partNames]. fold ps.
  assert (Hpart : forall i p,
            let p' := forMeshMaterials (maskMaterial (allowed i)) (setVisible (allowed i) p) in
            visible p' = allowed i
            /\ meshMaterials p' = List.map (maskMaterial (allowed i)) (meshMaterials p))
    by (intros i p; destruct (masked_part (allowed i) p) as (H1 & _ & H2); auto).
  assert (Hdef : applyVisibilityMask indices ps
                 = imap (fun i p => forMeshMaterials (maskMaterial (allowed i))
                                      (setVisible (allowed i) p)) ps) by reflexivity.
  rewrite Hdef.
  split; [|split; [|split; [|split; [|split]]]].
  - rewrite map_imap_list. apply imap_ext. intros i p _. cbv beta.
    apply (Hpart i p).
  - rewrite imap_imap. apply imap_ext. intros i p _. cbv beta. unfold partOpacities.
    rewrite (proj2 (Hpart i p)), List.map_map. reflexivity.
  - rewrite imap_imap. apply imap_ext. intros i p _. cbv beta.
    rewrite (proj2 (Hpart i p)), List.map_map. reflexivity.
  - rewrite map_imap_list, <- imap_as_map. apply imap_ext. intros i p _. cbv beta.
    unfold partBases. rewrite (proj2 (Hpart i p)), List.map_map. reflexivity.
  - intros i. unfold allowed. destruct indices as [keep|].
    + rewrite existsb_exists. split.
      * intros (z & Hz & E). apply Z.eqb_eq in E. subst z. right. eauto.
      * intros [H|(keep' & E & Hin)]; [discriminate|]. injection E as <-.
        exists (Z.of_nat i). split; [exact Hin | apply Z.eqb_refl].
    + split; auto.
  - rewrite <- Hdef. rewrite applyVisibilityMask_labels. auto.
Qed.

(** X9.  [isolateIndex] and [setVisibleIndices] write the parts from their
    recorded opacities alone, so the later of two such calls decides: the
    state after both is the state after the later one.  With a null
    argument the two calls do the same, whatever the dim opacity: each shows
    every part undimmed. *)
Theorem X9_last_part_call_decides (v : Variant) (s : State) :
  (forall i d j e,
      isolateIndex v i d (isolateIndex v j e s) = isolateIndex v i d s)
  /\ (forall i d ix,
        isolateIndex v i d (setVisibleIndices ix s) = isolateIndex v i d s)
  /\ (forall i d ix,
        setVisibleIndices ix (isolateIndex v i d s) = setVisibleIndices ix s)
  /\ (forall ix iy,
        setVisibleIndices ix (setVisibleIndices iy s) = setVisibleIndices ix s)
  /\ (forall d, isolateIndex v None d s = setVisibleIndices None s).
Proof.
  unfold isolateIndex, setVisibleIndices, with_asset, with_parts.
  cbn [asset parts rig anim zoom pivot currentModel partNames bbox centroid].
  split; [|split; [|split; [|split]]]; intros.
  - rewrite isolate_after_isolate. reflexivity.
  - rewrite isolate_after_mask. reflexivity.
  - rewrite mask_after_isolate. reflexivity.
  - rewrite mask_after_mask. reflexivity.
  - rewrite isolate_none_is_mask_none. reflexivity.
Qed.

(* ===================================================================== *)
(** * Loading over an earlier asset *)
(* ===================================================================== *)

Section Reload.
Local Open Scope Q_scope.

(** What a later load still reads of the state: whether there is a scene,
    the playback speed and, in the desktop build, the pivot variable. *)
(** The calls that move the desired orbit target do nothing else. *)
Lemma target_calls (v : Variant) (e : Event) (s : State) :
  match e with
  | SetOrbitTargetTo _ | SetOrbitTargetByName _ _ | ResetView =>
      perform v e s = s \/ exists t, perform v e s = with_target t s
  | _ => True
  end.
Proof.
  destruct e as [src| |t|i d|ix|index|nm found| |dt]; simpl; auto.
  - unfold setOrbitTargetTo. destruct (negb (controls (rig s))); [auto|].
    destruct index as [i|]; [|simpl; eauto].
    destruct ((i <? 0)%Z || (Z.of_nat (length (parts (asset s))) <=? i)%Z);
      [simpl; eauto|].
    destruct (getPartWorldCenter i (parts (asset s))); simpl; eauto.
  - unfold setOrbitTargetByName, getWorldPosByName.
    destruct (negb (controls (rig s))); [auto|].
    destruct nm as [[|c n]|]; simpl; eauto.
    destruct (scene (rig s)); [|auto]. destruct found; simpl; eauto.
  - unfold resetView. destruct (negb (controls (rig s))); eauto.
Qed.

Lemma perform_keeps (v : Variant) (e : Event) (s : State) :
  e <> Dispose -> scene (rig s) <> None ->
  scene (rig (perform v e s)) <> None
  /\ playbackSpeed (anim (perform v e s)) = playbackSpeed (anim s)
  /\ (v = Desktop -> pivot (asset (perform v e s)) = pivot (asset s)).
Proof.
  intros He Hs. destruct e as [src| |t|i d|ix|index|nm found| |dt];
    try congruence; simpl.
  - destruct (scene (rig s)) as [shown|] eqn:Es; [|congruence].
    destruct v; simpl; unfold Viewer.loadGLB, Mobile.loadGLB; rewrite Es;
      (destruct src as [g|]; [destruct (gltfRoot g)|]); cbn [fst rig scene anim asset pivot];
      (split; [discriminate|]); (split; [|congruence]);
      try reflexivity;
      apply (proj1 (proj2 (proj2 (loadAnimations_tables (gltf_animations g) (anim s))))).
  - destruct (setExplode_tables v t s) as (_ & _ & _ & Hp & _). cbv zeta in Hp.
    split; [|split; [exact Hp|]].
    + unfold setExplode.
      destruct (negb (mixer (anim s)) || (size (actions (anim s)) =? 0)%nat);
        [exact Hs|].
      destruct (Qle_bool (clamp01 t) 0); [exact Hs|].
      destruct (Qle_bool 1 (clamp01 t)); exact Hs.
    + intros _. pose proof (perform_asset v (SetExplode t) s) as H. simpl in H.
      rewrite H. reflexivity.
  - (repeat split; auto).
  - (repeat split; auto).
  - destruct (target_calls v (SetOrbitTargetTo index) s) as [E|[t E]];
      simpl in E; rewrite E; repeat split; auto.
  - destruct (target_calls v (SetOrbitTargetByName nm found) s) as [E|[t E]];
      simpl in E; rewrite E; repeat split; auto.
  - destruct (target_calls v ResetView s) as [E|[t E]];
      simpl in E; rewrite E; repeat split; auto.
  - unfold renderFrame. destruct (mixer (anim s)); (repeat split; auto).
Qed.

Lemma performAll_keeps (v : Variant) (es : list Event) :
  forall s, Forall (fun e => e <> Dispose) es -> scene (rig s) <> None ->
    scene (rig (performAll v es s)) <> None
    /\ playbackSpeed (anim (performAll v es s)) = playbackSpeed (anim s)
    /\ (v = Desktop -> pivot (asset (performAll v es s)) = pivot (asset s)).
Proof.
  induction es as [|e es IH]; intros s Hes Hs; [auto|].
  inversion Hes as [|? ? He Hrest]; subst.
  destruct (perform_keeps v e s He Hs) as (H1 & H2 & H3).
  destruct (IH (perform v e s) Hrest H1) as (H4 & H5 & H6).
  unfold performAll in *. simpl. split; [exact H4|].
  split; [congruence|]. intros E. rewrite (H6 E). apply H3. exact E.
Qed.

End Reload.

(** X10.  A successful load replaces the asset entirely.  Whatever was
    loaded, isolated, masked, exploded or played before on a viewer that was
    not disposed, after the load the parts, their names, the bounding box,
    the centroid, the current model, the clip tables and the explode state
    are what the same load gives on the state before all of it, the
    zoom-out of the exploded view is off and the new model is the one in
    the scene.  A load that fails, in contrast, leaves the bounding box and
    the centroid of the asset it removed. *)
Theorem X10_load_replaces (v : Variant) (g : GLTF) (root0 : Object3D) (s : State)
    (es : list Event) :
  gltfRoot g = Some root0 -> scene (rig s) <> None ->
  Forall (fun e => e <> Dispose) es ->
  let before := performAll v es s in
  let a := fst (loadGLBOf v (LoadOk g) before) in
  let b := fst (loadGLBOf v (LoadOk g) s) in
  asset a = asset b /\ anim a = anim b
  /\ explodeState (anim a) = Overview
  /\ explodedZoomApplied (zoom a) = false
  /\ scene (rig a) = Some (currentModel (asset a))
  /\ currentModel (asset a) <> None
  /\ snd (loadGLBOf v (LoadOk g) before) = Resolved
  /\ (forall src,
        snd (loadGLBOf v src before) = Rejected ->
        bbox (asset (fst (loadGLBOf v src before))) = bbox (asset before)
        /\ centroid (asset (fst (loadGLBOf v src before))) = centroid (asset before)).
Proof.
  intros Hg Hs Hes before a b.
  destruct (performAll_keeps v es s Hes Hs) as (H1 & H2 & H3). fold before in H1, H2, H3.
  destruct (scene (rig s)) as [shown|] eqn:Es; [|congruence].
  destruct (scene (rig before)) as [shown'|] eqn:Eb; [|congruence].
  assert (Ha : anim a = anim b).
  { unfold a, b. rewrite (loadGLBOf_anim v g before shown' root0 Eb Hg),
      (loadGLBOf_anim v g s shown root0 Es Hg).
    unfold clearedAnim. rewrite H2. reflexivity. }
  split; [|split; [exact Ha|]].
  - unfold a, b. destruct v; simpl; unfold Viewer.loadGLB, Mobile.loadGLB;
      rewrite Es, Eb, Hg; cbn [fst asset pivot]; [|reflexivity].
    rewrite (H3 eq_refl). reflexivity.
  - unfold a. rewrite (loadGLBOf_anim v g before shown' root0 Eb Hg).
    split; [apply loadAnimations_state|].
    assert (Hfail : forall src,
              snd (loadGLBOf v src before) = Rejected ->
              bbox (asset (fst (loadGLBOf v src before))) = bbox (asset before)
              /\ centroid (asset (fst (loadGLBOf v src before)))
                 = centroid (asset before)).
    { intros src. destruct v; simpl; unfold Viewer.loadGLB, Mobile.loadGLB;
        rewrite Eb; (destruct src as [g'|]; [destruct (gltfRoot g')|]);
        cbn [fst snd asset bbox centroid]; try discriminate; auto. }
    assert (Hrest :
              explodedZoomApplied (zoom (fst (loadGLBOf v (LoadOk g) before))) = false
              /\ scene (rig (fst (loadGLBOf v (LoadOk g) before)))
                 = Some (currentModel (asset (fst (loadGLBOf v (LoadOk g) before))))
              /\ currentModel (asset (fst (loadGLBOf v (LoadOk g) before))) <> None
              /\ snd (loadGLBOf v (LoadOk g) before) = Resolved).
    { destruct v; simpl; unfold Viewer.loadGLB, Mobile.loadGLB; rewrite Eb, Hg;
        cbn [fst snd zoom rig scene asset currentModel clearedZoom explodedZoomApplied];
        (split; [reflexivity|]); (split; [reflexivity|]); (split; [discriminate|]);
        reflexivity. }
    destruct Hrest as (R1 & R2 & R3 & R4). auto 6.
Qed.

Lemma X10_load_replaces_witness :
  let es := [SetExplode 1; IsolateIndex (Some 0%Z) None; SetVisibleIndices (Some [1%Z])] in
  let a := fst (loadGLBOf Desktop (LoadOk Sample.bedGLTF)
                  (performAll Desktop es Sample.loaded)) in
  asset a = asset Sample.loaded /\ anim a = anim Sample.loaded.
Proof.
  intros es.
  destruct (X10_load_replaces Desktop Sample.bedGLTF Sample.bed fresh
              (LoadGLB (LoadOk Sample.bedGLTF) :: ResetView :: es) eq_refl)
    as (H1 & H2 & _).
  - discriminate.
  - unfold es. repeat constructor; discriminate.
  - split; [exact H1 | exact H2].
Defined.

(* ===================================================================== *)
(** * Collapsing the exploded view *)
(* ===================================================================== *)

Section Collapse.
Local Open Scope Q_scope.









End Collapse.






(* ===================================================================== *)
(** * Bounding boxes *)
(* ===================================================================== *)

Section Boxes.
Local Open Scope Q_scope.

Lemma vle_refl (a : Vec3) : vle a a.
Proof. destruct a as [[x y] z]. simpl. repeat split; apply Qle_refl. Qed.

Lemma vle_trans (a b c : Vec3) : vle a b -> vle b c -> vle a c.
Proof.
  destruct a as [[ax ay] az], b as [[bx b_y] bz], c as [[cx cy] cz]. simpl.
  intros (H1 & H2 & H3) (H4 & H5 & H6). repeat split; eapply Qle_trans; eauto.
Qed.

Lemma vmin_le (a b : Vec3) : vle (vmin a b) a /\ vle (vmin a b) b.
Proof.
  destruct a as [[ax ay] az], b as [[bx b_y] bz]. simpl.
  repeat split; first [apply Q.le_min_l | apply Q.le_min_r].
Qed.

Lemma vmax_le (a b : Vec3) : vle a (vmax a b) /\ vle b (vmax a b).
Proof.
  destruct a as [[ax ay] az], b as [[bx b_y] bz]. simpl.
  repeat split; first [apply Q.le_max_l | apply Q.le_max_r].
Qed.

Lemma vmin_glb (a b c : Vec3) : vle c a -> vle c b -> vle c (vmin a b).
Proof.
  destruct a as [[ax ay] az], b as [[bx b_y] bz], c as [[cx cy] cz]. simpl.
  intros (H1 & H2 & H3) (H4 & H5 & H6). repeat split; apply Q.min_glb; assumption.
Qed.

Lemma vmax_lub (a b c : Vec3) : vle a c -> vle b c -> vle (vmax a b) c.
Proof.
  destruct a as [[ax ay] az], b as [[bx b_y] bz], c as [[cx cy] cz]. simpl.
  intros (H1 & H2 & H3) (H4 & H5 & H6). repeat split; apply Q.max_lub; assumption.
Qed.

Lemma boxIn_refl (a : Box3) : boxIn a a.
Proof. destruct a as [[lo hi]|]; simpl; [|exact I]. split; apply vle_refl. Qed.

Lemma boxIn_trans (a b c : Box3) : boxIn a b -> boxIn b c -> boxIn a c.
Proof.
  destruct a as [[lo hi]|], b as [[lo' hi']|], c as [[lo'' hi'']|]; simpl; try tauto.
  intros [H1 H2] [H3 H4]. split; eapply vle_trans; eauto.
Qed.

Lemma box_union_l (a b : Box3) : boxIn a (box_union a b).
Proof.
  destruct a as [[lo hi]|], b as [[lo' hi']|]; simpl; try exact I.
  - split; [apply vmin_le | apply vmax_le].
  - split; apply vle_refl.
Qed.

Lemma box_union_r (a b : Box3) : boxIn b (box_union a b).
Proof.
  destruct a as [[lo hi]|], b as [[lo' hi']|]; simpl; try exact I.
  - split; [apply vmin_le | apply vmax_le].
  - split; apply vle_refl.
Qed.

Lemma box_union_lub (a b c : Box3) : boxIn a c -> boxIn b c -> boxIn (box_union a b) c.
Proof.
  destruct a as [[lo hi]|], b as [[lo' hi']|], c as [[lo'' hi'']|]; simpl; try tauto.
  intros [H1 H2] [H3 H4]. split; [apply vmin_glb | apply vmax_lub]; assumption.
Qed.

Lemma fold_boxes_lub (l : list Object3D) (c : Box3) :
  forall b0, boxIn b0 c -> (forall n, In n l -> boxIn (geomBox n) c) ->
    boxIn (fold_left (fun b n => box_union b (geomBox n)) l b0) c.
Proof.
  induction l as [|x l IH]; intros b0 H0 Hl; simpl; [exact H0|].
  apply IH; [|intros n Hn; apply Hl; right; exact Hn].
  apply box_union_lub; [exact H0 | apply Hl; left; reflexivity].
Qed.

Lemma fold_boxes_start (l : list Object3D) :
  forall b0, boxIn b0 (fold_left (fun b n => box_union b (geomBox n)) l b0).
Proof.
  induction l as [|x l IH]; intros b0; simpl; [apply boxIn_refl|].
  eapply boxIn_trans; [apply box_union_l | apply IH].
Qed.

Lemma fold_boxes_member (l : list Object3D) (n : Object3D) :
  forall b0, In n l ->
    boxIn (geomBox n) (fold_left (fun b n => box_union b (geomBox n)) l b0).
Proof.
  induction l as [|x l IH]; intros b0 Hn; [destruct Hn|]. simpl.
  destruct Hn as [->|Hn]; [|apply IH; exact Hn].
  eapply boxIn_trans; [apply box_union_r | apply fold_boxes_start].
Qed.

(** The box of a tree holds the box of every tree made of its nodes. *)
Lemma setFromObject_sub (p root : Object3D) :
  (forall n, In n (traverse p) -> In n (traverse root)) ->
  boxIn (setFromObject p) (setFromObject root).
Proof.
  intros H. unfold setFromObject at 1. apply fold_boxes_lub; [exact I|].
  intros n Hn. apply fold_boxes_member. apply H. exact Hn.
Qed.

Lemma traverse_child (o c n : Object3D) :
  In c (children o) -> In n (traverse c) -> In n (traverse o).
Proof.
  intros Hc Hn. rewrite (traverse_unfold o). right.
  apply in_flat_map. exists c. auto.
Qed.

Lemma setFromObject_boxes (o : Object3D) :
  setFromObject o = fold_left box_union (List.map geomBox (traverse o)) None.
Proof.
  unfold setFromObject. generalize (@None (Vec3 * Vec3)).
  induction (traverse o) as [|n l IH]; intros b; simpl; [reflexivity|]. apply IH.
Qed.

Lemma setFromObject_pass (a : bool) (f : Material -> Material) (p : Object3D) :
  setFromObject (forMeshMaterials f (setVisible a p)) = setFromObject p.
Proof.
  rewrite !setFromObject_boxes. f_equal.
  rewrite forMeshMaterials_traverse, List.map_map.
  rewrite (traverse_unfold (setVisible a p)), (traverse_unfold p).
  assert (E : forall l, List.map (fun x => geomBox (forMeshMaterials f x)) l
                        = List.map geomBox l).
  { intros l. apply List.map_ext. intros x.
    apply (forMeshMaterials_node f x). }
  rewrite E. destruct p; reflexivity.
Qed.

Lemma setFromObject_promote (p : Object3D) :
  setFromObject (Mobile.promoteSectionName p) = setFromObject p.
Proof.
  unfold Mobile.promoteSectionName.
  destruct (if rx_test (trim (name p)) then Some (name p)
            else Mobile.firstSectionName (traverse p)) as [[|c n]|]; try reflexivity.
  rewrite !setFromObject_boxes.
  rewrite (traverse_unfold (setName (c :: n) p)), (traverse_unfold p).
  destruct p; reflexivity.
Qed.

Lemma getCenter_inside (b : Box3) : nonEmptyBox b -> containsPoint b (getCenter b).
Proof.
  destruct b as [[[[x0 y0] z0] [[x1 y1] z1]]|]; simpl; [|tauto].
  intros (Hx & Hy & Hz).
  destruct (Qlt_le_dec x1 x0) as [H|_]; [lra|].
  destruct (Qlt_le_dec y1 y0) as [H|_]; [lra|].
  destruct (Qlt_le_dec z1 z0) as [H|_]; [lra|].
  simpl. repeat split; lra.
Qed.

Lemma containsPoint_mono (a b : Box3) (p : Vec3) :
  boxIn a b -> containsPoint a p -> containsPoint b p.
Proof.
  destruct a as [[lo hi]|], b as [[lo' hi']|]; simpl; try tauto.
  intros [H1 H2] [H3 H4]. split; eapply vle_trans; eauto.
Qed.

Lemma loadGLBOf_boxes (v : Variant) (src : LoaderResult) (s : State) :
  boxesOk (asset s) -> boxesOk (asset (fst (loadGLBOf v src s))).
Proof.
  intros H.
  destruct v; simpl; unfold Viewer.loadGLB, Mobile.loadGLB;
    (destruct (scene (rig s)); [|exact H]);
    (destruct src as [g|]; [|constructor]);
    (destruct (gltfRoot g) as [root0|]; [|constructor]);
    cbv zeta; unfold boxesOk; cbn [fst asset parts bbox];
    apply List.Forall_forall; intros p Hp.
  - apply gatherParts_In in Hp. destruct Hp as [Hp|Hp]; [|discriminate].
    apply setFromObject_sub. intros n Hn. eapply traverse_child; eauto.
  - unfold Mobile.promoteSectionNamesToParts in Hp. apply in_map_iff in Hp.
    destruct Hp as (p0 & <- & Hp0). rewrite setFromObject_promote.
    set (root := Mobile.recenter _ _) in *.
    apply gatherParts_In in Hp0. destruct Hp0 as [Hp0|Hp0].
    + apply setFromObject_sub. intros n Hn.
      rewrite (traverse_unfold (Mobile.mkPivot root)). right. simpl.
      rewrite app_nil_r. eapply traverse_child; eauto.
    + injection Hp0 as <-. apply boxIn_refl.
Qed.

Lemma perform_boxes (v : Variant) (e : Event) (s : State) :
  boxesOk (asset s) -> boxesOk (asset (perform v e s)).
Proof.
  intros H. pose proof (perform_asset v e s) as Hfr.
  destruct e as [src| |t|i d|ix|index|nm found| |dt]; try (rewrite Hfr; exact H).
  - apply loadGLBOf_boxes. exact H.
  - constructor.
  - unfold boxesOk in *. simpl. unfold isolatePart.
    rewrite List.Forall_forall in *. intros p' Hp'.
    apply list_elem_of_In, elem_of_lookup_imap in Hp'.
    destruct Hp' as (k & p & -> & Hp). rewrite setFromObject_pass.
    apply H. apply list_elem_of_In. eapply list_elem_of_lookup_2; eauto.
  - unfold boxesOk in *. simpl. unfold applyVisibilityMask.
    rewrite List.Forall_forall in *. intros p' Hp'.
    apply list_elem_of_In, elem_of_lookup_imap in Hp'.
    destruct Hp' as (k & p & -> & Hp). cbv zeta. rewrite setFromObject_pass.
    apply H. apply list_elem_of_In. eapply list_elem_of_lookup_2; eauto.
Qed.

End Boxes.

(** X14.  Take an asset without animation clips, reached by loads,
    [dispose], [setExplode], [isolateIndex], [setVisibleIndices], the
    orbit-target calls and frames in any order.  Every part lies within the
    bounding box on record for the asset.  So on a viewer with orbit
    controls, focusing a part whose own box is not empty sets the desired
    orbit target to a point of that part's box, and that point lies within
    the bounding box of the asset.  (With clips the mixer moves the parts
    while the bounding box stays as computed at the load.) *)
Theorem X14_part_focus_inside_model (v : Variant) (src : LoaderResult)
    (es : list Event) (i : nat) (p : Object3D) :
  let s := performAll v es (fst (initViewerOf v src)) in
  getAnimations s = [] ->
  nth_error (parts (asset s)) i = Some p ->
  nonEmptyBox (setFromObject p) ->
  controls (rig s) = true ->
  boxIn (setFromObject p) (bbox (asset s))
  /\ mixer (anim s) = false
  /\ (forall t dt, asset (setExplode v t s) = asset s
                   /\ renderFrame dt s = s)
  /\ exists s',
       setOrbitTargetTo (Some (Z.of_nat i)) s = Some s'
       /\ target_desired (rig s') = getCenter (setFromObject p)
       /\ containsPoint (setFromObject p) (target_desired (rig s'))
       /\ containsPoint (bbox (asset s)) (target_desired (rig s')).
Proof.
  intros s Hstill Hp Hbox Hctl.
  assert (H : boxesOk (asset s)).
  { unfold s. apply (performAll_always v (fun st => boxesOk (asset st)));
      [apply perform_boxes|].
    rewrite initViewerOf_asset. apply loadGLBOf_boxes. constructor. }
  assert (Ht : tablesOk (anim s)).
  { unfold s. apply (performAll_always v (fun st => tablesOk (anim st)));
      [apply perform_tables|].
    rewrite initViewerOf_anim. apply loadGLBOf_tables.
    unfold tablesOk. simpl. split; [|split].
    - intros nm. rewrite lookup_empty. split; [intros []|].
      intros [x Hx]. discriminate.
    - intros nm. rewrite !lookup_empty. split; intros [x Hx]; discriminate.
    - split; [discriminate | intros Hn; exfalso; apply Hn; reflexivity]. }
  assert (Hmix : mixer (anim s) = false).
  { destruct Ht as (_ & _ & Hm). unfold getAnimations in Hstill.
    destruct (mixer (anim s)); [|reflexivity].
    exfalso. apply (proj1 Hm); [reflexivity | exact Hstill]. }
  assert (Hin : boxIn (setFromObject p) (bbox (asset s))).
  { unfold boxesOk in H. rewrite List.Forall_forall in H. apply H.
    eapply nth_error_In. exact Hp. }
  split; [exact Hin|]. split; [exact Hmix|]. split.
  { intros t dt. split.
    - apply (perform_asset v (SetExplode t) s).
    - unfold renderFrame. rewrite Hmix. reflexivity. }
  assert (Hlen : (i < length (parts (asset s)))%nat)
    by (apply nth_error_Some; rewrite Hp; discriminate).
  unfold setOrbitTargetTo, getPartWorldCenter. rewrite Hctl. simpl negb. cbv iota.
  destruct (Z.ltb_spec (Z.of_nat i) 0) as [Hneg|_]; [lia|].
  destruct (Z.leb_spec (Z.of_nat (length (parts (asset s)))) (Z.of_nat i))
    as [Hge|_]; [lia|].
  simpl orb. cbv iota. rewrite Nat2Z.id, Hp.
  eexists. split; [reflexivity|]. simpl. split; [reflexivity|].
  pose proof (getCenter_inside _ Hbox) as Hc.
  split; [exact Hc|]. eapply containsPoint_mono; eauto.
Qed.

Lemma X14_part_focus_inside_model_witness :
  let s := performAll Mobile [IsolateIndex (Some 1%Z) None]
             (fst (initViewerOf Mobile (LoadOk Cases.stillBed))) in
  exists s',
    setOrbitTargetTo (Some 1%Z) s = Some s'
    /\ containsPoint (bbox (asset s)) (target_desired (rig s')).
Proof.
  intros s.
  destruct (X14_part_focus_inside_model Mobile (LoadOk Cases.stillBed)
              [IsolateIndex (Some 1%Z) None] 1%nat _ eq_refl eq_refl)
    as (_ & _ & _ & s' & H1 & _ & _ & H4).
  - vm_compute. repeat split; discriminate.
  - reflexivity.
  - exists s'. split; [exact H1 | exact H4].
Defined.

(* ===================================================================== *)
(** * Stages *)
(* ===================================================================== *)

Section Stages.
Local Open Scope Z_scope.

Lemma pick_name_nonempty (idx : nat) (nm : list N) (p : NamedPart) :
  pick idx nm = Some p -> nm <> [].
Proof. intros H E. subst nm. vm_compute in H. discriminate. Qed.

(** A named section points at an existing part and carries the name that
    the viewer reports for it. *)
Lemma namedPart_part (h : State) (p : NamedPart) :
  namesOk (asset h) -> In p (parseNamedParts (getPartNames h)) ->
  (np_index p < partCount h)%nat
  /\ nth_error (getPartNames h) (np_index p) = Some (np_name p)
  /\ np_name p <> [].
Proof.
  intros Hn Hp. apply parseNamedParts_In in Hp. destruct Hp as (nm & Hnm & Hpick).
  pose proof (pick_name_nonempty _ _ _ Hpick) as Hne.
  apply pick_spec in Hpick. destruct Hpick as (E & _ & _). subst nm.
  split; [|auto].
  assert (Hl : (np_index p < length (getPartNames h))%nat)
    by (apply nth_error_Some; rewrite Hnm; discriminate).
  unfold getPartNames, partCount in *. rewrite Hn, length_imap in Hl. exact Hl.
Qed.


Lemma at_index_None {A} (l : list A) (i : Z) :
  i < 0 \/ Z.of_nat (length l) <= i -> at_index l i = None.
Proof.
  intros H. unfold at_index. destruct (Z.ltb_spec i 0); [reflexivity|].
  apply nth_error_None. lia.
Qed.


Lemma setExplode_asset (v : Variant) (t : Q) (h : State) :
  asset (setExplode v t h) = asset h.
Proof. apply (perform_asset v (SetExplode t) h). Qed.

Lemma setExplode_rig (v : Variant) (t : Q) (h : State) :
  rig (setExplode v t h) = rig h.
Proof.
  unfold setExplode.
  destruct (negb (mixer (anim h)) || (size (actions (anim h)) =? 0)%nat);
    [reflexivity|].
  destruct (Qle_bool (clamp01 t) 0); [reflexivity|].
  destruct (Qle_bool 1 (clamp01 t)); reflexivity.
Qed.



End Stages.



Section Overview.
Local Open Scope Z_scope.

Lemma showOverview_events (v : Variant) (h : State) :
  showOverview v h
  = performAll v [SetExplode 0; IsolateIndex None None; SetOrbitTargetTo None] h.
Proof. reflexivity. Qed.

(** Without a mixer the viewer is in the overview state. *)
Lemma perform_rest (v : Variant) (e : Event) (s : State) :
  (mixer (anim s) = false -> explodeState (anim s) = Overview) ->
  mixer (anim (perform v e s)) = false -> explodeState (anim (perform v e s)) = Overview.
Proof.
  intros H. destruct e as [src| |t|i d|ix|index|nm found| |dt]; simpl.
  - destruct v; simpl; unfold Viewer.loadGLB, Mobile.loadGLB;
      (destruct (scene (rig s)); [|exact H]);
      (destruct src as [g|]; [destruct (gltfRoot g)|]);
      cbn [fst anim]; intros _; try apply loadAnimations_state; reflexivity.
  - reflexivity.
  - destruct (setExplode_tables v t s) as (Hm & _). cbv zeta in Hm. rewrite Hm.
    intros Hf. unfold setExplode. rewrite Hf. simpl. apply H. exact Hf.
  - exact H.
  - exact H.
  - destruct (target_calls v (SetOrbitTargetTo index) s) as [E|[t E]];
      simpl in E; rewrite E; exact H.
  - destruct (target_calls v (SetOrbitTargetByName nm found) s) as [E|[t E]];
      simpl in E; rewrite E; exact H.
  - destruct (target_calls v ResetView s) as [E|[t E]];
      simpl in E; rewrite E; exact H.
  - unfold renderFrame. destruct (mixer (anim s)) eqn:Hm; [|intros _; auto].
    intros Hf. simpl in Hf. congruence.
Qed.

Lemma setExplode_zero_state (v : Variant) (h : State) :
  tablesOk (anim h) ->
  (mixer (anim h) = false -> explodeState (anim h) = Overview) ->
  explodeState (anim (setExplode v 0 h)) = Overview.
Proof.
  intros (H1 & _ & H3) Hrest. unfold setExplode.
  destruct (mixer (anim h)) eqn:Hm; simpl negb; simpl orb; [|apply Hrest; reflexivity].
  destruct (size (actions (anim h)) =? 0)%nat eqn:Hsz.
  - exfalso. apply Nat.eqb_eq, map_size_empty_iff in Hsz.
    destruct (clipNames (anim h)) as [|nm l] eqn:E; [apply H3; reflexivity|].
    destruct (proj1 (H1 nm)) as [a Ha]; [rewrite ?E; left; reflexivity|].
    rewrite Hsz, lookup_empty in Ha. discriminate.
  - change (Qle_bool (clamp01 0) 0) with true. reflexivity.
Qed.

End Overview.

(** X16.  The overview stage and the stages that do not exist.  In any
    state the handle can be in, [applyStage] for stage 0 shows every part
    with its materials at their recorded opacity floored at 0.98, leaves the
    viewer in the overview state with the zoom-out off and, on a viewer
    with orbit controls, aims the desired orbit target at the centroid.  For
    a stage index that is negative or not below the number of stages it
    changes nothing. *)
Theorem X16_overview_stage (v : Variant) (src : LoaderResult) (es : list Event)
    (found : option Vec3) (nps : list NamedPart) :
  let h := performAll v es (fst (initViewerOf v src)) in
  let h0 := applyStage v found 0 nps h in
  List.map visible (parts (asset h0)) = List.map (fun _ => true) (parts (asset h))
  /\ List.map partOpacities (parts (asset h0))
     = List.map (fun p => List.map (Double.max (98 # 100)) (partBases p))
         (parts (asset h))
  /\ getPartNames h0 = getPartNames h
  /\ explodeState (anim h0) = Overview
  /\ explodedZoomApplied (zoom h0) = false
  /\ target_desired (rig h0)
     = (if controls (rig h) then centroid (asset h) else target_desired (rig h))
  /\ (forall idx, idx < 0 \/ totalStages nps <= idx ->
                  applyStage v found idx nps h = h).
Proof.
  intros h h0.
  assert (Ht : tablesOk (anim h)).
  { unfold h. apply (performAll_always v (fun st => tablesOk (anim st)));
      [apply perform_tables|].
    rewrite initViewerOf_anim. apply loadGLBOf_tables.
    apply (tablesOk_cleared (anim fresh)). }
  assert (Hr : mixer (anim h) = false -> explodeState (anim h) = Overview).
  { unfold h.
    apply (performAll_always v
             (fun st => mixer (anim st) = false -> explodeState (anim st) = Overview));
      [apply perform_rest|].
    rewrite initViewerOf_anim. intros _.
    destruct v; simpl; unfold Viewer.loadGLB, Mobile.loadGLB; simpl;
      (destruct src as [g|]; [destruct (gltfRoot g)|]); cbn [fst anim];
      try apply loadAnimations_state; reflexivity. }
  assert (Hz : zoomOk h0).
  { unfold h0, applyStage. simpl. rewrite showOverview_events.
    apply performAll_always; [apply perform_zoom|]. unfold h.
    apply performAll_always; [apply perform_zoom | apply initViewerOf_zoom]. }
  set (h1 := setExplode v 0 h).
  set (h2 := isolateIndex v None None h1).
  assert (E0 : h0 = default h2 (setOrbitTargetTo None h2)) by reflexivity.
  assert (Hc : rig h2 = rig h) by (unfold h2, h1; simpl; apply setExplode_rig).
  assert (E1 : h0 = if controls (rig h) then with_target (centroid (asset h2)) h2 else h2).
  { rewrite E0. unfold setOrbitTargetTo. rewrite Hc.
    destruct (controls (rig h)); reflexivity. }
  assert (Hp2 : parts (asset h2) = isolatePart None (defaultDim v) (parts (asset h)))
    by (unfold h2, h1; simpl; rewrite setExplode_asset; reflexivity).
  assert (Hfields : asset h0 = asset h2 /\ anim h0 = anim h1 /\ zoom h0 = zoom h1).
  { rewrite E1. destruct (controls (rig h)); auto. }
  destruct Hfields as (Ha & Hn & Hzz).
  assert (Hst : explodeState (anim h0) = Overview)
    by (rewrite Hn; apply setExplode_zero_state; assumption).
  unfold getPartNames. rewrite Ha, Hp2.
  split; [apply isolatePart_visible|]. split; [apply isolatePart_restore|].
  split; [unfold h2, h1; simpl; rewrite setExplode_asset; reflexivity|].
  split; [exact Hst|].
  split; [unfold zoomOk in Hz; rewrite Hz, Hst; reflexivity|]. split.
  - rewrite E1. destruct (controls (rig h)) eqn:Ec.
    + simpl. unfold h2, h1. simpl. rewrite setExplode_asset. reflexivity.
    + rewrite Hc. reflexivity.
  - intros idx Hidx. unfold applyStage. unfold totalStages in Hidx.
    destruct (Z.eqb_spec idx 0) as [E|_]; [lia|].
    destruct (Z.eqb_spec idx 1) as [E|_]; [lia|].
    rewrite at_index_None by lia. reflexivity.
Qed.

(* ===================================================================== *)
(** * Loading from the front end *)
(* ===================================================================== *)

Section FrontLoads.
Local Open Scope Z_scope.

Lemma startsWith_spec (s p : list N) :
  startsWith s p = true <-> exists r, s = (p ++ r)%list.
Proof.
  revert s. induction p as [|x p IH]; intros s; simpl.
  - split; [intros _; exists s; reflexivity | intros _; destruct s; reflexivity].
  - destruct s as [|c s].
    + simpl. split; [discriminate|]. intros (r & H). discriminate.
    + simpl. rewrite andb_true_iff, N.eqb_eq, IH. split.
      * intros (-> & r & ->). eauto.
      * intros (r & H). injection H as -> ->. eauto.
Qed.

Lemma endsWith_spec (s suffix : list N) :
  endsWith s suffix = true <-> exists stem, s = (stem ++ suffix)%list.
Proof.
  unfold endsWith. rewrite startsWith_spec. split.
  - intros (r & H). exists (rev r).
    rewrite <- (rev_involutive s), H, rev_app_distr, rev_involutive. reflexivity.
  - intros (stem & ->). exists (rev stem). apply rev_app_distr.
Qed.

Lemma endsWith_lower (fileName suffix : list N) :
  endsWith (toLowerCase fileName) suffix = true
  <-> exists stem ext, fileName = (stem ++ ext)%list /\ toLowerCase ext = suffix.
Proof.
  rewrite endsWith_spec. unfold toLowerCase. split.
  - intros (stem' & H). apply map_eq_app in H.
    destruct H as (stem & ext & -> & _ & Hext). eauto.
  - intros (stem & ext & -> & <-). rewrite List.map_app. eauto.
Qed.

Lemma isModelName_spec (fileName : list N) :
  endsWith (toLowerCase fileName) (str ".glb")
  || endsWith (toLowerCase fileName) (str ".gltf") = true
  <-> isModelName fileName.
Proof.
  rewrite orb_true_iff, !endsWith_lower. unfold isModelName. split.
  - intros [(stem & ext & H1 & H2)|(stem & ext & H1 & H2)]; exists stem, ext; auto.
  - intros (stem & ext & H1 & [H2|H2]); [left|right]; eauto.
Qed.

(** A load that fails on a viewer with a scene. *)
Lemma loadGLBOf_failed (v : Variant) (src : LoaderResult) (h : State) :
  scene (rig h) <> None ->
  (src = LoadError \/ exists g, src = LoadOk g /\ gltfRoot g = None) ->
  exists h', loadGLBOf v src h = (h', Rejected)
             /\ parts (asset h') = [] /\ partNames (asset h') = []
             /\ rig h' = mkRig (scene (rig h')) (camera (rig h)) (controls (rig h))
                           (target_desired (rig h)).
Proof.
  intros Hs Hsrc. destruct (scene (rig h)) as [shown|] eqn:Es; [|congruence].
  destruct Hsrc as [->|(g & -> & Hg)];
    destruct v; simpl; unfold Viewer.loadGLB, Mobile.loadGLB; rewrite Es, ?Hg;
    eexists; (split; [reflexivity|]); auto.
Qed.

Lemma loadGLBOf_loaded (v : Variant) (g : GLTF) (root0 : Object3D) (h : State) :
  scene (rig h) <> None -> gltfRoot g = Some root0 ->
  exists h', loadGLBOf v (LoadOk g) h = (h', Resolved)
             /\ namesOk (asset h')
             /\ controls (rig h') = controls (rig h)
             /\ anim h' = loadAnimations (gltf_animations g) (clearedAnim (anim h))
             /\ explodedZoomApplied (zoom h') = false
             /\ centroid (asset h') = getCenter (bbox (asset h')).
Proof.
  intros Hs Hg. destruct (scene (rig h)) as [shown|] eqn:Es; [|congruence].
  destruct v; simpl; unfold Viewer.loadGLB, Mobile.loadGLB; rewrite Es, Hg;
    eexists; (split; [reflexivity|]); repeat split.
Qed.

End FrontLoads.

(** X17.  A load that fails leaves the front end with the sections of the
    asset it removed.  When the picked file cannot be read, or holds no
    scene, the status tells of the failure while the section list and the
    stage stay as they were; the viewer behind the handle has no parts and
    reports no names, so that a section stage applied after this shows and
    dims nothing.  A dropped file with a model extension fares the same. *)
Theorem X17_failed_load_keeps_sections (v : Variant) (src : LoaderResult)
    (a : Component) (h : State) :
  handle a = Some h -> scene (rig h) <> None ->
  (src = LoadError \/ exists g, src = LoadOk g /\ gltfRoot g = None) ->
  let a' := onPickGLB v (Some src) a in
  status a' = FailedToLoad
  /\ namedParts a' = namedParts a /\ curStage a' = curStage a
  /\ (exists h',
        handle a' = Some h'
        /\ partCount h' = 0%nat /\ getPartNames h' = []
        /\ parseNamedParts (getPartNames h') = []
        /\ forall found idx,
             parts (asset (applyStage v found idx (namedParts a') h')) = [])
  /\ (forall fileName url,
        isModelName fileName -> onDrop v (Some (fileName, src)) url a = a').
Proof.
  intros Hh Hs Hsrc a'.
  destruct (loadGLBOf_failed v src h Hs Hsrc) as (h' & Hl & Hp & Hn & _).
  assert (Ea : a' = mkComponent (Some h') (namedParts a) (curStage a) FailedToLoad
                      (usdzHref a)).
  { unfold a', onPickGLB. rewrite Hh, Hl. reflexivity. }
  split; [rewrite Ea; reflexivity|]. split; [rewrite Ea; reflexivity|].
  split; [rewrite Ea; reflexivity|]. split.
  - exists h'. rewrite Ea. cbn [handle namedParts].
    split; [reflexivity|]. unfold partCount, getPartNames. rewrite Hp, Hn.
    split; [reflexivity|]. split; [reflexivity|]. split; [reflexivity|].
    intros found idx. unfold applyStage, showOverview.
    assert (Hiso : forall i d st, parts (asset st) = [] ->
              parts (asset (isolateIndex v i d st)) = []).
    { intros i d st E. unfold isolateIndex. simpl. rewrite E. reflexivity. }
    assert (Hex : forall t, parts (asset (setExplode v t h')) = [])
      by (intros t; rewrite setExplode_asset; exact Hp).
    assert (Htg : forall e st, parts (asset st) = [] ->
              match e with
              | SetOrbitTargetTo _ | SetOrbitTargetByName _ _ =>
                  parts (asset (perform v e st)) = []
              | _ => True
              end).
    { intros e st E. pose proof (perform_asset v e st) as Hfr.
      destruct e; auto; rewrite Hfr; exact E. }
    destruct (idx =? 0); [apply (Htg (SetOrbitTargetTo None)); auto|].
    destruct (idx =? 1); [apply (Htg (SetOrbitTargetTo None)); auto|].
    destruct (at_index (namedParts a) (idx - 2)) as [p|]; [|exact Hp].
    apply (Htg (SetOrbitTargetByName (Some (np_name p)) found)). auto.
  - intros fileName url Hm. unfold a', onDrop, onPickGLB. rewrite Hh.
    apply isModelName_spec in Hm. unfold toLowerCase in *. rewrite Hm. reflexivity.
Qed.

Lemma X17_failed_load_keeps_sections_witness :
  let a := mkComponent (Some Sample.loaded)
             (parseNamedParts (getPartNames Sample.loaded)) 2 ModelLoaded [] in
  let a' := onPickGLB Desktop (Some (LoadOk Sample.noSceneGLTF)) a in
  status a' = FailedToLoad
  /\ namedParts a' = [mkNamedPart (str "sec 1") 0 1]
  /\ curStage a' = 2
  /\ exists h', handle a' = Some h' /\ partCount h' = 0%nat.
Proof.
  intros a a'.
  destruct (X17_failed_load_keeps_sections Desktop (LoadOk Sample.noSceneGLTF) a
              Sample.loaded eq_refl) as (H1 & H2 & H3 & (h' & H4 & H5 & _) & _).
  - discriminate.
  - right. exists Sample.noSceneGLTF. split; reflexivity.
  - split; [exact H1|].
    split; [transitivity (namedParts a); [exact H2 | vm_compute; reflexivity]|].
    split; [exact H3|]. exists h'. split; assumption.
Defined.

(** X18.  A load that succeeds from the front end.  After a picked file has
    loaded, the status says so, the stage is 0 and the section list is read
    from the names of the new asset; every section points at one of its
    parts.  Every part is shown with its materials at their recorded opacity
    floored at 0.98, the viewer is in the overview state with the zoom-out
    off and, with orbit controls, the desired orbit target is the center of
    the new bounding box.  A dropped file with a model extension fares the
    same. *)
Theorem X18_load_from_front_end (v : Variant) (g : GLTF) (root0 : Object3D)
    (a : Component) (h : State) :
  handle a = Some h -> scene (rig h) <> None -> gltfRoot g = Some root0 ->
  let a' := onPickGLB v (Some (LoadOk g)) a in
  status a' = ModelLoaded /\ curStage a' = 0
  /\ (exists h',
        handle a' = Some h'
        /\ namedParts a' = parseNamedParts (getPartNames h')
        /\ Forall (fun p => (np_index p < partCount h')%nat
                            /\ nth_error (getPartNames h') (np_index p)
                               = Some (np_name p)) (namedParts a')
        /\ Forall (fun p => visible p = true
                            /\ partOpacities p
                               = List.map (Double.max (98 # 100)) (partBases p))
             (parts (asset h'))
        /\ explodeState (anim h') = Overview
        /\ explodedZoomApplied (zoom h') = false
        /\ (controls (rig h) = true ->
            target_desired (rig h') = getCenter (bbox (asset h'))))
  /\ (forall fileName url,
        isModelName fileName -> onDrop v (Some (fileName, LoadOk g)) url a = a').
Proof.
  intros Hh Hs Hg a'.
  destruct (loadGLBOf_loaded v g root0 h Hs Hg) as (h1 & Hl & Hn & Hc & Han & Hz & Hcen).
  assert (Ea : a' = mkComponent (Some (showOverview v h1))
                      (parseNamedParts (getPartNames h1)) 0 ModelLoaded (usdzHref a)).
  { unfold a', onPickGLB. rewrite Hh, Hl. reflexivity. }
  split; [rewrite Ea; reflexivity|]. split; [rewrite Ea; reflexivity|]. split.
  - exists (showOverview v h1). rewrite Ea. cbn [handle namedParts].
    split; [reflexivity|].
    set (h2 := setExplode v 0 h1).
    set (h3 := isolateIndex v None None h2).
    assert (Hr3 : rig h3 = rig h1) by (unfold h3, h2; simpl; apply setExplode_rig).
    assert (E : showOverview v h1
                = if controls (rig h1) then with_target (centroid (asset h3)) h3 else h3).
    { unfold showOverview. fold h2. fold h3. unfold setOrbitTargetTo. rewrite Hr3.
      destruct (controls (rig h1)); reflexivity. }
    assert (Hp3 : parts (asset h3) = isolatePart None (defaultDim v) (parts (asset h1)))
      by (unfold h3, h2; simpl; rewrite setExplode_asset; reflexivity).
    assert (Hn3 : partNames (asset h3) = partNames (asset h1))
      by (unfold h3, h2; simpl; rewrite setExplode_asset; reflexivity).
    assert (Hb3 : bbox (asset h3) = bbox (asset h1)
                  /\ centroid (asset h3) = centroid (asset h1))
      by (unfold h3, h2; simpl; rewrite setExplode_asset; auto).
    assert (Hf : asset (showOverview v h1) = asset h3
                 /\ anim (showOverview v h1) = anim h2
                 /\ zoom (showOverview v h1) = zoom h2)
      by (rewrite E; destruct (controls (rig h1)); auto).
    destruct Hf as (Fa & Fn & Fz).
    assert (Hnames : getPartNames (showOverview v h1) = getPartNames h1)
      by (unfold getPartNames; rewrite Fa; exact Hn3).
    assert (Hcount : partCount (showOverview v h1) = partCount h1).
    { unfold partCount. rewrite Fa, Hp3. unfold isolatePart. apply length_imap. }
    rewrite Hnames. split; [reflexivity|]. split.
    { apply List.Forall_forall. intros p Hp. rewrite Hcount.
      destruct (namedPart_part h1 p Hn Hp) as (H1 & H2 & _). auto. }
    split.
    { rewrite Fa, Hp3. apply List.Forall_forall. intros p' Hp'.
      unfold isolatePart in Hp'.
      apply list_elem_of_In, elem_of_lookup_imap in Hp'.
      destruct Hp' as (i & p & -> & _).
      destruct (isolated_part (isKept None i) (clampDim (defaultDim v)) p)
        as (Hv & _ & Hm).
      split; [exact Hv|]. unfold partOpacities, partBases. rewrite Hm.
      rewrite !List.map_map. reflexivity. }
    assert (Hst : explodeState (anim h2) = Overview).
    { unfold h2. apply setExplode_zero_state.
      - rewrite Han. apply loadAnimations_tablesOk.
      - intros _. rewrite Han. apply loadAnimations_state. }
    split; [rewrite Fn; exact Hst|]. split.
    { rewrite Fz.
      assert (Hzk : zoomOk h1)
        by (unfold zoomOk; rewrite Hz, Han, loadAnimations_state; reflexivity).
      pose proof (setExplode_zoom v 0 h1 Hzk) as Hz2. fold h2 in Hz2.
      unfold zoomOk in Hz2. rewrite Hz2, Hst. reflexivity. }
    intros Hctl. rewrite E, Hc, Hctl.
    change (centroid (asset h3) = getCenter (bbox (asset h3))).
    destruct Hb3 as [-> ->]. exact Hcen.
  - intros fileName url Hm. unfold a', onDrop, onPickGLB. rewrite Hh.
    apply isModelName_spec in Hm. unfold toLowerCase in *. rewrite Hm. reflexivity.
Qed.

Lemma X18_load_from_front_end_witness :
  let a := mkComponent (Some (fst (initViewerOf Desktop (LoadOk Sample.noSceneGLTF))))
             [] 0 DropOrPick [] in
  let a' := onPickGLB Desktop (Some (LoadOk Sample.bedGLTF)) a in
  status a' = ModelLoaded
  /\ namedParts a' = [mkNamedPart (str "sec 1") 0 1].
Proof.
  intros a a'.
  destruct (X18_load_from_front_end Desktop Sample.bedGLTF Sample.bed a
              (fst (initViewerOf Desktop (LoadOk Sample.noSceneGLTF))) eq_refl)
    as (H1 & _ & (h' & _ & H3 & _) & _).
  - discriminate.
  - reflexivity.
  - split; [exact H1|]. vm_compute. reflexivity.
Defined.

(** X19.  What a dropped file does is decided by its name alone, without
    regard to letter case.  A name that ends in .glb or .gltf goes to the
    loader as a picked file does.  Any other name never reaches the viewer:
    the handle, the section list and the stage stay as they are; a name
    that ends in .usdz makes the object URL of the file the Quick Look
    target, and every other name is reported as unsupported. *)
Theorem X19_drop_by_extension (v : Variant) (fileName : list N) (src : LoaderResult)
    (url : list N) (a : Component) (h : State) :
  handle a = Some h ->
  let a' := onDrop v (Some (fileName, src)) url a in
  (isModelName fileName -> a' = onPickGLB v (Some src) a)
  /\ (~ isModelName fileName ->
      handle a' = handle a /\ namedParts a' = namedParts a
      /\ curStage a' = curStage a
      /\ ((exists stem ext, fileName = (stem ++ ext)%list
                            /\ toLowerCase ext = str ".usdz")
          -> status a' = UsdzReady /\ usdzHref a' = url)
      /\ (~ (exists stem ext, fileName = (stem ++ ext)%list
                              /\ toLowerCase ext = str ".usdz")
          -> status a' = UnsupportedFile /\ usdzHref a' = usdzHref a)).
Proof.
  intros Hh a'. unfold a', onDrop, onPickGLB. rewrite Hh. cbv zeta.
  pose proof (isModelName_spec fileName) as Hm.
  pose proof (endsWith_lower fileName (str ".usdz")) as Hu.
  destruct (endsWith (toLowerCase fileName) (str ".glb")
            || endsWith (toLowerCase fileName) (str ".gltf")) eqn:Em.
  - split; [reflexivity|]. intros Hn. exfalso. apply Hn, Hm. reflexivity.
  - split; [intros H; apply Hm in H; discriminate|]. intros _.
    destruct (endsWith (toLowerCase fileName) (str ".usdz")) eqn:Eu;
      cbn [handle namedParts curStage status usdzHref].
    + do 3 (split; [reflexivity|]). split; [intros _; split; reflexivity|].
      intros Hn. exfalso. apply Hn, Hu. reflexivity.
    + do 3 (split; [reflexivity|]). split; [|intros _; split; reflexivity].
      intros H. apply Hu in H. discriminate.
Qed.

Lemma X19_drop_by_extension_witness :
  let a := mkComponent (Some Sample.loaded) [] 0 ModelLoaded [] in
  onDrop Desktop (Some (str "Bed.GLB", LoadError)) [] a
  = onPickGLB Desktop (Some LoadError) a.
Proof.
  intros a.
  apply (X19_drop_by_extension Desktop (str "Bed.GLB") LoadError [] a Sample.loaded
           eq_refl).
  exists (str "Bed"), (str ".GLB"). split; [reflexivity | left; reflexivity].
Defined.

(* ===================================================================== *)
(** * Swipes *)
(* ===================================================================== *)

Section Swipes.
Local Open Scope Q_scope.

Lemma isSwipe_true (dx dy dt : Q) :
  isSwipe dx dy dt = true
  <-> V_THRESH < Qabs dy /\ ANGLE_DOMINANCE * Qabs dx < Qabs dy /\ dt < TIME_MAX.
Proof.
  unfold isSwipe.
  destruct (Qlt_le_dec V_THRESH (Qabs dy)) as [H1|H1];
    destruct (Qlt_le_dec (ANGLE_DOMINANCE * Qabs dx) (Qabs dy)) as [H2|H2];
    destruct (Qlt_le_dec dt TIME_MAX) as [H3|H3]; simpl;
    (split; [try discriminate; auto | intros (G1 & G2 & G3); try reflexivity]);
    exfalso; first [ apply (Qlt_not_le _ _ G1); exact H1
                   | apply (Qlt_not_le _ _ G2); exact H2
                   | apply (Qlt_not_le _ _ G3); exact H3 ].
Qed.

Lemma onTouchEnd_idle (total : Z) (now : Q) (e : TouchEvent) (a : SwipeState) :
  touchStart a = None -> swipeStage (onTouchEnd total now e a) = swipeStage a.
Proof. intros H. unfold onTouchEnd. rewrite H. reflexivity. Qed.

End Swipes.

(** X20.  A swipe, from the finger going down to its lifting.  With the
    start recorded from a single touch at time [t0] and the first changed
    touch of the end event at time [t1], the stage changes only when the
    finger moved more than 44 vertically, more than one and a half times
    as far as horizontally, in under 600 ms; then a move up goes to the
    next stage and a move down to the previous one.  The end forgets the
    start, so that a further end or cancel changes nothing, and an end
    without a changed touch never changes the stage.  A second finger going
    down in between does not cancel the swipe: the end is judged against
    the start of the first finger as before. *)
Theorem X20_swipe (total : Z) (t0 t1 : Q) (p q : Point)
    (ch rest more : list Point) (a : SwipeState) :
  let a1 := onTouchStart t0 (mkTouchEvent [p] ch) a in
  let ending := mkTouchEvent rest (q :: more) in
  let a2 := onTouchEnd total t1 ending a1 in
  let dx := (clientX q - clientX p)%Q in
  let dy := (clientY q - clientY p)%Q in
  let swiped := (44 < Qabs dy /\ (15 # 10) * Qabs dx < Qabs dy /\ t1 - t0 < 600)%Q in
  (swiped -> (dy < 0)%Q -> swipeStage a2 = nextStage total (swipeStage a))
  /\ (swiped -> (0 < dy)%Q -> swipeStage a2 = prevStage total (swipeStage a))
  /\ (~ swiped -> swipeStage a2 = swipeStage a)
  /\ touchStart a2 = None
  /\ (forall total' t e,
        swipeStage (onTouchEnd total' t e a2) = swipeStage a2)
  /\ swipeStage (onTouchEnd total t1 (mkTouchEvent rest []) a1) = swipeStage a
  /\ (forall t x y ch',
        let a1' := onTouchStart t (mkTouchEvent [x; y] ch') a1 in
        pinchActive a1' = true
        /\ swipeStage (onTouchEnd total t1 ending a1') = swipeStage a2).
Proof.
  intros a1 ending a2 dx dy swiped.
  assert (E : swipeStage a2
              = if isSwipe dx dy (t1 - t0)
                then if Qlt_le_dec dy 0 then nextStage total (swipeStage a)
                     else prevStage total (swipeStage a)
                else swipeStage a) by reflexivity.
  pose proof (isSwipe_true dx dy (t1 - t0)) as Hs.
  change (isSwipe dx dy (t1 - t0) = true <-> swiped) in Hs.
  split; [|split; [|split; [|split; [|split; [|split]]]]].
  - intros Hsw Hdy. apply Hs in Hsw. rewrite E, Hsw.
    destruct (Qlt_le_dec dy 0) as [_|Hge]; [reflexivity|].
    exfalso. apply (Qlt_not_le _ _ Hdy). exact Hge.
  - intros Hsw Hdy. apply Hs in Hsw. rewrite E, Hsw.
    destruct (Qlt_le_dec dy 0) as [Hlt|_]; [|reflexivity].
    exfalso. apply (Qlt_irrefl 0). apply Qlt_trans with dy; assumption.
  - intros Hn. rewrite E. destruct (isSwipe dx dy (t1 - t0)); [|reflexivity].
    exfalso. apply Hn, Hs. reflexivity.
  - reflexivity.
  - intros total' t e. apply onTouchEnd_idle. reflexivity.
  - assert (H0 : isSwipe (clientX p - clientX p) (clientY p - clientY p) (t1 - t0) = false).
    { clear. destruct (isSwipe (clientX p - clientX p) (clientY p - clientY p) (t1 - t0))
        eqn:Ei; [|reflexivity].
      apply isSwipe_true in Ei. destruct Ei as (H1 & _). exfalso.
      assert (Hz : Qabs (clientY p - clientY p) == 0).
      { assert (Hq : clientY p - clientY p == 0) by ring. rewrite Hq. reflexivity. }
      rewrite Hz in H1. revert H1. unfold V_THRESH. intros H1. inversion H1. }
    transitivity
      (if isSwipe (clientX p - clientX p) (clientY p - clientY p) (t1 - t0)
       then if Qlt_le_dec (clientY p - clientY p) 0
            then nextStage total (swipeStage a)
            else prevStage total (swipeStage a)
       else swipeStage a); [reflexivity|].
    rewrite H0. reflexivity.
  - intros t x y ch'. split; reflexivity.
Qed.

(* ===================================================================== *)
(** * The radial menu *)
(* ===================================================================== *)

Section RadialMenu.
Local Open Scope Z_scope.

Lemma imap_stage_seq (f : nat -> NamedPart -> list N) (l : list NamedPart) (b : nat) :
  List.map itemStage
    (imap (fun idx p => mkItem (f idx p) (Z.of_nat b + Z.of_nat idx)) l)
  = List.map Z.of_nat (seq b (length l)).
Proof.
  revert f b. induction l as [|x l IH]; intros f b; [reflexivity|].
  rewrite imap_cons. cbn [List.map length seq itemStage]. f_equal; [lia|].
  rewrite <- (IH (fun i => f (S i)) (S b)). f_equal.
  apply imap_ext. intros i y _. unfold compose. f_equal. lia.
Qed.

Lemma menuItems_stages (parts : list NamedPart) :
  List.map itemStage (menuItems parts)
  = List.map Z.of_nat (seq 0 (2 + length parts)).
Proof.
  unfold menuItems. rewrite List.map_app.
  change (seq 0 (2 + length parts)) with (0 :: 1 :: seq 2 (length parts))%nat.
  cbn [List.map app itemStage]. do 2 f_equal.
  exact (imap_stage_seq
           (fun idx p => match np_name p with
                         | [] => (str "Section " ++ digitsOfNat (idx + 1))%list
                         | n => n
                         end) parts 2).
Qed.

Lemma menuItems_length (parts : list NamedPart) :
  Z.of_nat (length (menuItems parts)) = totalStages parts.
Proof.
  rewrite <- (List.length_map itemStage), menuItems_stages, List.length_map, length_seq.
  unfold totalStages. lia.
Qed.

Lemma sliceCount_total (parts : list NamedPart) :
  sliceCount parts = totalStages parts.
Proof.
  unfold sliceCount. rewrite menuItems_length. unfold totalStages. lia.
Qed.

Lemma loop_loopIndex (i n : Z) : 0 < n -> loop i n = loopIndex n i.
Proof.
  intros Hn. unfold loop, loopIndex.
  destruct (Z.leb_spec n 0); [lia | reflexivity].
Qed.

Lemma findIndexFrom_map {A B} (g : A -> B) (f : B -> bool) (l : list A) (i : Z) :
  findIndexFrom (fun x => f (g x)) l i = findIndexFrom f (List.map g l) i.
Proof.
  revert i. induction l as [|x l IH]; intros i; [reflexivity|].
  simpl. destruct (f (g x)); [reflexivity | apply IH].
Qed.

Lemma findIndexFrom_seq (c : Z) (n b : nat) (i : Z) :
  findIndexFrom (fun z => z =? c) (List.map Z.of_nat (seq b n)) i
  = if (Z.of_nat b <=? c) && (c <? Z.of_nat (b + n)) then i + (c - Z.of_nat b)
    else -1.
Proof.
  revert b i. induction n as [|n IH]; intros b i.
  - simpl. destruct (Z.leb_spec (Z.of_nat b) c), (Z.ltb_spec c (Z.of_nat (b + 0)));
      simpl; try reflexivity. lia.
  - cbn [seq List.map findIndexFrom]. destruct (Z.eqb_spec (Z.of_nat b) c) as [E|E].
    + destruct (Z.leb_spec (Z.of_nat b) c), (Z.ltb_spec c (Z.of_nat (b + S n)));
        simpl; lia.
    + rewrite IH.
      destruct (Z.leb_spec (Z.of_nat (S b)) c), (Z.ltb_spec c (Z.of_nat (S b + n))),
        (Z.leb_spec (Z.of_nat b) c), (Z.ltb_spec c (Z.of_nat (b + S n)));
        simpl; lia.
Qed.

Lemma findIndex_stage (parts : list NamedPart) (c : Z) :
  findIndex (fun m => itemStage m =? c) (menuItems parts)
  = if (0 <=? c) && (c <? totalStages parts) then c else -1.
Proof.
  unfold findIndex.
  rewrite (findIndexFrom_map itemStage (fun z => z =? c)), menuItems_stages,
    findIndexFrom_seq.
  unfold totalStages. change (Z.of_nat 0) with 0.
  replace (Z.of_nat (0 + (2 + length parts))) with (2 + Z.of_nat (length parts)) by lia.
  destruct ((0 <=? c) && (c <? 2 + Z.of_nat (length parts))); lia.
Qed.

Lemma selectItem_in_range (parts : list NamedPart) (k : Z) :
  0 <= k < totalStages parts -> selectItem parts k = Selects k.
Proof.
  intros Hk. unfold selectItem, at_index.
  destruct (Z.ltb_spec k 0) as [|_]; [lia|].
  assert (H : nth_error (List.map itemStage (menuItems parts)) (Z.to_nat k) = Some k).
  { rewrite menuItems_stages, nth_error_map, nth_error_seq.
    unfold totalStages in Hk.
    destruct (Nat.ltb_spec (Z.to_nat k) (2 + length parts)) as [_|]; [|lia].
    simpl. f_equal. lia. }
  rewrite nth_error_map in H.
  destruct (nth_error (menuItems parts) (Z.to_nat k)) as [m|]; [|discriminate].
  simpl in H. congruence.
Qed.

Lemma activeIdx_spec (parts : list NamedPart) (c : Z) :
  activeIdx parts c
  = if (0 <=? c) && (c <? totalStages parts) then c else totalStages parts - 1.
Proof.
  pose proof (totalStages_pos parts) as Hpos.
  unfold activeIdx. rewrite findIndex_stage, sliceCount_total, loop_loopIndex by lia.
  rewrite loopIndex_mod by lia.
  destruct (Z.leb_spec 0 c), (Z.ltb_spec c (totalStages parts)); simpl.
  - apply Z.mod_small. lia.
  - replace (-1) with (totalStages parts - 1 + (-1) * totalStages parts) by ring.
    rewrite Z.mod_add by lia. apply Z.mod_small. lia.
  - replace (-1) with (totalStages parts - 1 + (-1) * totalStages parts) by ring.
    rewrite Z.mod_add by lia. apply Z.mod_small. lia.
  - replace (-1) with (totalStages parts - 1 + (-1) * totalStages parts) by ring.
    rewrite Z.mod_add by lia. apply Z.mod_small. lia.
Qed.

End RadialMenu.

(** X21.  The radial menu moves through the stages as the wheel and the
    swipes do.  With the current stage among the stages of the section
    list, a tap on the right zone selects the next stage and a tap on the
    left zone the previous one, with wrap-around, and a release after a
    drag of [steps] slices selects the stage [steps] before, or nothing for
    no slice.  With any other current stage the menu takes its last item
    as the active one.  No tap or release reads a missing item. *)
Theorem X21_radial_steps (parts : list NamedPart) (currentStage : Z) :
  let total := totalStages parts in
  (0 <= currentStage < total ->
     stepNext parts currentStage = Selects (nextStage total currentStage)
     /\ stepPrev parts currentStage = Selects (prevStage total currentStage)
     /\ forall steps,
          onPointerUp parts currentStage steps
          = if steps =? 0 then Nothing
            else Selects (loopIndex total (currentStage - steps)))
  /\ (~ 0 <= currentStage < total ->
        activeIdx parts currentStage = total - 1
        /\ stepNext parts currentStage = Selects 0
        /\ stepPrev parts currentStage = Selects (total - 2))
  /\ stepNext parts currentStage <> Throws
  /\ stepPrev parts currentStage <> Throws
  /\ forall steps, onPointerUp parts currentStage steps <> Throws.
Proof.
  intros total. pose proof (totalStages_pos parts) as Hpos. fold total in Hpos.
  assert (Hsel : forall i, selectItem parts (loop i (sliceCount parts))
                           = Selects (loopIndex total i)).
  { intros i. rewrite sliceCount_total, loop_loopIndex by (fold total; lia).
    apply selectItem_in_range. apply loopIndex_range. fold total. lia. }
  assert (Hup : forall steps,
            onPointerUp parts currentStage steps
            = if steps =? 0 then Nothing
              else Selects (loopIndex total (activeIdx parts currentStage - steps))).
  { intros steps. unfold onPointerUp. destruct (steps =? 0); simpl; [reflexivity|].
    apply Hsel. }
  split; [|split; [|split; [|split]]].
  - intros Hc.
    assert (Ha : activeIdx parts currentStage = currentStage).
    { rewrite activeIdx_spec. fold total.
      destruct (Z.leb_spec 0 currentStage), (Z.ltb_spec currentStage total);
        simpl; lia. }
    split; [|split].
    + unfold stepNext. rewrite Hsel, Ha. reflexivity.
    + unfold stepPrev. rewrite Hsel, Ha. reflexivity.
    + intros steps. rewrite Hup, Ha. reflexivity.
  - intros Hc.
    assert (Ha : activeIdx parts currentStage = total - 1).
    { rewrite activeIdx_spec. fold total.
      destruct (Z.leb_spec 0 currentStage), (Z.ltb_spec currentStage total);
        simpl; lia. }
    split; [exact Ha|]. split.
    + unfold stepNext. rewrite Hsel, Ha. f_equal.
      rewrite loopIndex_mod by lia.
      replace (total - 1 + 1) with (0 + 1 * total) by ring.
      rewrite Z.mod_add by lia. apply Z.mod_small. lia.
    + unfold stepPrev. rewrite Hsel, Ha. f_equal.
      rewrite loopIndex_mod by lia. rewrite Z.mod_small; lia.
  - unfold stepNext. rewrite Hsel. discriminate.
  - unfold stepPrev. rewrite Hsel. discriminate.
  - intros steps. rewrite Hup. destruct (steps =? 0); discriminate.
Qed.

(** X22.  A shortened label fits.  For a limit of at least one code unit,
    [shorten] returns the label itself when it is no longer than the
    limit, and otherwise its first [n - 1] code units followed by the
    ellipsis, which is [n] code units in all. *)
Theorem X22_shorten_fits (s : list N) (n : Z) :
  1 <= n ->
  Z.of_nat (length (shorten s n)) = Z.min (Z.of_nat (length s)) n
  /\ (Z.of_nat (length s) <= n -> shorten s n = s)
  /\ (n < Z.of_nat (length s) ->
      shorten s n = (firstn (Z.to_nat (n - 1)) s ++ [8230%N])%list).
Proof.
  intros Hn. unfold shorten, slice0.
  destruct (Z.gtb_spec (Z.of_nat (length s)) n) as [Hgt|Hle].
  - destruct (Z.ltb_spec (n - 1) 0) as [|_]; [lia|].
    rewrite Z.min_l by lia. split; [|split].
    + rewrite length_app, length_firstn. simpl. lia.
    + lia.
    + reflexivity.
  - split; [lia|]. split; [reflexivity | lia].
Qed.

Lemma X22_shorten_fits_witness :
  Z.of_nat (length (shorten (str "Pocket spring layer") 16)) = 16.
Proof.
  exact (proj1 (X22_shorten_fits (str "Pocket spring layer") 16 ltac:(lia))).
Defined.

(* ===================================================================== *)
(** * The centroid on record *)
(* ===================================================================== *)

Section Centroid.

Lemma loadGLBOf_centroid (v : Variant) (src : LoaderResult) (s : State) :
  centroid (asset s) = getCenter (bbox (asset s)) ->
  centroid (asset (fst (loadGLBOf v src s)))
  = getCenter (bbox (asset (fst (loadGLBOf v src s)))).
Proof.
  intros H.
  destruct v; simpl; unfold Viewer.loadGLB, Mobile.loadGLB;
    (destruct (scene (rig s)); [|exact H]);
    (destruct src as [g|]; [|exact H]);
    (destruct (gltfRoot g) as [root0|]; [|exact H]); reflexivity.
Qed.

Lemma perform_centroid (v : Variant) (e : Event) (s : State) :
  centroid (asset s) = getCenter (bbox (asset s)) ->
  centroid (asset (perform v e s)) = getCenter (bbox (asset (perform v e s))).
Proof.
  intros H. pose proof (perform_asset v e s) as Hfr.
  destruct e as [src| |t|i d|ix|index|nm found| |dt]; try (rewrite Hfr; exact H).
  - apply loadGLBOf_centroid. exact H.
  - exact H.
  - exact H.
  - exact H.
Qed.

End Centroid.

(** X23.  Whatever is done through the handle, also after a load that
    failed or a [dispose], the centroid on record is the center of the
    bounding box on record, the origin while that box is empty.  So on a
    viewer with orbit controls [resetView], [setOrbitTargetTo(null)] and
    [setOrbitTargetByName] with null or the empty name all aim the desired
    orbit target at the center of that box, as does [setOrbitTargetTo]
    with an index that no part has. *)
Theorem X23_centroid_is_box_center (v : Variant) (src : LoaderResult)
    (es : list Event) :
  let s := performAll v es (fst (initViewerOf v src)) in
  let center := getCenter (bbox (asset s)) in
  centroid (asset s) = center
  /\ (bbox (asset s) = None -> center = vzero)
  /\ (controls (rig s) = true ->
      target_desired (rig (resetView s)) = center
      /\ (forall found,
            setOrbitTargetByName None found s = (with_target center s, true)
            /\ setOrbitTargetByName (Some []) found s = (with_target center s, true))
      /\ setOrbitTargetTo None s = Some (with_target center s)
      /\ (forall i, (i < 0 \/ Z.of_nat (partCount s) <= i)%Z ->
                    setOrbitTargetTo (Some i) s = Some (with_target center s))).
Proof.
  intros s center.
  assert (Hc : centroid (asset s) = center).
  { unfold center, s. apply (performAll_always v
      (fun st => centroid (asset st) = getCenter (bbox (asset st)))).
    - intros e st. apply perform_centroid.
    - rewrite initViewerOf_asset. apply loadGLBOf_centroid. reflexivity. }
  split; [exact Hc|]. split.
  { intros Hb. unfold center. rewrite Hb. reflexivity. }
  intros Hctl. split; [|split; [|split]].
  - unfold resetView. rewrite Hctl. simpl. exact Hc.
  - intros found. unfold setOrbitTargetByName. rewrite Hctl, Hc. split; reflexivity.
  - unfold setOrbitTargetTo. rewrite Hctl, Hc. reflexivity.
  - intros i Hi. unfold setOrbitTargetTo, partCount in *. rewrite Hctl, Hc. simpl.
    destruct (Z.ltb_spec i 0), (Z.leb_spec (Z.of_nat (length (parts (asset s)))) i);
      simpl; try reflexivity. lia.
Qed.
